(** * A shallow embedding of the WebRTC signaling relay [server.js]

    The server keeps a registry [sockets] (a JavaScript [Map] from user
    identifier to WebSocket object), a presence store that lives in the side
    file [online.json] and is re-read by [loadOnline] on every use, and one
    heartbeat timer.  Every handler runs to completion on the single
    JavaScript thread, so a handler is a function from world to world; an
    exception that escapes a handler is kept apart from a normal return. *)

From stdpp Require Import base option list sets strings.
From Stdlib Require Import Lia Ascii.

Set Default Proof Using "Type".
#[local] Set Warnings "-clear-no-such-hyp".

(** ** Dictionaries with JavaScript iteration order

    Both the [Map] and the plain object [state.users] iterate in insertion
    order: writing an existing key keeps its position, writing a new key
    appends, deleting removes the key.  (An object lists keys that are array
    indices first; no statement below depends on the order of a list.)  The
    keys of the [Map] are JavaScript values, the keys of the object are
    strings. *)
Module Dict.
Section Dict.
Context {K V : Type} `{EqDecision K}.

Fixpoint get (k : K) (d : list (K * V)) : option V :=
  match d with
  | [] => None
  | (k', v) :: d' => if decide (k' = k) then Some v else get k d'
  end.

Fixpoint set (k : K) (v : V) (d : list (K * V)) : list (K * V) :=
  match d with
  | [] => [(k, v)]
  | (k', v') :: d' =>
      if decide (k' = k) then (k, v) :: d' else (k', v') :: set k v d'
  end.

Fixpoint del (k : K) (d : list (K * V)) : list (K * V) :=
  match d with
  | [] => []
  | (k', v') :: d' =>
      if decide (k' = k) then del k d' else (k', v') :: del k d'
  end.

Definition keys (d : list (K * V)) : list K := d.*1.
Definition values (d : list (K * V)) : list V := d.*2.

(** Number of entries stored under [k]. *)
Definition count (k : K) (d : list (K * V)) : nat :=
  length (filter (λ k', k' = k) (keys d)).
End Dict.
End Dict.

(** Assignment [obj[k] = v] on a plain object.  The name [__proto__] is
    special: unless the object has a property of its own of that name (one
    that [JSON.parse] created), the assignment runs the setter inherited from
    [Object.prototype] and creates no property, so neither [Object.values]
    nor [JSON.stringify] will see it. *)
Definition proto : string := "__proto__".

Definition obj_set {V : Type} (k : string) (v : V) (d : list (string * V))
    : list (string * V) :=
  if bool_decide (k = proto ∧ (k ∉ Dict.keys d)) then d else Dict.set k v d.

(** ** Data *)

(** A value that [JSON.parse] puts into a field of a message.  The server
    tests such a value for truthiness, uses it as a key of the [Map]
    [sockets], uses it as a property name of the object [state.users], and
    hands it back to [JSON.stringify]; a value is represented by what these
    four uses can tell apart.

    - [JUndef]: the field is absent ([undefined]).
    - [JNum n]: a number, written as JavaScript renders it (["5"], ["1.5"],
      ["1e+21"]).  The rendering is one-to-one on the numbers [JSON.parse]
      returns, except that [-0] renders as ["0"]; [-0] and [0] are the same
      [Map] key, and both are falsy.
    - [JRef a k]: an array or an object.  As a [Map] key it is compared by
      identity, [a]; every [JSON.parse] makes new objects, so in a real run
      no two messages carry the same [a].  As a property name it is converted
      to a string, [k]: the elements joined by commas for an array,
      ["[object Object]"] for an object, and no string at all ([None]: the
      conversion throws a [TypeError]) for an object that has a property
      [toString] of its own, or an array that holds one. *)
Inductive jval :=
| JUndef
| JNull
| JBool (b : bool)
| JNum (n : string)
| JStr (s : string)
| JRef (a : nat) (k : option string).

#[global] Instance jval_eq_dec : EqDecision jval.
Proof. solve_decision. Defined.

(** [ws.readyState]; a server-side socket is never [CONNECTING]. *)
Inductive ready := OPEN | CLOSING | CLOSED.

#[global] Instance ready_eq_dec : EqDecision ready.
Proof. solve_decision. Defined.

(** A presence entry [{ id, name, avatar }], with the values the [hello]
    carried. *)
Record entry := Entry {
  e_id : jval;
  e_name : jval;
  e_avatar : jval
}.

(** The [me] object of a [hello]: the three fields the server reads, each
    any JSON value or absent. *)
Record me_obj := Me {
  me_id : jval;
  me_name : jval;
  me_avatar : jval
}.

Inductive kind := Offer | Answer | Ice | End.

(** A parsed inbound message, by its [type] field.  [me] is [None] when
    [msg.me] is absent or [null]; [to] is [msg.to]; [rest] are the remaining
    (opaque) fields. *)
Inductive msg :=
| Hello (me : option me_obj)
| Signal (k : kind) (to : jval) (rest : list (string * jval))
| AppPong
| Other (type : option string).

(** The raw frame: [JSON.parse] throws, or yields [null] (on which reading
    [msg.type] throws), or yields a value with fields. *)
Inductive raw := Garbage | Null | Json (m : msg).

(** What the server serialises and sends: [JSON.stringify] of the presence
    list object, or of a relayed message. *)
Inductive frame :=
| FOnline (users : list entry)
| FRelay (m : msg).

(** One accepted connection: the [ws] object with the fields the server reads
    and writes, the closure variable [myId] of its handlers, and what has been
    done to the channel ([sent]: frames passed to [ws.send]; [pings]: calls of
    [ws.ping]; [killed]: [ws.terminate] was called). *)
Record ws := Ws {
  isAlive : bool;
  readyState : ready;
  myId : jval;
  sent : list frame;
  pings : nat;
  killed : bool
}.

(** How one [fs.writeFileSync] ends: the file is written; or the call throws
    before it touches the file (no permission, read-only file system); or it
    throws after it has truncated the file (disk full, I/O error), and what is
    left does not parse. *)
Inductive write_result := Written | Refused | Torn.

(** The whole system.  [sockets] holds references (indices into [conns]), so
    one connection registered under two identifiers is one shared object.
    [disk] is the content of [online.json]: [None] when the file is missing or
    does not parse, otherwise the [users] object it holds (a file that parses
    has the layout [saveOnline] writes; [JSON.parse] is taken to give back
    the values that [JSON.stringify] was given).  [faults] is the
    environment's script for the coming [fs.writeFileSync] calls; when it is
    used up, writes succeed.  [log] records, for each call of
    [broadcastOnline], the user list it serialised. *)
Record world := World {
  sockets : list (jval * nat);
  disk : option (list (string * entry));
  faults : list write_result;
  conns : list ws;
  log : list (list entry)
}.

Definition with_sockets (s : list (jval * nat)) (w : world) : world :=
  World s (disk w) (faults w) (conns w) (log w).
Definition with_conns (cs : list ws) (w : world) : world :=
  World (sockets w) (disk w) (faults w) cs (log w).
Definition with_log (l : list (list entry)) (w : world) : world :=
  World (sockets w) (disk w) (faults w) (conns w) l.

(** A handler either returns or lets an exception escape; the world carried
    by [Thrown] is the state at the moment of the throw.  Nothing in
    [server.js] catches such an exception, so Node ends the process. *)
Inductive outcome := Returned (w : world) | Thrown (w : world).

Definition and_then (o : outcome) (k : world → outcome) : outcome :=
  match o with
  | Returned w => k w
  | Thrown w => Thrown w
  end.

Notation "'try!' w <- o ; k" := (and_then o (λ w, k))
  (at level 10, w name, o at level 100, k at level 200).

(** ** The state helpers *)

(** JavaScript truthiness: [undefined], [null], [false], zero and the empty
    string are falsy, everything else is truthy. *)
Definition truthy (v : jval) : bool :=
  match v with
  | JUndef | JNull => false
  | JBool b => b
  | JNum n => negb (bool_decide (n = "0"))
  | JStr s => negb (bool_decide (s = EmptyString))
  | JRef _ _ => true
  end.

(** The property name that [obj[v]] uses: the string conversion of [v], or
    none when the conversion throws. *)
Definition to_key (v : jval) : option string :=
  match v with
  | JUndef => Some "undefined"
  | JNull => Some "null"
  | JBool true => Some "true"
  | JBool false => Some "false"
  | JNum n => Some n
  | JStr s => Some s
  | JRef _ k => k
  end.

(** [o?.f], and [o.f] where [o] is known to be an object: the field, or
    [undefined]. *)
Definition field {A : Type} (f : A → jval) (o : option A) : jval :=
  match o with
  | Some a => f a
  | None => JUndef
  end.

(** [loadOnline]: the [users] object of the file, or [{ users: {} }] when the
    read or the parse throws. *)
Definition loadOnline (w : world) : list (string * entry) :=
  match disk w with
  | Some users => users
  | None => []
  end.

(** [saveOnline]: one [fs.writeFileSync], not guarded. *)
Definition saveOnline (state : list (string * entry)) (w : world) : outcome :=
  match faults w with
  | [] => Returned (World (sockets w) (Some state) [] (conns w) (log w))
  | Written :: fs => Returned (World (sockets w) (Some state) fs (conns w) (log w))
  | Refused :: fs => Thrown (World (sockets w) (disk w) fs (conns w) (log w))
  | Torn :: fs => Thrown (World (sockets w) None fs (conns w) (log w))
  end.

(** ** Channel operations *)

Definition update_ws (c : nat) (f : ws → ws) (w : world) : world :=
  with_conns (alter f c (conns w)) w.

Definition push (f : frame) (x : ws) : ws :=
  Ws (isAlive x) (readyState x) (myId x) (sent x ++ [f]) (pings x) (killed x).
Definition set_alive (b : bool) (x : ws) : ws :=
  Ws b (readyState x) (myId x) (sent x) (pings x) (killed x).
Definition set_ready (r : ready) (x : ws) : ws :=
  Ws (isAlive x) r (myId x) (sent x) (pings x) (killed x).
Definition set_myId (i : jval) (x : ws) : ws :=
  Ws (isAlive x) (readyState x) i (sent x) (pings x) (killed x).
Definition probe (x : ws) : ws :=
  Ws (isAlive x) (readyState x) (myId x) (sent x) (S (pings x)) (killed x).

(** [ws.terminate()]: nothing on a closed socket, otherwise the socket is
    destroyed and the object moves to [CLOSING]; its [close] event comes
    later. *)
Definition kill (x : ws) : ws :=
  match readyState x with
  | CLOSED => x
  | _ => Ws (isAlive x) CLOSING (myId x) (sent x) (pings x) true
  end.

Definition is_open (w : world) (c : nat) : bool :=
  match conns w !! c with
  | Some x => bool_decide (readyState x = OPEN)
  | None => false
  end.

(** [if (ws.readyState === ws.OPEN) ws.send(payload)] *)
Definition send_if_open (payload : frame) (w : world) (c : nat) : world :=
  if is_open w c then update_ws c (push payload) w else w.

(** ** [broadcastOnline] *)
Definition broadcastOnline (w : world) : world :=
  let state := loadOnline w in
  let users := Dict.values state in
  let payload := FOnline users in
  foldl (send_if_open payload) (with_log (log w ++ [users]) w)
        (Dict.values (sockets w)).

(** ** The connection handlers *)

Definition fresh_ws : ws := Ws true OPEN JNull [] 0 false.

(** [wss.on("connection")]: a new socket object, [myId = null],
    [ws.isAlive = true]. *)
Definition on_connection (w : world) : world :=
  with_conns (conns w ++ [fresh_ws]) w.

(** [ws.on("pong")] *)
Definition on_pong (c : nat) (w : world) : world :=
  update_ws c (set_alive true) w.

(** [ws.on("message")].  In the [hello] branch the identifier is first a
    [Map] key, as it is, and then a property name of [state.users], as a
    string; when it has no string conversion the assignment on line 100
    throws, after [sockets.set] and before [saveOnline]. *)
Definition on_message (c : nat) (buf : raw) (w : world) : outcome :=
  match buf with
  | Garbage => Returned w
  | Null => Thrown w
  | Json (Hello me) =>
      let id := field me_id me in
      let w := update_ws c (set_myId id) w in
      if truthy id then
        let w := with_sockets (Dict.set id c (sockets w)) w in
        let state := loadOnline w in
        match to_key id with
        | Some key =>
            let user := Entry id (field me_name me) (field me_avatar me) in
            let state := obj_set key user state in
            try! w <- saveOnline state w;
            Returned (broadcastOnline w)
        | None => Thrown w
        end
      else Returned w
  | Json (Signal k to rest) =>
      match Dict.get to (sockets w) with
      | Some d => Returned (send_if_open (FRelay (Signal k to rest)) w d)
      | None => Returned w
      end
  | Json AppPong => Returned (update_ws c (set_alive true) w)
  | Json (Other _) => Returned w
  end.

(** [ws.on("close")] *)
Definition on_close (c : nat) (w : world) : outcome :=
  match conns w !! c with
  | Some x =>
      if truthy (myId x) then
        let w := with_sockets (Dict.del (myId x) (sockets w)) w in
        let state := loadOnline w in
        match to_key (myId x) with
        | Some key =>
            let state := Dict.del key state in
            try! w <- saveOnline state w;
            Returned (broadcastOnline w)
        | None => Thrown w
        end
      else Returned w
  | None => Returned w
  end.

(** ** The heartbeat *)

(** One turn of the [for] loop over [sockets.entries()]. *)
Definition sweep_entry (p : jval * nat) (w : world) : outcome :=
  let '(id, c) := p in
  match conns w !! c with
  | Some x =>
      if isAlive x then
        let w := update_ws c (set_alive false) w in
        Returned (update_ws c probe w)
      else
        let w := update_ws c kill w in
        let w := with_sockets (Dict.del id (sockets w)) w in
        let state := loadOnline w in
        match to_key id with
        | Some key =>
            let state := Dict.del key state in
            saveOnline state w
        | None => Thrown w
        end
  | None => Returned w
  end.

(** The loop.  A turn deletes only its own key, and the keys of a [Map] are
    distinct, so walking the entries present at the start visits what the
    live iterator visits. *)
Fixpoint sweep (l : list (jval * nat)) (w : world) : outcome :=
  match l with
  | [] => Returned w
  | p :: l' => try! w <- sweep_entry p w; sweep l' w
  end.

(** The [setInterval] callback. *)
Definition heartbeat (w : world) : outcome :=
  try! w <- sweep (sockets w) w;
  Returned (broadcastOnline w).

(** ** The HTTP route [/online] *)

(** The list in the body of the answer:
    [Object.values(loadOnline().users)]. *)
Definition online_route (w : world) : list entry :=
  Dict.values (loadOnline w).

(** ** The HTTP handler *)

(** [s.replace(/\/+$/, empty)]: the pattern matches the whole run of slashes
    that ends the string, so the result is [s] without its trailing
    slashes. *)
Fixpoint strip_slashes (s : string) : string :=
  match s with
  | EmptyString => EmptyString
  | String a s' =>
      match strip_slashes s' with
      | EmptyString =>
          if Ascii.eqb a "/"%char then EmptyString else String a EmptyString
      | r => String a r
      end
  end.

(** [process.env.WS_BASE_PATH || "/"]: an unset or empty variable gives the
    default. *)
Definition WS_BASE_PATH (env : option string) : string :=
  match env with
  | Some s => if bool_decide (s = EmptyString) then "/" else s
  | None => "/"
  end.

Inductive body := JsonUsers (users : list entry) | Text (s : string).

(** What the handler writes: the status code (200 unless [writeHead] says
    otherwise), the [Content-Type] header if one is set, and the body. *)
Record response := Response {
  status : nat;
  content_type : option string;
  payload_of : body
}.

Definition onlinePaths (base : string) : list string :=
  ["/online"; strip_slashes base +:+ "/online"].

Definition healthPaths (base : string) : list string :=
  ["/"; "/healthz"; strip_slashes base +:+ "/healthz"].

(** The request listener of [http.createServer], from the parsed path name
    [p = new URL(req.url, ...).pathname] on. *)
Definition http_handler (base : string) (p : string) (w : world) : response :=
  if bool_decide (p ∈ onlinePaths base) then
    Response 200 (Some "application/json") (JsonUsers (online_route w))
  else if bool_decide (p ∈ healthPaths base) then
    Response 200 (Some "text/plain") (Text "OK")
  else
    Response 404 None (Text "Not Found").

(** ** The event loop *)

Inductive event :=
| Connect
| Message (c : nat) (buf : raw)
| Pong (c : nat)
| Closing (c : nat)
| Close (c : nat)
| Tick.

(** The transport moves an open socket to [CLOSING] when a closing handshake
    starts, and to [CLOSED] just before it emits [close]. *)
Definition start_closing (x : ws) : ws :=
  match readyState x with
  | OPEN => set_ready CLOSING x
  | _ => x
  end.

(** Events of a connection only exist for a connection that was accepted. *)
Definition accepted (c : nat) (w : world) : bool :=
  bool_decide (c < length (conns w)).

Definition step (ev : event) (w : world) : outcome :=
  match ev with
  | Connect => Returned (on_connection w)
  | Message c buf => if accepted c w then on_message c buf w else Returned w
  | Pong c => Returned (on_pong c w)
  | Closing c => Returned (update_ws c start_closing w)
  | Close c => on_close c (update_ws c (set_ready CLOSED) w)
  | Tick => heartbeat w
  end.

Fixpoint run (evs : list event) (w : world) : outcome :=
  match evs with
  | [] => Returned w
  | ev :: evs' => try! w <- step ev w; run evs' w
  end.

(** The state at start-up: nobody connected, the side file as it was left. *)
Definition init (file : option (list (string * entry)))
    (fs : list write_result) : world :=
  World [] file fs [] [].


(** ** Vocabulary of the statements *)

(** Number of registry entries that point to connection [c]. *)
Definition refs (c : nat) (cs : list nat) : nat :=
  length (filter (λ c', c' = c) cs).

(** [n] copies of [payload] handed to [ws.send], when the socket is open. *)
Definition deliver (payload : frame) (n : nat) (x : ws) : ws :=
  if bool_decide (readyState x = OPEN)
  then Ws (isAlive x) (readyState x) (myId x)
          (sent x ++ replicate n payload) (pings x) (killed x)
  else x.

(** What one turn of the heartbeat loop does to the socket it visits: a
    socket still flagged alive is flagged and probed, one whose flag was
    already down is terminated. *)
Definition visit (x : ws) : ws :=
  if isAlive x then probe (set_alive false x) else kill x.

(** The coming [fs.writeFileSync] does not throw. *)
Definition write_ok (w : world) : Prop :=
  ∀ r, head (faults w) = Some r → r = Written.

(** No coming [fs.writeFileSync] throws. *)
Definition writes_ok (w : world) : Prop :=
  Forall (λ r, r = Written) (faults w).

(** The side file after a write that threw. *)
Definition after_fault (r : write_result)
    (d : option (list (string * entry))) : option (list (string * entry)) :=
  match r with
  | Torn => None
  | _ => d
  end.

(** The keys of the presence store (property names), and the keys of the
    registry (values). *)
Definition present (key : string) (w : world) : Prop :=
  key ∈ Dict.keys (loadOnline w).
Definition registered (id : jval) (w : world) : Prop :=
  id ∈ Dict.keys (sockets w).

(** Every registry key has a property name.  (A [hello] whose identifier has
    none throws on line 100, so a key of this kind is never in the registry
    of a server that is still running.) *)
Definition keyed (w : world) : Prop :=
  Forall (λ p, is_Some (to_key p.1)) (sockets w).

(** The coming tick has an eviction to make: some registry entry will find
    the flag of its socket down, because it is down already or because an
    earlier entry of the same socket will have taken it down. *)
Definition due (w : world) : Prop :=
  ∃ id c x, (id, c) ∈ sockets w ∧ conns w !! c = Some x ∧
            (isAlive x = false ∨ 2 ≤ refs c (Dict.values (sockets w))).

(** A [hello] that names [id]. *)
Definition is_hello_of (id : jval) (ev : event) : Prop :=
  ∃ c me, ev = Message c (Json (Hello (Some me))) ∧ me_id me = id.

(** A [hello] whose identifier is usable and has the property name [key]. *)
Definition is_hello_for (key : string) (ev : event) : Prop :=
  ∃ id, is_hello_of id ev ∧ truthy id = true ∧ to_key id = Some key.


(** [Q] holds of the identifier of every bound connection. *)
Definition bindings (Q : jval → Prop) (w : world) : Prop :=
  ∀ c x, conns w !! c = Some x → truthy (myId x) = true → Q (myId x).



(** A pong of connection [c]: the protocol frame or the application
    message. *)
Definition is_pong_of (c : nat) (ev : event) : Prop :=
  ev = Pong c ∨ ev = Message c (Json AppPong).

(** How one event may change the flag and the binding of connection [c]:
    the flag keeps its value or goes down unless the event is a pong of [c];
    the binding keeps its value unless the event is a [hello] of [c]. *)
Definition evolve (ev : event) (c : nat) (x x' : ws) : Prop :=
  (isAlive x' = isAlive x ∨ isAlive x' = false ∨ is_pong_of c ev) ∧
  (myId x' = myId x ∨
   ∃ me, ev = Message c (Json (Hello me)) ∧ myId x' = field me_id me).

(** An entry [e] that sits in the presence store under [Z] while no registry
    key and no binding of a connection has the property name [Z], and that
    every broadcast so far has carried; and no coming write truncates the
    file. *)
Definition seeded (Z : string) (e : entry) (w : world) : Prop :=
  Dict.get Z (loadOnline w) = Some e ∧
  (∀ id, registered id w → to_key id ≠ Some Z) ∧
  bindings (λ id, to_key id ≠ Some Z) w ∧
  Forall (λ users, e ∈ users) (log w) ∧
  Torn ∉ faults w.

(** The world an outcome carries. *)
Definition world_of (o : outcome) : world :=
  match o with
  | Returned w => w
  | Thrown w => w
  end.

(** ** Sample clients *)

Definition alice : me_obj := Me (JStr "a1") (JStr "Alice") (JStr "x").
Definition alicia : me_obj := Me (JStr "a1") (JStr "Alicia") (JStr "y").
Definition bob : me_obj := Me (JStr "b1") (JStr "Bob") (JStr "y").

Definition alice_entry : entry := Entry (JStr "a1") (JStr "Alice") (JStr "x").
Definition alicia_entry : entry := Entry (JStr "a1") (JStr "Alicia") (JStr "y").
Definition bob_entry : entry := Entry (JStr "b1") (JStr "Bob") (JStr "y").

Definition mallory : me_obj := Me (JStr proto) (JStr "Mallory") JUndef.

(** Two clients whose identifiers differ as values and agree as property
    names: the number 5 and the string ["5"]. *)
Definition five : me_obj := Me (JNum "5") (JStr "Five") JUndef.
Definition fivestr : me_obj := Me (JStr "5") (JStr "Cinq") JUndef.

Definition hello (m : me_obj) : raw := Json (Hello (Some m)).

(** [{"type":"offer","to":"a1","sdp":"..."}] *)
Definition offer_to_alice : msg :=
  Signal Offer (JStr "a1") [("sdp", JStr "...")].

(** Alice on connection 0 and Bob on connection 1, both registered. *)
Definition two_clients : world :=
  world_of (run [Connect; Connect; Message 0 (hello alice); Message 1 (hello bob)]
                (init None [])).

(** [n] slashes. *)
Fixpoint slashes (n : nat) : string :=
  match n with
  | 0 => EmptyString
  | S n' => String "/"%char (slashes n')
  end.

(** [s] does not end with a slash. *)
Definition no_trailing_slash (s : string) : Prop :=
  ∀ t, s ≠ t +:+ "/".

(** A [hello] of connection [c] that carries a usable identifier. *)
Definition is_registration_of (c : nat) (ev : event) : Prop :=
  ∃ me, ev = Message c (Json (Hello me)) ∧ truthy (field me_id me) = true.

(** Any [hello] of connection [c]. *)
Definition is_any_hello_of (c : nat) (ev : event) : Prop :=
  ∃ me, ev = Message c (Json (Hello me)).

#[global] Arguments sweep_entry : simpl never.
#[global] Arguments broadcastOnline : simpl never.
#[global] Arguments saveOnline : simpl never.
#[global] Arguments update_ws : simpl never.
#[global] Arguments send_if_open : simpl never.

(** ** Facts about dictionaries *)
Module DictFacts.
Section DictFacts.
Context {K V : Type} `{EqDecision K}.
Implicit Types (d : list (K * V)) (k : K) (v : V).

Lemma get_set_eq k v d : Dict.get k (Dict.set k v d) = Some v.
Proof.
  induction d as [|[k' v'] d IH]; simpl.
  - by rewrite decide_True.
  - destruct (decide (k' = k)) as [->|Hne]; simpl.
    + by rewrite decide_True.
    + by rewrite decide_False.
Qed.

Lemma get_set_ne k k' v d :
  k ≠ k' → Dict.get k' (Dict.set k v d) = Dict.get k' d.
Proof.
  intros Hne. induction d as [|[k0 v0] d IH]; simpl.
  - by rewrite decide_False.
  - destruct (decide (k0 = k)) as [->|Hk0]; simpl.
    + by rewrite !decide_False.
    + destruct (decide (k0 = k')); [done | apply IH].
Qed.

Lemma get_del_eq k d : Dict.get k (Dict.del k d) = None.
Proof.
  induction d as [|[k' v'] d IH]; simpl; [done|].
  destruct (decide (k' = k)); simpl; [done|]. by rewrite decide_False.
Qed.

Lemma get_del_ne k k' d :
  k ≠ k' → Dict.get k' (Dict.del k d) = Dict.get k' d.
Proof.
  intros Hne. induction d as [|[k0 v0] d IH]; simpl; [done|].
  destruct (decide (k0 = k)) as [->|Hk0]; simpl.
  - by rewrite decide_False.
  - destruct (decide (k0 = k')); [done | apply IH].
Qed.

Lemma elem_of_keys_set k k' v d :
  k' ∈ Dict.keys (Dict.set k v d) ↔ k' = k ∨ k' ∈ Dict.keys d.
Proof.
  unfold Dict.keys. induction d as [|[k0 v0] d IH]; simpl.
  - rewrite list_elem_of_singleton. set_solver.
  - destruct (decide (k0 = k)) as [->|Hk0]; simpl.
    + set_solver.
    + rewrite !elem_of_cons, IH. tauto.
Qed.

Lemma elem_of_keys_del k k' d :
  k' ∈ Dict.keys (Dict.del k d) ↔ k' ≠ k ∧ k' ∈ Dict.keys d.
Proof.
  unfold Dict.keys. induction d as [|[k0 v0] d IH]; simpl.
  - set_solver.
  - destruct (decide (k0 = k)) as [->|Hk0]; simpl.
    + rewrite IH, elem_of_cons. naive_solver.
    + rewrite !elem_of_cons, IH. naive_solver.
Qed.

Lemma get_Some_elem k v d : Dict.get k d = Some v → (k, v) ∈ d.
Proof.
  induction d as [|[k' v'] d IH]; simpl; [done|].
  destruct (decide (k' = k)) as [->|]; intros H.
  - injection H as ->. left.
  - right. by apply IH.
Qed.

Lemma get_Some_values k v d : Dict.get k d = Some v → v ∈ Dict.values d.
Proof.
  intros H%get_Some_elem. unfold Dict.values.
  apply list_elem_of_fmap. by exists (k, v).
Qed.

Lemma get_None_keys k d : Dict.get k d = None ↔ k ∉ Dict.keys d.
Proof.
  unfold Dict.keys. induction d as [|[k' v'] d IH]; simpl.
  - set_solver.
  - destruct (decide (k' = k)) as [->|Hne].
    + set_solver.
    + rewrite IH, not_elem_of_cons. naive_solver.
Qed.

Lemma elem_keys k v d : (k, v) ∈ d → k ∈ Dict.keys d.
Proof.
  intros H. unfold Dict.keys. apply list_elem_of_fmap. by exists (k, v).
Qed.

Lemma elem_values k v d : (k, v) ∈ d → v ∈ Dict.values d.
Proof.
  intros H. unfold Dict.values. apply list_elem_of_fmap. by exists (k, v).
Qed.

Lemma elem_of_del k k' v d : (k', v) ∈ Dict.del k d → (k', v) ∈ d.
Proof.
  induction d as [|[k0 v0] d IH]; simpl; [done|].
  destruct (decide (k0 = k)); rewrite ?elem_of_cons; naive_solver.
Qed.

Lemma elem_of_del_ne k k' v d : k' ≠ k → (k', v) ∈ d → (k', v) ∈ Dict.del k d.
Proof.
  intros Hne. induction d as [|[k0 v0] d IH]; simpl; [done|].
  destruct (decide (k0 = k)) as [->|]; rewrite ?elem_of_cons; naive_solver.
Qed.

Lemma count_notin k d : k ∉ Dict.keys d → Dict.count k d = 0.
Proof.
  unfold Dict.count, Dict.keys. induction d as [|[k' v'] d IH]; simpl; [done|].
  rewrite not_elem_of_cons. intros [Hne Hnot].
  rewrite filter_cons, decide_False by done. by apply IH.
Qed.

Lemma count_NoDup k d :
  NoDup (Dict.keys d) → k ∈ Dict.keys d → Dict.count k d = 1.
Proof.
  unfold Dict.count, Dict.keys. induction d as [|[k' v'] d IH]; simpl.
  - set_solver.
  - rewrite NoDup_cons, elem_of_cons. intros [Hnot Hnd] Hin.
    rewrite filter_cons. destruct (decide (k' = k)) as [->|Hne]; simpl.
    + f_equal. by apply (count_notin k d).
    + apply IH; [done|]. naive_solver.
Qed.

Lemma NoDup_keys_set k v d :
  NoDup (Dict.keys d) → NoDup (Dict.keys (Dict.set k v d)).
Proof.
  induction d as [|[k' v'] d IH]; simpl.
  - intros _. apply NoDup_singleton.
  - unfold Dict.keys in *. simpl. rewrite NoDup_cons. intros [Hnot Hnd].
    destruct (decide (k' = k)) as [->|Hne]; simpl.
    + by apply NoDup_cons.
    + apply NoDup_cons. split; [|by apply IH].
      intros [->|?]%(elem_of_keys_set k k' v d); done.
Qed.

Lemma NoDup_keys_del k d :
  NoDup (Dict.keys d) → NoDup (Dict.keys (Dict.del k d)).
Proof.
  induction d as [|[k' v'] d IH]; simpl; [done|].
  unfold Dict.keys in *. simpl. rewrite NoDup_cons. intros [Hnot Hnd].
  destruct (decide (k' = k)) as [->|Hne]; simpl; [by apply IH|].
  apply NoDup_cons. split; [|by apply IH].
  intros [_ ?]%(elem_of_keys_del k k' d). done.
Qed.

End DictFacts.

Section ObjFacts.
Context {V : Type}.
Implicit Types (d : list (string * V)) (k : string) (v : V).

Lemma obj_set_cases k v d :
  (k ≠ proto ∨ k ∈ Dict.keys d) ∧ obj_set k v d = Dict.set k v d ∨
  k = proto ∧ (k ∉ Dict.keys d) ∧ obj_set k v d = d.
Proof.
  unfold obj_set. case_bool_decide as H.
  - right. by destruct H.
  - left. split; [|done]. destruct (decide (k = proto)); [|by left].
    right. destruct (decide (k ∈ Dict.keys d)); [done|]. by destruct H.
Qed.

Lemma get_obj_set_eq k v d :
  k ≠ proto → Dict.get k (obj_set k v d) = Some v.
Proof.
  intros Hk. destruct (obj_set_cases k v d) as [[_ ->]|[? _]]; [|done].
  apply get_set_eq.
Qed.

Lemma get_obj_set_ne k k' v d :
  k ≠ k' → Dict.get k' (obj_set k v d) = Dict.get k' d.
Proof.
  intros Hk. destruct (obj_set_cases k v d) as [[_ ->]|(_ & _ & ->)]; [|done].
  by apply get_set_ne.
Qed.

Lemma elem_of_keys_obj_set k k' v d :
  k' ∈ Dict.keys (obj_set k v d) ↔
  (k' = k ∧ (k ≠ proto ∨ k ∈ Dict.keys d)) ∨ k' ∈ Dict.keys d.
Proof.
  destruct (obj_set_cases k v d) as [[Hk ->]|(-> & Hnot & ->)].
  - rewrite elem_of_keys_set. tauto.
  - split; [by right|]. intros [[-> [?|?]]|?]; done.
Qed.

Lemma NoDup_keys_obj_set k v d :
  NoDup (Dict.keys d) → NoDup (Dict.keys (obj_set k v d)).
Proof.
  destruct (obj_set_cases k v d) as [[_ ->]|(_ & _ & ->)]; [|done].
  apply NoDup_keys_set.
Qed.
End ObjFacts.
End DictFacts.

(** ** What a handler leaves alone *)

Section Frames.
Implicit Types (w : world) (c d : nat) (x : ws) (f : ws → ws).

Lemma update_ws_sockets c f w : sockets (update_ws c f w) = sockets w.
Proof. done. Qed.
Lemma update_ws_disk c f w : disk (update_ws c f w) = disk w.
Proof. done. Qed.
Lemma update_ws_faults c f w : faults (update_ws c f w) = faults w.
Proof. done. Qed.
Lemma update_ws_log c f w : log (update_ws c f w) = log w.
Proof. done. Qed.
Lemma update_ws_load c f w : loadOnline (update_ws c f w) = loadOnline w.
Proof. done. Qed.

Lemma update_ws_lookup c f w :
  conns (update_ws c f w) !! c = f <$> conns w !! c.
Proof. unfold update_ws; simpl. by rewrite list_lookup_alter, decide_True. Qed.

Lemma update_ws_lookup_ne c d f w :
  c ≠ d → conns (update_ws c f w) !! d = conns w !! d.
Proof. intros. unfold update_ws; simpl. by rewrite list_lookup_alter, decide_False. Qed.

Lemma update_ws_length c f w :
  length (conns (update_ws c f w)) = length (conns w).
Proof. apply length_alter. Qed.

Lemma deliver_0 payload x : deliver payload 0 x = x.
Proof.
  unfold deliver. case_bool_decide; [|done].
  destruct x; simpl. by rewrite app_nil_r.
Qed.

Lemma deliver_push payload n x :
  readyState x = OPEN →
  deliver payload n (push payload x) = deliver payload (S n) x.
Proof.
  intros Hopen. unfold deliver, push; simpl. rewrite !bool_decide_eq_true_2 by done.
  f_equal. by rewrite <- app_assoc.
Qed.

Lemma deliver_closed payload n x : readyState x ≠ OPEN → deliver payload n x = x.
Proof. intros. unfold deliver. by rewrite bool_decide_eq_false_2. Qed.

Lemma deliver_S payload n x :
  deliver payload n (deliver payload 1 x) = deliver payload (S n) x.
Proof.
  destruct (decide (readyState x = OPEN)) as [Hopen|Hopen].
  - unfold deliver. rewrite (bool_decide_eq_true_2 _ Hopen). simpl.
    rewrite (bool_decide_eq_true_2 _ Hopen). by rewrite <- app_assoc.
  - rewrite (deliver_closed payload 1 x) by done.
    by rewrite (deliver_closed payload n x), (deliver_closed payload (S n) x).
Qed.

Lemma send_if_open_fields payload w d :
  sockets (send_if_open payload w d) = sockets w ∧
  disk (send_if_open payload w d) = disk w ∧
  faults (send_if_open payload w d) = faults w ∧
  log (send_if_open payload w d) = log w.
Proof. unfold send_if_open. by destruct (is_open w d). Qed.

Lemma send_if_open_conns payload w d :
  conns (send_if_open payload w d) !! d = deliver payload 1 <$> conns w !! d.
Proof.
  unfold send_if_open, is_open. destruct (conns w !! d) as [y|] eqn:Hy.
  - case_bool_decide as Hopen.
    + rewrite update_ws_lookup, Hy. simpl. f_equal.
      unfold deliver. by rewrite bool_decide_eq_true_2.
    + rewrite Hy. simpl. by rewrite deliver_closed.
  - by rewrite Hy.
Qed.

Lemma send_if_open_conns_ne payload w d c :
  d ≠ c → conns (send_if_open payload w d) !! c = conns w !! c.
Proof.
  intros Hne. unfold send_if_open. destruct (is_open w d); [|done].
  by apply update_ws_lookup_ne.
Qed.

(** The [for] loop of [broadcastOnline], on any list of channels. *)
Lemma fanout_spec payload cs w :
  let w' := foldl (send_if_open payload) w cs in
  sockets w' = sockets w ∧ disk w' = disk w ∧ faults w' = faults w ∧
  log w' = log w ∧
  ∀ c, conns w' !! c = deliver payload (refs c cs) <$> conns w !! c.
Proof.
  revert w. induction cs as [|d cs IH]; intros w; cbn [foldl].
  - repeat split. intros c. destruct (conns w !! c) as [x|]; simpl; [|done].
    by rewrite deliver_0.
  - destruct (IH (send_if_open payload w d)) as (Hs & Hd & Hf & Hl & Hc).
    destruct (send_if_open_fields payload w d) as (Hs' & Hd' & Hf' & Hl').
    cbv zeta. rewrite Hs, Hd, Hf, Hl. repeat split; try done.
    intros c. rewrite Hc. unfold refs. rewrite filter_cons.
    destruct (decide (d = c)) as [->|Hne]; cbn [length].
    + rewrite send_if_open_conns. destruct (conns w !! c); simpl; [|done].
      by rewrite deliver_S.
    + by rewrite send_if_open_conns_ne.
Qed.

Lemma broadcast_sockets w : sockets (broadcastOnline w) = sockets w.
Proof. unfold broadcastOnline. by destruct (fanout_spec
  (FOnline (Dict.values (loadOnline w)))
  (Dict.values (sockets w))
  (with_log (log w ++ [Dict.values (loadOnline w)]) w)) as (-> & _). Qed.

Lemma broadcast_disk w : disk (broadcastOnline w) = disk w.
Proof. unfold broadcastOnline. by destruct (fanout_spec
  (FOnline (Dict.values (loadOnline w)))
  (Dict.values (sockets w))
  (with_log (log w ++ [Dict.values (loadOnline w)]) w)) as (_ & -> & _). Qed.

Lemma broadcast_faults w : faults (broadcastOnline w) = faults w.
Proof. unfold broadcastOnline. by destruct (fanout_spec
  (FOnline (Dict.values (loadOnline w)))
  (Dict.values (sockets w))
  (with_log (log w ++ [Dict.values (loadOnline w)]) w)) as (_ & _ & -> & _). Qed.

Lemma broadcast_log w :
  log (broadcastOnline w) = log w ++ [Dict.values (loadOnline w)].
Proof. unfold broadcastOnline. by destruct (fanout_spec
  (FOnline (Dict.values (loadOnline w)))
  (Dict.values (sockets w))
  (with_log (log w ++ [Dict.values (loadOnline w)]) w)) as (_ & _ & _ & -> & _). Qed.

Lemma broadcast_conns w c :
  conns (broadcastOnline w) !! c =
  deliver (FOnline (Dict.values (loadOnline w)))
          (refs c (Dict.values (sockets w))) <$> conns w !! c.
Proof. unfold broadcastOnline. by destruct (fanout_spec
  (FOnline (Dict.values (loadOnline w)))
  (Dict.values (sockets w))
  (with_log (log w ++ [Dict.values (loadOnline w)]) w)) as (_ & _ & _ & _ & ->). Qed.

Lemma broadcast_load w : loadOnline (broadcastOnline w) = loadOnline w.
Proof. unfold loadOnline. by rewrite broadcast_disk. Qed.

Lemma broadcast_length w : length (conns (broadcastOnline w)) = length (conns w).
Proof.
  destruct (decide (length (conns (broadcastOnline w)) = length (conns w)))
    as [|Hne]; [done|exfalso].
  destruct (decide (length (conns (broadcastOnline w)) < length (conns w))).
  - destruct (lookup_lt_is_Some_2 (conns w) (length (conns (broadcastOnline w))))
      as [x Hx]; [done|].
    pose proof (broadcast_conns w (length (conns (broadcastOnline w)))) as H.
    rewrite Hx in H. simpl in H. apply lookup_lt_Some in H. lia.
  - destruct (lookup_lt_is_Some_2 (conns (broadcastOnline w)) (length (conns w)))
      as [x Hx]; [lia|].
    pose proof (broadcast_conns w (length (conns w))) as H.
    rewrite Hx in H. rewrite (lookup_ge_None_2 (conns w)) in H by lia. done.
Qed.

(** A broadcast only appends to [sent]. *)
Lemma deliver_fields payload n x :
  isAlive (deliver payload n x) = isAlive x ∧
  readyState (deliver payload n x) = readyState x ∧
  myId (deliver payload n x) = myId x ∧
  pings (deliver payload n x) = pings x ∧
  killed (deliver payload n x) = killed x.
Proof. unfold deliver. by case_bool_decide. Qed.

Lemma refs_registered (id : jval) c (s : list (jval * nat)) :
  (id, c) ∈ s → 0 < refs c (Dict.values s).
Proof.
  intros Hin. unfold refs.
  assert (c ∈ filter (λ c', c' = c) (Dict.values s)) as Hc.
  { apply list_elem_of_filter. split; [done|]. by eapply DictFacts.elem_values. }
  destruct (filter _ _); [by apply elem_of_nil in Hc | simpl; lia].
Qed.
End Frames.

(** ** The durability write *)
Section Save.
Implicit Types (w : world) (state : list (string * entry)).

Lemma saveOnline_Returned state w w' :
  saveOnline state w = Returned w' →
  sockets w' = sockets w ∧ disk w' = Some state ∧ conns w' = conns w ∧
  log w' = log w ∧ faults w' = tail (faults w) ∧ write_ok w.
Proof.
  unfold saveOnline, write_ok.
  destruct (faults w) as [|[] fs]; intros [= <-]; simpl; repeat split; try done.
  by intros r [= <-].
Qed.

Lemma saveOnline_Thrown state w w' :
  saveOnline state w = Thrown w' →
  ∃ r fs, faults w = r :: fs ∧ r ≠ Written ∧ faults w' = fs ∧
          sockets w' = sockets w ∧ disk w' = after_fault r (disk w) ∧
          conns w' = conns w ∧ log w' = log w.
Proof.
  unfold saveOnline.
  destruct (faults w) as [|[] fs]; intros [= <-]; simpl;
    eexists _, _; by repeat split.
Qed.

Lemma saveOnline_write_ok state w :
  write_ok w → ∃ w', saveOnline state w = Returned w'.
Proof.
  unfold saveOnline, write_ok. destruct (faults w) as [|[] fs]; simpl; eauto.
  - intros H. by specialize (H Refused eq_refl).
  - intros H. by specialize (H Torn eq_refl).
Qed.

Lemma saveOnline_fault state w r fs :
  faults w = r :: fs → r ≠ Written →
  saveOnline state w =
  Thrown (World (sockets w) (after_fault r (disk w)) fs (conns w) (log w)).
Proof. unfold saveOnline. intros -> Hr. by destruct r. Qed.

Lemma writes_ok_write_ok w : writes_ok w → write_ok w.
Proof.
  unfold writes_ok, write_ok. destruct (faults w) as [|b fs]; simpl; [done|].
  intros [-> _]%Forall_cons r [= <-]. done.
Qed.

Lemma writes_ok_tail w w' :
  faults w' = tail (faults w) → writes_ok w → writes_ok w'.
Proof.
  unfold writes_ok. intros ->. destruct (faults w) as [|b fs]; simpl; [done|].
  by intros [_ ?]%Forall_cons.
Qed.
End Save.

(** ** The heartbeat loop *)
Section Sweep.
Implicit Types (w : world) (l : list (jval * nat)) (p : jval * nat).

Lemma sweep_app l1 l2 w w' :
  sweep (l1 ++ l2) w = Returned w' ↔
  ∃ w1, sweep l1 w = Returned w1 ∧ sweep l2 w1 = Returned w'.
Proof.
  revert w. induction l1 as [|p l1 IH]; intros w; simpl.
  - split; [eauto | by intros (w1 & [= ->] & ?)].
  - destruct (sweep_entry p w) as [w0|w0]; simpl; [apply IH|].
    split; [done | by intros (w1 & ? & _)].
Qed.

(** An invariant of every turn is an invariant of the loop. *)
Lemma sweep_invariant (P : world → Prop) l w w' :
  (∀ p w1 w2, p ∈ l → P w1 → sweep_entry p w1 = Returned w2 → P w2) →
  P w → sweep l w = Returned w' → P w'.
Proof.
  revert w. induction l as [|p l IH]; intros w Hstep HP; simpl.
  - by intros [= <-].
  - destruct (sweep_entry p w) as [w0|w0] eqn:Hp; simpl; [|done].
    apply IH.
    + intros q w1 w2 Hq. apply Hstep. by right.
    + eapply Hstep; [left | done | done].
Qed.

(** What one turn does: an eviction (of an entry whose key has the property
    name [key]) or a probe. *)
Lemma sweep_entry_Returned id c w w' :
  sweep_entry (id, c) w = Returned w' →
  log w' = log w ∧
  (∀ d, d ≠ c → conns w' !! d = conns w !! d) ∧
  conns w' !! c = visit <$> conns w !! c ∧
  ((∃ x key, conns w !! c = Some x ∧ isAlive x = false ∧ write_ok w ∧
         to_key id = Some key ∧
         sockets w' = Dict.del id (sockets w) ∧
         disk w' = Some (Dict.del key (loadOnline w)) ∧
         faults w' = tail (faults w))
   ∨ ((∀ x, conns w !! c = Some x → isAlive x = true) ∧
      sockets w' = sockets w ∧ disk w' = disk w ∧ faults w' = faults w)).
Proof.
  unfold sweep_entry. destruct (conns w !! c) as [x|] eqn:Hx.
  - destruct (isAlive x) eqn:Ha.
    + intros [= <-]. split; [done|]. split; [|split].
      * intros d Hd. by rewrite !update_ws_lookup_ne.
      * rewrite !update_ws_lookup, Hx. simpl. unfold visit. by rewrite Ha.
      * right. repeat split; try done. by intros ? [= <-].
    + destruct (to_key id) as [key|] eqn:Hkey; [|done].
      intros Hsave. apply saveOnline_Returned in Hsave
        as (Hs & Hd & Hc & Hl & Hf & Hok). simpl in *.
      split; [done|]. split; [|split].
      * intros d Hne. rewrite Hc. by rewrite list_lookup_alter_ne.
      * rewrite Hc, list_lookup_alter_eq, Hx. simpl. unfold visit. by rewrite Ha.
      * left. exists x, key. by repeat split.
  - intros [= <-]. split; [done|]. split; [done|]. split; [by rewrite Hx|].
    right. by repeat split.
Qed.

(** A turn that throws: the socket had its flag down and was terminated,
    its key is out of the registry, and either the key has no property name
    or the write threw. *)
Lemma sweep_entry_Thrown id c w w' :
  sweep_entry (id, c) w = Thrown w' →
  ∃ x, conns w !! c = Some x ∧ isAlive x = false ∧
       sockets w' = Dict.del id (sockets w) ∧
       conns w' = alter kill c (conns w) ∧ log w' = log w ∧
       ((to_key id = None ∧ disk w' = disk w ∧ faults w' = faults w) ∨
        (∃ r fs, faults w = r :: fs ∧ r ≠ Written ∧ faults w' = fs ∧
                 disk w' = after_fault r (disk w))).
Proof.
  unfold sweep_entry. destruct (conns w !! c) as [x|] eqn:Hx; [|done].
  destruct (isAlive x) eqn:Ha; [done|]. intros H. exists x.
  destruct (to_key id) as [key|] eqn:Hkey.
  - apply saveOnline_Thrown in H as (r & fs & Hf & Hr & Hf' & Hs & Hd & Hc & Hl).
    simpl in *. repeat split; try done. right. by exists r, fs.
  - injection H as <-. simpl. repeat split; try done. by left.
Qed.

Lemma sweep_entry_registry id c w w' id' key' :
  sweep_entry (id, c) w = Returned w' →
  (registered id' w' → registered id' w) ∧ (present key' w' → present key' w).
Proof.
  intros (_ & _ & _ & [(x & key & _ & _ & _ & _ & Hs & Hd & _)|(_ & Hs & Hd & _)])
    %sweep_entry_Returned; unfold registered, present, loadOnline.
  - rewrite Hs, Hd. split; by intros [_ ?]%DictFacts.elem_of_keys_del.
  - by rewrite Hs, Hd.
Qed.

Lemma sweep_log l w w' : sweep l w = Returned w' → log w' = log w.
Proof.
  apply (sweep_invariant (λ w1, log w1 = log w)); [|done].
  intros [id c] w1 w2 _ Hw1 (Hl & _)%sweep_entry_Returned. congruence.
Qed.

Lemma sweep_registry l w w' id key :
  sweep l w = Returned w' →
  (registered id w' → registered id w) ∧ (present key w' → present key w).
Proof.
  apply (sweep_invariant (λ w1,
    (registered id w1 → registered id w) ∧ (present key w1 → present key w)));
    [|done].
  intros [k c] w1 w2 _ [H1 H2] Hp.
  destruct (sweep_entry_registry k c w1 w2 id key Hp). split; auto.
Qed.

(** A loop that throws has completed the turns before the one that threw. *)
Lemma sweep_Thrown l w w' :
  sweep l w = Thrown w' →
  ∃ l1 p l2 w1, l = l1 ++ p :: l2 ∧ sweep l1 w = Returned w1 ∧
                sweep_entry p w1 = Thrown w'.
Proof.
  revert w. induction l as [|p l IH]; intros w; simpl; [done|].
  destruct (sweep_entry p w) as [w0|w0] eqn:Hp; simpl.
  - intros (l1 & q & l2 & w1 & -> & H1 & H2)%IH.
    exists (p :: l1), q, l2, w1. simpl. rewrite Hp. simpl. by repeat split.
  - intros [= <-]. by exists [], p, l, w.
Qed.

(** Every registry entry that points to [c] visits [c] once, in order. *)
Lemma sweep_conns l w w' c :
  sweep l w = Returned w' →
  conns w' !! c = Nat.iter (refs c (Dict.values l)) visit <$> conns w !! c.
Proof.
  revert w. induction l as [|[id d] l IH]; intros w; simpl.
  - intros [= <-]. by destruct (conns w !! c).
  - destruct (sweep_entry (id, d) w) as [w0|w0] eqn:Hp; simpl; [|done].
    intros Hrest. rewrite (IH _ Hrest).
    apply sweep_entry_Returned in Hp as (_ & Hne & Heq & _).
    unfold refs. rewrite filter_cons.
    destruct (decide (d = c)) as [->|Hdc]; cbn [length].
    + rewrite Heq. destruct (conns w !! c); simpl; [|done].
      by rewrite <- Nat.iter_succ_r.
    + by rewrite Hne.
Qed.

Lemma visit_dead x : isAlive (visit x) = false.
Proof.
  unfold visit, kill. destruct (isAlive x) eqn:Ha; [done|].
  by destruct (readyState x).
Qed.

Lemma kill_fields x :
  isAlive (kill x) = isAlive x ∧ pings (kill x) = pings x ∧
  myId (kill x) = myId x ∧ sent (kill x) = sent x ∧
  readyState (kill x) ≠ OPEN ∧
  (readyState x ≠ CLOSED → killed (kill x) = true) ∧
  (killed x = true → killed (kill x) = true).
Proof. unfold kill. destruct (readyState x) eqn:Hr; simpl; by rewrite ?Hr. Qed.

Lemma visit_iter_dead n x :
  isAlive x = false →
  isAlive (Nat.iter n visit x) = false ∧
  pings (Nat.iter n visit x) = pings x ∧
  myId (Nat.iter n visit x) = myId x ∧
  sent (Nat.iter n visit x) = sent x ∧
  (0 < n → readyState (Nat.iter n visit x) ≠ OPEN ∧
           (readyState x ≠ CLOSED → killed (Nat.iter n visit x) = true)).
Proof.
  intros Ha. induction n as [|n (IH1 & IH2 & IH3 & IH4 & IH5)].
  - simpl. repeat split; try done; lia.
  - rewrite Nat.iter_succ. set (y := Nat.iter n visit x) in *.
    assert (visit y = kill y) as -> by (unfold visit; by rewrite IH1).
    destruct (kill_fields y) as (K1 & K2 & K3 & K4 & K5 & K6 & K7).
    rewrite K1, K2, K3, K4. repeat split; try done.
    intros Hr. destruct n as [|n]; [by apply K6|].
    apply K7, IH5; [lia|done].
Qed.

Lemma visit_iter_alive n x :
  isAlive x = true →
  isAlive (Nat.iter (S n) visit x) = false ∧
  pings (Nat.iter (S n) visit x) = S (pings x) ∧
  myId (Nat.iter (S n) visit x) = myId x ∧
  sent (Nat.iter (S n) visit x) = sent x.
Proof.
  intros Ha. rewrite Nat.iter_succ_r.
  assert (visit x = probe (set_alive false x)) as -> by (unfold visit; by rewrite Ha).
  destruct (visit_iter_dead n (probe (set_alive false x)))
    as (H1 & H2 & H3 & H4 & _); [done|].
  by rewrite H1, H2, H3, H4.
Qed.

Lemma visit_iter_flag n x : 0 < n → isAlive (Nat.iter n visit x) = false.
Proof. destruct n; [lia|]. intros _. simpl. apply visit_dead. Qed.

(** An entry whose socket has its flag down when the loop starts is evicted,
    and stays out of both stores to the end of the loop. *)
Lemma sweep_evicts l w w' id c x :
  sweep l w = Returned w' → (id, c) ∈ l →
  conns w !! c = Some x → isAlive x = false →
  ∃ key, to_key id = Some key ∧ ¬ registered id w' ∧ ¬ present key w'.
Proof.
  intros Hsw Hin Hx Ha.
  apply list_elem_of_split in Hin as (l1 & l2 & ->).
  apply sweep_app in Hsw as (w1 & Hl1 & Hl2). simpl in Hl2.
  destruct (sweep_entry (id, c) w1) as [w2|w2] eqn:Hp; simpl in Hl2; [|done].
  pose proof (sweep_conns _ _ _ c Hl1) as Hc. rewrite Hx in Hc. simpl in Hc.
  destruct (visit_iter_dead (refs c (Dict.values l1)) x Ha) as (Ha1 & _).
  apply sweep_entry_Returned in Hp as (_ & _ & _ & [Hev|(Hal & _)]).
  - destruct Hev as (_ & key & _ & _ & _ & Hkey & Hs & Hd & _).
    exists key. split; [done|].
    destruct (sweep_registry _ _ _ id key Hl2) as [Hr Hp].
    split; intros H; [apply Hr in H | apply Hp in H];
      revert H; unfold registered, present, loadOnline; rewrite ?Hs, ?Hd;
      by intros [? _]%DictFacts.elem_of_keys_del.
  - specialize (Hal _ Hc). congruence.
Qed.

(** The loop completes when no write throws and every key it meets has a
    property name. *)
Lemma sweep_returns l w :
  writes_ok w → (∀ id c, (id, c) ∈ l → is_Some (to_key id)) →
  ∃ w', sweep l w = Returned w' ∧ writes_ok w'.
Proof.
  revert w. induction l as [|[id c] l IH]; intros w Hok Hkeys; simpl; [eauto|].
  assert (∃ w1, sweep_entry (id, c) w = Returned w1 ∧ writes_ok w1)
    as (w1 & -> & Hok1).
  { unfold sweep_entry. destruct (conns w !! c) as [x|]; [|eauto].
    destruct (isAlive x); [eauto|].
    destruct (Hkeys id c) as [key ->]; [left|].
    match goal with |- context [saveOnline ?s ?v] =>
      destruct (saveOnline_write_ok s v) as [w1 Hw1] end.
    { by apply writes_ok_write_ok. }
    exists w1. split; [done|].
    apply saveOnline_Returned in Hw1 as (_ & _ & _ & _ & Hf & _).
    by eapply writes_ok_tail. }
  simpl. apply IH; [done|]. intros id' c' Hin. apply (Hkeys id' c'). by right.
Qed.
End Sweep.

(** ** Registration and disconnect *)
Section Handlers.
Implicit Types (w : world) (c d : nat) (x : ws) (id : jval) (key : string).

Lemma truthy_JStr (s : string) : truthy (JStr s) = true ↔ s ≠ EmptyString.
Proof.
  unfold truthy. case_bool_decide; simpl; by split.
Qed.

(** A value is falsy, or truthy without a property name, or truthy with
    one. *)
Lemma key_cases id :
  truthy id = false ∨ (truthy id = true ∧ to_key id = None) ∨
  ∃ key, truthy id = true ∧ to_key id = Some key.
Proof.
  destruct (truthy id); [|by left]. right.
  destruct (to_key id) as [key|]; [right; by exists key | by left].
Qed.

(** A [hello] that carries a usable identifier and whose handler returns. *)
Lemma on_hello_Returned c me id key w w' :
  field me_id me = id → truthy id = true → to_key id = Some key →
  let users :=
    obj_set key (Entry id (field me_name me) (field me_avatar me))
            (loadOnline w) in
  on_message c (Json (Hello me)) w = Returned w' →
  write_ok w ∧
  sockets w' = Dict.set id c (sockets w) ∧
  disk w' = Some users ∧
  faults w' = tail (faults w) ∧
  log w' = log w ++ [Dict.values users] ∧
  ∀ d, conns w' !! d =
       deliver (FOnline (Dict.values users))
               (refs d (Dict.values (Dict.set id c (sockets w))))
         <$> alter (set_myId id) c (conns w) !! d.
Proof.
  intros Hid Hi Hkey users. unfold on_message. rewrite Hid, Hi, Hkey.
  match goal with |- context [saveOnline ?s ?v] =>
    destruct (saveOnline s v) as [w1|w1] eqn:Hsave end; simpl; [|done].
  intros [= <-].
  apply saveOnline_Returned in Hsave as (Hs & Hd & Hc & Hl & Hf & Hok).
  simpl in *. split; [done|].
  assert (loadOnline w1 = users) as Hload by (unfold loadOnline; by rewrite Hd).
  rewrite broadcast_sockets, broadcast_disk, broadcast_faults, broadcast_log.
  rewrite Hload, Hs, Hd, Hf, Hl. repeat split.
  intros d. by rewrite broadcast_conns, Hload, Hs, Hc.
Qed.

Lemma on_hello_write_ok c me id key w :
  field me_id me = id → truthy id = true → to_key id = Some key → write_ok w →
  ∃ w', on_message c (Json (Hello me)) w = Returned w'.
Proof.
  intros Hid Hi Hkey Hok. unfold on_message. rewrite Hid, Hi, Hkey.
  match goal with |- context [saveOnline ?s ?v] =>
    destruct (saveOnline_write_ok s v) as [w1 ->] end; [done|].
  simpl. eauto.
Qed.

(** The same [hello] when the write throws. *)
Lemma on_hello_fault c me id key w r fs :
  field me_id me = id → truthy id = true → to_key id = Some key →
  faults w = r :: fs → r ≠ Written →
  on_message c (Json (Hello me)) w =
  Thrown (World (Dict.set id c (sockets w)) (after_fault r (disk w)) fs
                (alter (set_myId id) c (conns w)) (log w)).
Proof.
  intros Hid Hi Hkey Hf Hr. unfold on_message. rewrite Hid, Hi, Hkey.
  match goal with |- context [saveOnline ?s ?v] =>
    rewrite (saveOnline_fault s v r fs) by done end.
  done.
Qed.

(** A [hello] whose identifier has no property name: the identifier is
    bound and registered, and the assignment to [state.users] throws. *)
Lemma on_hello_keyless c me id w :
  field me_id me = id → truthy id = true → to_key id = None →
  on_message c (Json (Hello me)) w =
  Thrown (World (Dict.set id c (sockets w)) (disk w) (faults w)
                (alter (set_myId id) c (conns w)) (log w)).
Proof.
  intros Hid Hi Hkey. unfold on_message. by rewrite Hid, Hi, Hkey.
Qed.

(** A [hello] without a usable identifier: the binding is overwritten, and
    nothing else happens. *)
Lemma on_hello_no_id c me w :
  truthy (field me_id me) = false →
  on_message c (Json (Hello me)) w =
  Returned (update_ws c (set_myId (field me_id me)) w).
Proof.
  intros Hid. unfold on_message. by rewrite Hid.
Qed.

(** The close handler of a bound connection, when it returns. *)
Lemma on_close_Returned c x id key w w' :
  conns w !! c = Some x → myId x = id → truthy id = true →
  to_key id = Some key →
  let users := Dict.del key (loadOnline w) in
  on_close c w = Returned w' →
  write_ok w ∧
  sockets w' = Dict.del id (sockets w) ∧
  disk w' = Some users ∧
  faults w' = tail (faults w) ∧
  log w' = log w ++ [Dict.values users] ∧
  ∀ d, conns w' !! d =
       deliver (FOnline (Dict.values users))
               (refs d (Dict.values (Dict.del id (sockets w))))
         <$> conns w !! d.
Proof.
  intros Hx Hid Hi Hkey users. unfold on_close. rewrite Hx, Hid, Hi, Hkey.
  match goal with |- context [saveOnline ?s ?v] =>
    destruct (saveOnline s v) as [w1|w1] eqn:Hsave end; simpl; [|done].
  intros [= <-].
  apply saveOnline_Returned in Hsave as (Hs & Hd & Hc & Hl & Hf & Hok).
  simpl in *. split; [done|].
  assert (loadOnline w1 = users) as Hload by (unfold loadOnline; by rewrite Hd).
  rewrite broadcast_sockets, broadcast_disk, broadcast_faults, broadcast_log.
  rewrite Hload, Hs, Hd, Hf, Hl. repeat split.
  intros d. by rewrite broadcast_conns, Hload, Hs, Hc.
Qed.

Lemma on_close_write_ok c x id key w :
  conns w !! c = Some x → myId x = id → truthy id = true →
  to_key id = Some key → write_ok w →
  ∃ w', on_close c w = Returned w'.
Proof.
  intros Hx Hid Hi Hkey Hok. unfold on_close. rewrite Hx, Hid, Hi, Hkey.
  match goal with |- context [saveOnline ?s ?v] =>
    destruct (saveOnline_write_ok s v) as [w1 ->] end; [done|].
  simpl. eauto.
Qed.

Lemma on_close_fault c x id key w r fs :
  conns w !! c = Some x → myId x = id → truthy id = true →
  to_key id = Some key →
  faults w = r :: fs → r ≠ Written →
  on_close c w =
  Thrown (World (Dict.del id (sockets w)) (after_fault r (disk w)) fs
                (conns w) (log w)).
Proof.
  intros Hx Hid Hi Hkey Hf Hr. unfold on_close. rewrite Hx, Hid, Hi, Hkey.
  match goal with |- context [saveOnline ?s ?v] =>
    rewrite (saveOnline_fault s v r fs) by done end.
  done.
Qed.

Lemma on_close_keyless c x id w :
  conns w !! c = Some x → myId x = id → truthy id = true → to_key id = None →
  on_close c w =
  Thrown (World (Dict.del id (sockets w)) (disk w) (faults w) (conns w) (log w)).
Proof.
  intros Hx Hid Hi Hkey. unfold on_close. by rewrite Hx, Hid, Hi, Hkey.
Qed.

Lemma on_close_unbound c w :
  (∀ x, conns w !! c = Some x → truthy (myId x) = false) →
  on_close c w = Returned w.
Proof.
  intros H. unfold on_close. destruct (conns w !! c) as [x|]; [|done].
  by rewrite (H x eq_refl).
Qed.
End Handlers.

(** ** What an event does to a connection *)
Section Connections.
Implicit Types (w : world) (c d : nat) (x : ws) (ev : event).

Lemma length_of_lookup {A} (f : nat → A → A) (l l' : list A) :
  (∀ c, l' !! c = f c <$> l !! c) → length l' = length l.
Proof.
  intros H. destruct (decide (length l' = length l)) as [|Hne]; [done|exfalso].
  destruct (decide (length l' < length l)).
  - destruct (lookup_lt_is_Some_2 l (length l')) as [x Hx]; [done|].
    specialize (H (length l')). rewrite Hx in H. simpl in H.
    apply lookup_lt_Some in H. lia.
  - destruct (lookup_lt_is_Some_2 l' (length l)) as [x Hx]; [lia|].
    specialize (H (length l)). rewrite Hx in H.
    rewrite (lookup_ge_None_2 l) in H by lia. done.
Qed.

Lemma update_ws_lookup_all c (f : ws → ws) w d :
  conns (update_ws c f w) !! d =
  (λ x, if decide (c = d) then f x else x) <$> conns w !! d.
Proof.
  destruct (decide (c = d)) as [->|Hne].
  - by rewrite update_ws_lookup.
  - rewrite update_ws_lookup_ne by done. by destruct (conns w !! d).
Qed.

Lemma alter_lookup_all (f : ws → ws) c (l : list ws) d :
  alter f c l !! d = (λ x, if decide (c = d) then f x else x) <$> l !! d.
Proof.
  rewrite list_lookup_alter. destruct (decide (c = d)) as [->|Hne]; [done|].
  by destruct (l !! d).
Qed.

Lemma visit_iter_myId n x : myId (Nat.iter n visit x) = myId x.
Proof.
  destruct (isAlive x) eqn:Ha.
  - destruct n as [|n]; [done|]. by destruct (visit_iter_alive n x Ha) as (_ & _ & ? & _).
  - by destruct (visit_iter_dead n x Ha) as (_ & _ & ? & _).
Qed.

Lemma visit_iter_flag_cases n x :
  isAlive (Nat.iter n visit x) = isAlive x ∨ isAlive (Nat.iter n visit x) = false.
Proof. destruct n as [|n]; [by left|]. right. by apply visit_iter_flag; lia. Qed.

Lemma evolve_refl ev c x : evolve ev c x x.
Proof. split; by left. Qed.

Lemma evolve_deliver ev c x y payload n :
  evolve ev c x y → evolve ev c x (deliver payload n y).
Proof.
  destruct (deliver_fields payload n y) as (Ha & _ & Hm & _).
  unfold evolve. by rewrite Ha, Hm.
Qed.

(** Every event but [Connect] rewrites each connection in place. *)
Lemma step_conns ev w w' :
  step ev w = Returned w' → ev ≠ Connect →
  ∃ f, (∀ c, conns w' !! c = f c <$> conns w !! c) ∧
       ∀ c x, evolve ev c x (f c x).
Proof.
  destruct ev as [|c0 buf|c0|c0|c0|]; simpl; [done|..]; intros Hstep _.
  - (* message *)
    destruct (accepted c0 w).
    2:{ injection Hstep as <-. exists (λ _ x, x). split.
        - intros c. by destruct (conns w !! c).
        - intros. apply evolve_refl. }
    destruct buf as [| |[me|k to rest| |ty]].
    + injection Hstep as <-. exists (λ _ x, x). split.
      * intros c. by destruct (conns w !! c).
      * intros. apply evolve_refl.
    + discriminate Hstep.
    + destruct (key_cases (field me_id me)) as [Hf|[[Ht Hk]|(key & Ht & Hk)]].
      * rewrite on_hello_no_id in Hstep by done. injection Hstep as <-.
        eexists. split; [intros c; apply update_ws_lookup_all|].
        intros c x. cbv beta; case_decide; [subst c|apply evolve_refl].
        split; [by left|]. right. by exists me.
      * by rewrite (on_hello_keyless c0 me _ w eq_refl Ht Hk) in Hstep.
      * pose proof (on_hello_Returned c0 me _ key w w' eq_refl Ht Hk) as Hret.
        cbv zeta in Hret. destruct (Hret Hstep) as (_ & _ & _ & _ & _ & Hc).
        eexists (λ c x, deliver _ _ (if decide (c0 = c) then _ else x)).
        split.
        -- intros c. rewrite Hc, alter_lookup_all.
           by destruct (conns w !! c).
        -- intros c x. apply evolve_deliver.
           cbv beta; case_decide; [subst c|apply evolve_refl].
           split; [by left|]. right. by exists me.
    + unfold on_message in Hstep.
      destruct (Dict.get to (sockets w)) as [d|]; injection Hstep as <-.
      * exists (λ c x, if decide (d = c)
                       then deliver (FRelay (Signal k to rest)) 1 x else x).
        split.
        -- intros c. destruct (decide (d = c)) as [->|Hne].
           ++ by rewrite send_if_open_conns.
           ++ rewrite send_if_open_conns_ne by done. by destruct (conns w !! c).
        -- intros c x. cbv beta; case_decide; [|apply evolve_refl].
           apply evolve_deliver, evolve_refl.
      * exists (λ _ x, x). split.
        -- intros c. by destruct (conns w !! c).
        -- intros. apply evolve_refl.
    + injection Hstep as <-.
      eexists. split; [intros c; apply update_ws_lookup_all|].
      intros c x. cbv beta; case_decide; [subst c|apply evolve_refl].
      split; [|by left]. right. right. by right.
    + injection Hstep as <-. exists (λ _ x, x). split.
      * intros c. by destruct (conns w !! c).
      * intros. apply evolve_refl.
  - (* pong *)
    injection Hstep as <-.
    eexists. split; [intros c; apply update_ws_lookup_all|].
    intros c x. cbv beta; case_decide; [subst c|apply evolve_refl].
    split; [|by left]. right. right. by left.
  - (* closing *)
    injection Hstep as <-.
    eexists. split; [intros c; apply update_ws_lookup_all|].
    intros c x. cbv beta; case_decide; [subst c|apply evolve_refl].
    unfold start_closing. destruct (readyState x); split; by left.
  - (* close *)
    set (w0 := update_ws c0 (set_ready CLOSED) w) in *.
    destruct (conns w0 !! c0) as [y|] eqn:Hy.
    + destruct (key_cases (myId y)) as [Hf|[[Ht Hk]|(key & Ht & Hk)]].
      * rewrite on_close_unbound in Hstep.
        2:{ intros z Hz. congruence. }
        injection Hstep as <-.
        eexists. split; [intros c; apply update_ws_lookup_all|].
        intros c x. cbv beta; case_decide; split; by left.
      * by rewrite (on_close_keyless c0 y _ w0 Hy eq_refl Ht Hk) in Hstep.
      * pose proof (on_close_Returned c0 y _ key w0 w' Hy eq_refl Ht Hk) as Hret.
        cbv zeta in Hret. destruct (Hret Hstep) as (_ & _ & _ & _ & _ & Hc).
        eexists (λ c x, deliver _ _ (if decide (c0 = c) then _ else x)).
        split.
        -- intros c. rewrite Hc. unfold w0. rewrite update_ws_lookup_all.
           by destruct (conns w !! c).
        -- intros c x. apply evolve_deliver.
           cbv beta; case_decide; split; by left.
    + rewrite on_close_unbound in Hstep.
      2:{ intros z Hz. congruence. }
      injection Hstep as <-.
      eexists. split; [intros c; apply update_ws_lookup_all|].
      intros c x. cbv beta; case_decide; split; by left.
  - (* tick *)
    unfold heartbeat in Hstep.
    destruct (sweep (sockets w) w) as [w1|w1] eqn:Hsw; simpl in Hstep; [|done].
    injection Hstep as <-.
    eexists (λ c x, deliver _ _ (Nat.iter _ visit x)). split.
    + intros c. rewrite broadcast_conns, (sweep_conns _ _ _ c Hsw).
      by destruct (conns w !! c).
    + intros c x. apply evolve_deliver. split.
      * destruct (visit_iter_flag_cases (refs c (Dict.values (sockets w))) x);
          [by left | right; by left].
      * left. apply visit_iter_myId.
Qed.

Lemma connect_or_not ev : ev = Connect ∨ ev ≠ Connect.
Proof. destruct ev; auto. Qed.

Lemma step_connect w w' :
  step Connect w = Returned w' →
  conns w' = conns w ++ [fresh_ws] ∧ sockets w' = sockets w ∧
  disk w' = disk w ∧ log w' = log w ∧ faults w' = faults w.
Proof. by intros [= <-]. Qed.

(** A flag that is down stays down until the connection pongs. *)
Lemma step_flag_down ev w w' c x :
  step ev w = Returned w' → ¬ is_pong_of c ev →
  conns w !! c = Some x → isAlive x = false →
  ∃ x', conns w' !! c = Some x' ∧ isAlive x' = false.
Proof.
  intros Hstep Hnp Hx Ha. destruct (connect_or_not ev) as [->|Hev].
  - apply step_connect in Hstep as (Hc & _). exists x. split; [|done].
    rewrite Hc. by apply lookup_app_l_Some.
  - destruct (step_conns _ _ _ Hstep Hev) as (f & Hf & Hevo).
    exists (f c x). split; [by rewrite Hf, Hx|].
    destruct (Hevo c x) as [[H|[H|H]] _]; [congruence | done | done].
Qed.

Lemma run_flag_down evs w w' c x :
  run evs w = Returned w' → Forall (λ ev, ¬ is_pong_of c ev) evs →
  conns w !! c = Some x → isAlive x = false →
  ∃ x', conns w' !! c = Some x' ∧ isAlive x' = false.
Proof.
  revert w x. induction evs as [|ev evs IH]; intros w x; simpl.
  - intros [= <-] _ ? ?. eauto.
  - destruct (step ev w) as [w1|w1] eqn:Hstep; simpl; [|done].
    intros Hrun [Hev Hevs]%Forall_cons Hx Ha.
    destruct (step_flag_down _ _ _ _ _ Hstep Hev Hx Ha) as (x1 & Hx1 & Ha1).
    by eapply IH.
Qed.

(** A usable identifier in a [hello] comes with a [me] object. *)
Lemma truthy_field_hello c me :
  truthy (field me_id me) = true →
  is_hello_of (field me_id me) (Message c (Json (Hello me))).
Proof. destruct me as [m|]; [|done]. intros _. by exists c, m. Qed.

(** What holds of the identifier in every usable [hello] holds of the
    identifier of every bound connection. *)
Lemma step_bindings (Q : jval → Prop) ev w w' :
  step ev w = Returned w' →
  (∀ id, is_hello_of id ev → truthy id = true → Q id) →
  bindings Q w → bindings Q w'.
Proof.
  intros Hstep Hhello Hall c x' Hx' Ht. destruct (connect_or_not ev) as [->|Hev].
  - apply step_connect in Hstep as (Hc & _). rewrite Hc in Hx'.
    apply lookup_app_Some in Hx' as [Hx'|[_ Hx']]; [by eapply Hall|].
    apply list_lookup_singleton_Some in Hx' as [_ <-]. done.
  - destruct (step_conns _ _ _ Hstep Hev) as (f & Hf & Hevo).
    rewrite Hf in Hx'. apply fmap_Some in Hx' as (x & Hx & ->).
    destruct (Hevo c x) as [_ [H|(me & -> & H)]].
    + rewrite H in *. by eapply Hall.
    + rewrite H in *. apply Hhello; [|done]. by apply truthy_field_hello.
Qed.
End Connections.

(** ** What an event does to the two stores *)
Section Stores.
Implicit Types (w : world) (c : nat) (ev : event) (id : jval) (key : string).

Lemma load_of_disk w w' : disk w' = disk w → loadOnline w' = loadOnline w.
Proof. unfold loadOnline. by intros ->. Qed.

Lemma load_of_Some w users : disk w = Some users → loadOnline w = users.
Proof. unfold loadOnline. by intros ->. Qed.

Lemma fault_cases w : write_ok w ∨ ∃ r fs, faults w = r :: fs ∧ r ≠ Written.
Proof.
  unfold write_ok. destruct (faults w) as [|[] fs]; simpl.
  - left. by intros r [=].
  - left. by intros r [= <-].
  - right. by exists Refused, fs.
  - right. by exists Torn, fs.
Qed.

Lemma heartbeat_Returned w w' :
  heartbeat w = Returned w' →
  ∃ w1, sweep (sockets w) w = Returned w1 ∧ w' = broadcastOnline w1.
Proof.
  unfold heartbeat. destruct (sweep (sockets w) w) as [w1|w1]; simpl; [|done].
  intros [= <-]. eauto.
Qed.

Lemma heartbeat_Thrown w w' :
  heartbeat w = Thrown w' → sweep (sockets w) w = Thrown w'.
Proof.
  unfold heartbeat. destruct (sweep (sockets w) w) as [w1|w1]; simpl; [done|].
  by intros [= <-].
Qed.

Lemma heartbeat_log w w' :
  heartbeat w = Returned w' → log w' = log w ++ [online_route w'].
Proof.
  intros (w1 & Hsw & ->)%heartbeat_Returned. unfold online_route.
  by rewrite broadcast_log, broadcast_load, (sweep_log _ _ _ Hsw).
Qed.

(** Every event leaves registry, side file and broadcast record alone, or is
    a registration, a disconnect of a bound connection, or a tick. *)
Lemma step_stores ev w w' :
  step ev w = Returned w' →
  (sockets w' = sockets w ∧ disk w' = disk w ∧ log w' = log w ∧
   faults w' = faults w) ∨
  (∃ c me id key, ev = Message c (Json (Hello me)) ∧ field me_id me = id ∧
             truthy id = true ∧ to_key id = Some key ∧
             sockets w' = Dict.set id c (sockets w) ∧
             loadOnline w' =
               obj_set key (Entry id (field me_name me) (field me_avatar me))
                       (loadOnline w) ∧
             log w' = log w ++ [online_route w'] ∧
             faults w' = tail (faults w)) ∨
  (∃ c x id key, ev = Close c ∧ conns w !! c = Some x ∧ myId x = id ∧
            truthy id = true ∧ to_key id = Some key ∧
            sockets w' = Dict.del id (sockets w) ∧
            loadOnline w' = Dict.del key (loadOnline w) ∧
            log w' = log w ++ [online_route w'] ∧
            faults w' = tail (faults w)) ∨
  (ev = Tick ∧ heartbeat w = Returned w').
Proof.
  intros Hstep. destruct ev as [|c0 buf|c0|c0|c0|]; simpl in Hstep.
  - injection Hstep as <-. by left.
  - destruct (accepted c0 w); [|injection Hstep as <-; by left].
    destruct buf as [| |[me|k to rest| |ty]].
    + injection Hstep as <-. by left.
    + discriminate Hstep.
    + destruct (key_cases (field me_id me)) as [Hf|[[Ht Hk]|(key & Ht & Hk)]].
      * rewrite on_hello_no_id in Hstep by done. injection Hstep as <-. by left.
      * by rewrite (on_hello_keyless c0 me _ w eq_refl Ht Hk) in Hstep.
      * pose proof (on_hello_Returned c0 me _ key w w' eq_refl Ht Hk) as Hret.
        cbv zeta in Hret. destruct (Hret Hstep) as (_ & Hs & Hd & Hf & Hl & _).
        right. left. exists c0, me, (field me_id me), key.
        repeat split; try done.
        -- by apply load_of_Some.
        -- unfold online_route. by rewrite (load_of_Some _ _ Hd).
    + unfold on_message in Hstep.
      destruct (Dict.get to (sockets w)) as [d|]; injection Hstep as <-;
        [|by left].
      destruct (send_if_open_fields (FRelay (Signal k to rest)) w d)
        as (Hs & Hd & Hf & Hl). by left.
    + injection Hstep as <-. by left.
    + injection Hstep as <-. by left.
  - injection Hstep as <-. by left.
  - injection Hstep as <-. by left.
  - set (w0 := update_ws c0 (set_ready CLOSED) w) in *.
    destruct (conns w0 !! c0) as [y|] eqn:Hy.
    + destruct (key_cases (myId y)) as [Hf|[[Ht Hk]|(key & Ht & Hk)]].
      * rewrite on_close_unbound in Hstep.
        2:{ intros z Hz. congruence. }
        injection Hstep as <-. by left.
      * by rewrite (on_close_keyless c0 y _ w0 Hy eq_refl Ht Hk) in Hstep.
      * pose proof (on_close_Returned c0 y _ key w0 w' Hy eq_refl Ht Hk) as Hret.
        cbv zeta in Hret. destruct (Hret Hstep) as (_ & Hs & Hd & Hf & Hl & _).
        unfold w0 in Hy. rewrite update_ws_lookup in Hy.
        apply fmap_Some in Hy as (x & Hx & ->).
        right. right. left. exists c0, x, (myId x), key.
        repeat split; try done.
        -- by apply load_of_Some.
        -- unfold online_route. by rewrite (load_of_Some _ _ Hd).
    + rewrite on_close_unbound in Hstep.
      2:{ intros z Hz. congruence. }
      injection Hstep as <-. by left.
  - right. right. by right.
Qed.
(** The last broadcast on record carried the presence list as it is
    now. *)
Lemma step_last_broadcast ev w w' :
  step ev w = Returned w' →
  (log w = [] ∨ last (log w) = Some (online_route w)) →
  log w' = [] ∨ last (log w') = Some (online_route w').
Proof.
  intros Hstep Hinv.
  destruct (step_stores _ _ _ Hstep)
    as [(_ & Hd & Hl & _)|[(c & me & i & key & _ & _ & _ & _ & _ & _ & Hl & _)
       |[(c & x & i & key & _ & _ & _ & _ & _ & _ & _ & Hl & _)
       |[_ Hl%heartbeat_log]]]].
  - rewrite Hl. unfold online_route. by rewrite (load_of_disk _ _ Hd).
  - right. rewrite Hl. apply last_snoc.
  - right. rewrite Hl. apply last_snoc.
  - right. rewrite Hl. apply last_snoc.
Qed.

Lemma run_last_broadcast evs w w' :
  run evs w = Returned w' →
  (log w = [] ∨ last (log w) = Some (online_route w)) →
  log w' = [] ∨ last (log w') = Some (online_route w').
Proof.
  revert w. induction evs as [|ev evs IH]; intros w; simpl.
  - by intros [= <-].
  - destruct (step ev w) as [w1|w1] eqn:Hstep; simpl; [|done].
    intros Hrun Hinv. apply (IH _ Hrun). by apply (step_last_broadcast ev w).
Qed.

End Stores.

(** ** The two stores move together *)
Section Agreement.
Variable P : jval → Prop.
Variable id0 : jval.
Hypothesis Pown : ∀ id, P id → to_key id = to_key id0 → id = id0.
Implicit Types (w : world) (c : nat) (ev : event) (id : jval) (key : string).






End Agreement.

Section Backing.
Implicit Types (w : world) (c : nat) (ev : event) (id : jval) (key : string).






End Backing.

(** ** Entries that came with the side file *)
Section Seeded.
Implicit Types (w : world) (c : nat) (ev : event) (Z : string) (e : entry)
  (l : list (jval * nat)).

Lemma not_elem_of_tail {A} (a : A) (l : list A) : a ∉ l → a ∉ tail l.
Proof. destruct l as [|b l]; simpl; [done|]. by intros [_ ?]%not_elem_of_cons. Qed.

Lemma after_fault_same r fs (d : option (list (string * entry))) :
  Torn ∉ r :: fs → after_fault r d = d.
Proof. intros [Hne _]%not_elem_of_cons. by destruct r. Qed.

(** The turns that return keep the entry, as long as none of them evicts a
    key with the property name [Z]. *)
Lemma sweep_seeded l w w1 Z e :
  sweep l w = Returned w1 →
  (∀ id c, (id, c) ∈ l → to_key id ≠ Some Z) →
  Dict.get Z (loadOnline w) = Some e ∧ (Torn ∉ faults w) →
  Dict.get Z (loadOnline w1) = Some e ∧ (Torn ∉ faults w1).
Proof.
  intros Hsw Hl Hinit. revert Hinit Hsw.
  apply (sweep_invariant (λ w0,
    Dict.get Z (loadOnline w0) = Some e ∧ (Torn ∉ faults w0))).
  intros [id c] wa wb Hin [Hg Hf]
    (_ & _ & _ & [(x & key & _ & _ & _ & Hkey & _ & Hd & Hf')|(_ & _ & Hd & Hf')])
    %sweep_entry_Returned.
  - rewrite (load_of_Some _ _ Hd), Hf'. split; [|by apply not_elem_of_tail].
    rewrite DictFacts.get_del_ne; [done|].
    intros ->. by apply (Hl id c).
  - by rewrite (load_of_disk _ _ Hd), Hf'.
Qed.

Lemma seeded_same Z e w w' :
  sockets w' = sockets w → disk w' = disk w → log w' = log w →
  faults w' = faults w → bindings (λ id, to_key id ≠ Some Z) w' →
  seeded Z e w → seeded Z e w'.
Proof.
  intros Hs Hd Hl Hf Hb (Hg & Hr & _ & Hlog & Ht). unfold seeded, registered.
  by rewrite (load_of_disk _ _ Hd), Hs, Hl, Hf.
Qed.

Lemma heartbeat_seeded Z e w w' :
  heartbeat w = Returned w' →
  bindings (λ id, to_key id ≠ Some Z) w' →
  seeded Z e w → seeded Z e w'.
Proof.
  intros (w1 & Hsw & ->)%heartbeat_Returned Hb (Hg & Hr & _ & Hlog & Ht).
  destruct (sweep_seeded _ _ _ Z e Hsw) as [Hg1 Ht1]; [|done|].
  { intros id c Hin. apply Hr. by eapply DictFacts.elem_keys. }
  split; [by rewrite broadcast_load|]. split; [|split; [done|split]].
  - unfold registered. rewrite broadcast_sockets.
    intros id H. apply Hr. by apply (sweep_registry _ _ _ id Z Hsw).
  - rewrite broadcast_log, (sweep_log _ _ _ Hsw). apply Forall_app. split; [done|].
    apply Forall_singleton. by eapply DictFacts.get_Some_values.
  - by rewrite broadcast_faults.
Qed.

Lemma step_seeded ev w w' Z e :
  step ev w = Returned w' → ¬ is_hello_for Z ev →
  seeded Z e w → seeded Z e w'.
Proof.
  intros Hstep Hnh Hseed.
  pose proof Hseed as (Hg & Hr & Hb & Hlog & Ht).
  assert (bindings (λ id, to_key id ≠ Some Z) w') as Hb'.
  { apply (step_bindings _ ev w); [done| |done].
    intros id Hh Hid Hk. apply Hnh. by exists id. }
  destruct (step_stores _ _ _ Hstep)
    as [(Hs & Hd & Hl & Hf)
       |[(c & me & id & key & -> & Hid & Hi & Hk & Hs & Hd & Hl & Hf)
       |[(c & x & id & key & _ & Hx & Hid & Hi & Hk & Hs & Hd & Hl & Hf)
       |[_ Hh]]]].
  - by apply (seeded_same Z e w).
  - assert (key ≠ Z) as Hne.
    { intros ->. apply Hnh. exists id. split; [|done].
      rewrite <- Hid in *. by apply truthy_field_hello. }
    assert (Dict.get Z (loadOnline w') = Some e) as Hg'.
    { by rewrite Hd, DictFacts.get_obj_set_ne. }
    split; [done|]. split; [|split; [done|split]].
    + unfold registered. rewrite Hs. intros id'.
      intros [->|?]%DictFacts.elem_of_keys_set; [congruence | by apply Hr].
    + rewrite Hl. apply Forall_app. split; [done|]. apply Forall_singleton.
      by eapply DictFacts.get_Some_values.
    + rewrite Hf. by apply not_elem_of_tail.
  - assert (key ≠ Z) as Hne.
    { intros ->. apply (Hb c x Hx); by rewrite Hid. }
    assert (Dict.get Z (loadOnline w') = Some e) as Hg'.
    { by rewrite Hd, DictFacts.get_del_ne. }
    split; [done|]. split; [|split; [done|split]].
    + unfold registered. rewrite Hs. intros id'.
      intros [_ ?]%DictFacts.elem_of_keys_del. by apply Hr.
    + rewrite Hl. apply Forall_app. split; [done|]. apply Forall_singleton.
      by eapply DictFacts.get_Some_values.
    + rewrite Hf. by apply not_elem_of_tail.
  - by apply (heartbeat_seeded Z e w).
Qed.

(** A handler that throws leaves the entry in the file too, unless the
    write that threw has truncated the file. *)
Lemma step_Thrown_seeded ev w w' Z e :
  step ev w = Thrown w' → ¬ is_hello_for Z ev →
  seeded Z e w →
  Dict.get Z (loadOnline w') = Some e ∧ log w' = log w ∧
  ∀ id, registered id w' → to_key id ≠ Some Z.
Proof.
  intros Hstep Hnh (Hg & Hr & Hb & Hlog & Ht).
  destruct ev as [|c0 buf|c0|c0|c0|]; simpl in Hstep; try done.
  - destruct (accepted c0 w); [|done].
    destruct buf as [| |[me|k to rest| |ty]]; try done.
    + by injection Hstep as <-.
    + destruct (key_cases (field me_id me)) as [Hf|[[Hi Hk]|(key & Hi & Hk)]].
      * by rewrite on_hello_no_id in Hstep.
      * rewrite (on_hello_keyless c0 me _ w eq_refl Hi Hk) in Hstep.
        injection Hstep as <-. unfold registered, loadOnline. simpl.
        split; [done|]. split; [done|].
        intros id [->|?]%DictFacts.elem_of_keys_set; [congruence | by apply Hr].
      * destruct (fault_cases w) as [Hok|(r & fs & Hf & Hne)].
        { destruct (on_hello_write_ok c0 me _ key w eq_refl Hi Hk Hok)
            as [w1 Hw1]. congruence. }
        rewrite (on_hello_fault c0 me _ key w r fs eq_refl Hi Hk Hf Hne) in Hstep.
        injection Hstep as <-. unfold registered, loadOnline. simpl.
        rewrite Hf in Ht. rewrite (after_fault_same r fs) by done.
        split; [done|]. split; [done|].
        intros id [->|?]%DictFacts.elem_of_keys_set; [|by apply Hr].
        rewrite Hk. intros [= ->]. apply Hnh. exists (field me_id me).
        split; [by apply truthy_field_hello | done].
    + unfold on_message in Hstep. by destruct (Dict.get to (sockets w)).
  - set (w0 := update_ws c0 (set_ready CLOSED) w) in *.
    destruct (conns w0 !! c0) as [y|] eqn:Hy.
    2:{ rewrite on_close_unbound in Hstep; [done|]. intros z Hz. congruence. }
    destruct (key_cases (myId y)) as [Hf|[[Hi Hk]|(key & Hi & Hk)]].
    + rewrite on_close_unbound in Hstep; [done|]. intros z Hz. congruence.
    + rewrite (on_close_keyless c0 y _ w0 Hy eq_refl Hi Hk) in Hstep.
      injection Hstep as <-. unfold registered, loadOnline. simpl.
      split; [done|]. split; [done|].
      intros id [_ ?]%DictFacts.elem_of_keys_del. by apply Hr.
    + destruct (fault_cases w0) as [Hok|(r & fs & Hf & Hne)].
      { destruct (on_close_write_ok c0 y _ key w0 Hy eq_refl Hi Hk Hok)
          as [w1 Hw1]. congruence. }
      rewrite (on_close_fault c0 y _ key w0 r fs Hy eq_refl Hi Hk Hf Hne) in Hstep.
      injection Hstep as <-. unfold registered, loadOnline. simpl.
      change (faults w0) with (faults w) in Hf. rewrite Hf in Ht.
      rewrite (after_fault_same r fs) by done.
      split; [done|]. split; [done|].
      intros id [_ ?]%DictFacts.elem_of_keys_del. by apply Hr.
  - apply heartbeat_Thrown, sweep_Thrown in Hstep
      as (l1 & [id c] & l2 & w1 & Hl & Hsw & Hp).
    destruct (sweep_seeded _ _ _ Z e Hsw) as [Hg1 Ht1]; [|done|].
    { intros id' c' Hin. apply Hr. apply (DictFacts.elem_keys _ c').
      rewrite Hl. apply elem_of_app. by left. }
    apply sweep_entry_Thrown in Hp
      as (x & _ & _ & Hs & _ & Hlog' & [(_ & Hd & _)|(r & fs & Hf & Hne & _ & Hd)]).
    + rewrite (load_of_disk _ _ Hd), Hlog', (sweep_log _ _ _ Hsw).
      split; [done|]. split; [done|]. unfold registered. rewrite Hs.
      intros id' [_ ?]%DictFacts.elem_of_keys_del.
      apply Hr. by apply (sweep_registry _ _ _ id' Z Hsw).
    + rewrite Hf in Ht1. rewrite (after_fault_same r fs) in Hd by done.
      rewrite (load_of_disk _ _ Hd), Hlog', (sweep_log _ _ _ Hsw).
      split; [done|]. split; [done|]. unfold registered. rewrite Hs.
      intros id' [_ ?]%DictFacts.elem_of_keys_del.
      apply Hr. by apply (sweep_registry _ _ _ id' Z Hsw).
Qed.

Lemma run_seeded evs w Z e :
  Forall (λ ev, ¬ is_hello_for Z ev) evs → seeded Z e w →
  Dict.get Z (loadOnline (world_of (run evs w))) = Some e ∧
  Forall (λ users, e ∈ users) (log (world_of (run evs w))) ∧
  ∀ id, registered id (world_of (run evs w)) → to_key id ≠ Some Z.
Proof.
  revert w. induction evs as [|ev evs IH]; intros w; simpl.
  - intros _ (Hg & Hr & _ & Hlog & _). by repeat split.
  - intros [Hev Hevs]%Forall_cons Hseed.
    destruct (step ev w) as [w1|w1] eqn:Hstep; simpl.
    + apply (IH _ Hevs). by apply (step_seeded ev w).
    + destruct (step_Thrown_seeded _ _ _ Z e Hstep Hev Hseed) as (Hg & Hl & Hr).
      destruct Hseed as (_ & _ & _ & Hlog & _). rewrite Hl. by repeat split.
Qed.
End Seeded.

(** ** The heartbeat tick *)
Section Heartbeat.
Implicit Types (w : world) (c : nat) (x : ws) (id : jval) (key : string).

(** A tick takes keys out of the registry and puts none in. *)
Lemma heartbeat_subset w w' id c :
  heartbeat w = Returned w' → (id, c) ∈ sockets w' → (id, c) ∈ sockets w.
Proof.
  intros (w1 & Hsw & ->)%heartbeat_Returned. rewrite broadcast_sockets.
  revert Hsw.
  apply (sweep_invariant (λ w0, (id, c) ∈ sockets w0 → (id, c) ∈ sockets w));
    [|done].
  intros [id' c'] wa wb _ Hwa
    (_ & _ & _ & [(x & key & _ & _ & _ & _ & Hs & _)|(_ & Hs & _)])
    %sweep_entry_Returned; rewrite Hs; [|done].
  intros Hin. by apply Hwa, (DictFacts.elem_of_del id').
Qed.

Lemma heartbeat_faults w w' :
  heartbeat w = Returned w' → writes_ok w → writes_ok w'.
Proof.
  intros (w1 & Hsw & ->)%heartbeat_Returned Hok. unfold writes_ok.
  rewrite broadcast_faults. revert Hok Hsw. apply sweep_invariant.
  intros [id' c'] wa wb _ Hwa
    (_ & _ & _ & [(x & key & _ & _ & _ & _ & _ & _ & Hf)|(_ & _ & _ & Hf)])
    %sweep_entry_Returned.
  - by apply (writes_ok_tail wa).
  - unfold writes_ok. by rewrite Hf.
Qed.

Lemma keyed_elem w id c : keyed w → (id, c) ∈ sockets w → is_Some (to_key id).
Proof.
  unfold keyed. rewrite Forall_forall. intros H Hin. apply (H (id, c) Hin).
Qed.

(** A tick runs to the end when no write throws and every registry key has
    a property name. *)
Lemma heartbeat_returns w :
  writes_ok w → keyed w → ∃ w', heartbeat w = Returned w'.
Proof.
  intros Hok Hk.
  destruct (sweep_returns (sockets w) w Hok) as (w1 & Hw1 & _).
  { intros id c Hin. by apply (keyed_elem w id c). }
  unfold heartbeat. rewrite Hw1. simpl. eauto.
Qed.

Lemma heartbeat_keyed w w' : heartbeat w = Returned w' → keyed w → keyed w'.
Proof.
  intros Hret Hk. apply Forall_forall. intros [id c] Hin.
  apply (keyed_elem w id c); [done|]. by apply (heartbeat_subset w w').
Qed.

Lemma heartbeat_conns w w' c x :
  heartbeat w = Returned w' → conns w !! c = Some x →
  ∃ payload n,
    conns w' !! c =
    Some (deliver payload n (Nat.iter (refs c (Dict.values (sockets w))) visit x)).
Proof.
  intros (w1 & Hsw & ->)%heartbeat_Returned Hx.
  rewrite broadcast_conns, (sweep_conns _ _ _ c Hsw), Hx. simpl. eauto.
Qed.

Lemma heartbeat_registry w w' id key :
  heartbeat w = Returned w' →
  (registered id w' → registered id w) ∧ (present key w' → present key w).
Proof.
  intros (w1 & Hsw & ->)%heartbeat_Returned.
  unfold registered, present. rewrite broadcast_sockets, broadcast_load.
  apply (sweep_registry _ _ _ id key Hsw).
Qed.

Lemma heartbeat_evicts w w' id c x :
  heartbeat w = Returned w' → (id, c) ∈ sockets w →
  conns w !! c = Some x → isAlive x = false →
  ∃ key, to_key id = Some key ∧ ¬ registered id w' ∧ ¬ present key w' ∧
  ∃ x', conns w' !! c = Some x' ∧ readyState x' ≠ OPEN ∧
        (readyState x ≠ CLOSED → killed x' = true).
Proof.
  intros Hret Hin Hx Ha.
  destruct (heartbeat_conns _ _ _ _ Hret Hx) as (payload & n & Hc).
  apply heartbeat_Returned in Hret as (w1 & Hsw & ->).
  destruct (sweep_evicts _ _ _ _ _ _ Hsw Hin Hx Ha) as (key & Hkey & Hr & Hp).
  exists key. split; [done|].
  unfold registered, present in *. rewrite broadcast_sockets, broadcast_load.
  split; [done|]. split; [done|].
  eexists. split; [exact Hc|].
  destruct (visit_iter_dead (refs c (Dict.values (sockets w))) x Ha)
    as (_ & _ & _ & _ & Hk).
  destruct Hk as [Hk1 Hk2]; [by eapply refs_registered|].
  match goal with |- context [deliver ?p ?k ?y] =>
    destruct (deliver_fields p k y) as (_ & -> & _ & _ & ->) end.
  by split.
Qed.

Lemma heartbeat_probes w w' id c x :
  heartbeat w = Returned w' → (id, c) ∈ sockets w →
  conns w !! c = Some x → isAlive x = true →
  ∃ x', conns w' !! c = Some x' ∧ isAlive x' = false ∧ pings x' = S (pings x).
Proof.
  intros Hret Hin Hx Ha.
  destruct (heartbeat_conns _ _ _ _ Hret Hx) as (payload & n & Hc).
  eexists. split; [exact Hc|].
  pose proof (refs_registered id c (sockets w) Hin) as Hrefs.
  destruct (refs c (Dict.values (sockets w))) as [|k]; [lia|].
  destruct (visit_iter_alive k x Ha) as (H1 & H2 & _).
  match goal with |- context [deliver ?p ?m ?y] =>
    destruct (deliver_fields p m y) as (-> & _ & _ & -> & _) end.
  by split.
Qed.

(** After a tick, every socket that had a registry entry has its flag down. *)
Lemma heartbeat_flags w w' id c x :
  heartbeat w = Returned w' → (id, c) ∈ sockets w → conns w !! c = Some x →
  ∃ x', conns w' !! c = Some x' ∧ isAlive x' = false.
Proof.
  intros Hret Hin Hx. destruct (isAlive x) eqn:Ha.
  - destruct (heartbeat_probes _ _ _ _ _ Hret Hin Hx Ha) as (x' & ? & ? & _).
    eauto.
  - destruct (heartbeat_conns _ _ _ _ Hret Hx) as (payload & n & Hc).
    eexists. split; [exact Hc|].
    destruct (visit_iter_dead (refs c (Dict.values (sockets w))) x Ha) as (H1 & _).
    match goal with |- context [deliver ?p ?m ?y] =>
      destruct (deliver_fields p m y) as (-> & _) end.
    done.
Qed.

(** An entry is either kept by a tick or gone from both stores. *)
Lemma heartbeat_keeps_or_evicts w w' id c :
  heartbeat w = Returned w' → (id, c) ∈ sockets w →
  (id, c) ∈ sockets w' ∨
  ∃ key, to_key id = Some key ∧ ¬ registered id w' ∧ ¬ present key w'.
Proof.
  intros (w1 & Hsw & ->)%heartbeat_Returned Hin.
  unfold registered, present. rewrite broadcast_sockets, broadcast_load.
  revert Hsw.
  apply (sweep_invariant (λ w0, (id, c) ∈ sockets w0 ∨
    ∃ key, to_key id = Some key ∧
           (id ∉ Dict.keys (sockets w0)) ∧ (key ∉ Dict.keys (loadOnline w0))));
    [|by left].
  intros [id' c'] wa wb _ Hwa
    (_ & _ & _ & [(x & key' & _ & _ & _ & Hkey' & Hs & Hd & _)|(_ & Hs & Hd & _)])
    %sweep_entry_Returned.
  - rewrite Hs, (load_of_Some _ _ Hd).
    destruct (decide (id = id')) as [<-|Hne].
    + right. exists key'. split; [done|].
      split; by intros [? _]%DictFacts.elem_of_keys_del.
    + destruct Hwa as [Hwa|(key & Hkey & Hr & Hp)].
      * left. by apply DictFacts.elem_of_del_ne.
      * right. exists key. split; [done|].
        split; intros [_ ?]%DictFacts.elem_of_keys_del; done.
  - by rewrite Hs, (load_of_disk _ _ Hd).
Qed.
End Heartbeat.

(** ** A heartbeat that meets a failing write *)
Section SweepFault.
Implicit Types (w : world) (l : list (jval * nat)) (c d : nat) (id : jval).

Lemma refs_app c (l1 l2 : list nat) : refs c (l1 ++ l2) = refs c l1 + refs c l2.
Proof. unfold refs. by rewrite filter_app, length_app. Qed.

Lemma refs_cons_eq c (l : list nat) : refs c (c :: l) = S (refs c l).
Proof. unfold refs. by rewrite filter_cons, decide_True. Qed.

Lemma refs_cons_ne c d (l : list nat) : d ≠ c → refs c (d :: l) = refs c l.
Proof. intros. unfold refs. by rewrite filter_cons, decide_False. Qed.

Lemma refs_absent c (l : list nat) : c ∉ l → refs c l = 0.
Proof.
  unfold refs. induction l as [|d l IH]; [done|].
  rewrite not_elem_of_cons. intros [Hne Hnot].
  rewrite filter_cons, decide_False by done. by apply IH.
Qed.

Lemma refs_pos_elem c l : 0 < refs c (Dict.values l) → ∃ id, (id, c) ∈ l.
Proof.
  unfold Dict.values. induction l as [|[id d] l IH]; simpl.
  - unfold refs. simpl. lia.
  - destruct (decide (d = c)) as [->|Hne].
    + intros _. exists id. left.
    + rewrite refs_cons_ne by done. intros [id' Hin]%IH. exists id'. by right.
Qed.

(** When the coming write throws and some entry is going to find the flag
    of its socket down, the loop passes the entries that find the flag up,
    reaches the first entry that finds it down, terminates that socket,
    takes the key out of the registry, and stops in the write. *)
Lemma sweep_fault l w r fs :
  faults w = r :: fs → r ≠ Written →
  (∀ id c, (id, c) ∈ l → is_Some (to_key id)) →
  (∃ id c x, (id, c) ∈ l ∧ conns w !! c = Some x ∧
             (isAlive x = false ∨ 2 ≤ refs c (Dict.values l))) →
  ∃ l1 id1 c1 l2 w1 y,
    l = l1 ++ (id1, c1) :: l2 ∧
    sweep l1 w = Returned w1 ∧
    sockets w1 = sockets w ∧ disk w1 = disk w ∧ faults w1 = faults w ∧
    conns w1 !! c1 = Some y ∧ isAlive y = false ∧
    sweep l w =
      Thrown (World (Dict.del id1 (sockets w)) (after_fault r (disk w)) fs
                    (alter kill c1 (conns w1)) (log w)).
Proof.
  intros Hf Hr. revert w Hf.
  induction l as [|[id' c'] l IH];
    intros w Hf Hkeys (id & c & x & Hin & Hx & Hdue).
  - by apply elem_of_nil in Hin.
  - cbn [sweep]. destruct (sweep_entry (id', c') w) as [w0|w0] eqn:Hp.
    + pose proof (sweep_entry_Returned _ _ _ _ Hp) as (Hl & Hne & Hc & [Hev|Hal]).
      * destruct Hev as (_ & _ & _ & _ & Hok & _). unfold write_ok in Hok.
        rewrite Hf in Hok. by specialize (Hok r eq_refl).
      * destruct Hal as (Hal & Hs & Hd & Hf').
        destruct (IH w0) as (l1 & id1 & c1 & l2 & w1 & y & -> & Hsw & Hs1 & Hd1
                             & Hf1 & Hy & Hay & Hthrown).
        { congruence. }
        { intros i k Hik. apply (Hkeys i k). by right. }
        { destruct (decide (c = c')) as [->|Hcc].
          - (* the first entry has taken the flag of [c] down *)
            assert (isAlive x = true) as Ha by (by apply Hal).
            assert (∃ id2, (id2, c') ∈ l) as [id2 Hin2].
            { destruct Hdue as [Hd0|Hrefs]; [congruence|].
              apply refs_pos_elem. unfold Dict.values in *.
              change (((id', c') :: l).*2) with (c' :: l.*2) in Hrefs.
              rewrite refs_cons_eq in Hrefs. lia. }
            exists id2, c', (visit x). split; [done|].
            split; [by rewrite Hc, Hx|]. left. apply visit_dead.
          - apply elem_of_cons in Hin as [[= -> ->]|Hin]; [done|].
            exists id, c, x. split; [done|]. split; [by rewrite Hne|].
            destruct Hdue as [Hd0|Hrefs]; [by left|]. right.
            unfold Dict.values in *.
            change (((id', c') :: l).*2) with (c' :: l.*2) in Hrefs.
            rewrite refs_cons_ne in Hrefs; [done|]. by intros ->. }
        exists ((id', c') :: l1), id1, c1, l2, w1, y.
        split; [done|]. simpl. rewrite Hp. simpl.
        split; [done|]. split; [congruence|]. split; [congruence|].
        split; [congruence|]. split; [done|]. split; [done|].
        rewrite Hthrown. by rewrite Hs, Hd, Hl.
    + exists [], id', c', l, w.
      pose proof (sweep_entry_Thrown _ _ _ _ Hp)
        as (y & Hy & Hay & Hs & Hc & Hl & [(Hk & _)|(r' & fs' & Hf' & _ & Hfs & Hd)]).
      { destruct (Hkeys id' c') as [key Hkey]; [left|]. congruence. }
      exists y. simpl. repeat split; try done.
      rewrite Hf in Hf'. injection Hf' as <- <-.
      f_equal. destruct w0; simpl in *. by subst.
Qed.

(** The same for a tick, with what it has done to the sockets: each socket
    was visited once for each entry up to and including the one whose
    eviction failed, and no socket was visited for a later entry. *)
Lemma heartbeat_fault w r fs :
  faults w = r :: fs → r ≠ Written → keyed w → due w →
  ∃ l1 id1 c1 l2 w',
    sockets w = l1 ++ (id1, c1) :: l2 ∧
    heartbeat w = Thrown w' ∧
    sockets w' = Dict.del id1 (sockets w) ∧
    disk w' = after_fault r (disk w) ∧ faults w' = fs ∧ log w' = log w ∧
    (∀ d, conns w' !! d =
          Nat.iter (refs d (Dict.values (l1 ++ [(id1, c1)]))) visit
            <$> conns w !! d) ∧
    ∃ y, conns w' !! c1 = Some y ∧ isAlive y = false ∧ readyState y ≠ OPEN.
Proof.
  intros Hf Hr Hk Hdead.
  destruct (sweep_fault (sockets w) w r fs Hf Hr) as
    (l1 & id1 & c1 & l2 & w1 & y & Hl & Hsw & _ & _ & _ & Hy & Hay & Hthrown);
    [|done|].
  { intros id c Hin. by apply (keyed_elem w id c). }
  eexists l1, id1, c1, l2, _. split; [done|].
  unfold heartbeat. rewrite Hthrown. simpl. split; [done|].
  split; [done|]. split; [done|]. split; [done|]. split; [done|]. split.
  - intros d. pose proof (sweep_conns _ _ _ d Hsw) as Hc.
    unfold Dict.values. rewrite fmap_app, refs_app. simpl.
    destruct (decide (c1 = d)) as [<-|Hne].
    + rewrite list_lookup_alter_eq, Hc, refs_cons_eq.
      replace (refs c1 l1.*2 + 1) with (S (refs c1 l1.*2)) by lia.
      rewrite Hc in Hy. destruct (conns w !! c1) as [x0|]; [|done].
      simpl in *. injection Hy as <-. unfold Dict.values in *.
      set (z := Nat.iter _ visit x0) in *. f_equal.
      unfold visit. by rewrite Hay.
    + rewrite list_lookup_alter_ne, Hc, refs_cons_ne by done.
      by replace (refs d l1.*2 + refs d []) with (refs d l1.*2)
        by (unfold refs; simpl; lia).
  - exists (kill y). cbn [conns]. rewrite list_lookup_alter_eq, Hy.
    split; [done|].
    destruct (kill_fields y) as (-> & _ & _ & _ & Ho & _). by split.
Qed.
End SweepFault.

(** ** No duplicate keys *)
Section WellFormed.
Implicit Types (w : world) (ev : event).

Lemma heartbeat_NoDup w w' :
  heartbeat w = Returned w' →
  NoDup (Dict.keys (sockets w)) ∧ NoDup (Dict.keys (loadOnline w)) →
  NoDup (Dict.keys (sockets w')) ∧ NoDup (Dict.keys (loadOnline w')).
Proof.
  intros (w1 & Hsw & ->)%heartbeat_Returned Hnd.
  rewrite broadcast_sockets, broadcast_load. revert Hnd Hsw.
  apply (sweep_invariant (λ w0,
    NoDup (Dict.keys (sockets w0)) ∧ NoDup (Dict.keys (loadOnline w0)))).
  intros [id c] wa wb _ [Ha1 Ha2]
    (_ & _ & _ & [(x & key & _ & _ & _ & _ & -> & Hd & _)|(_ & -> & Hd & _)])
    %sweep_entry_Returned.
  - rewrite (load_of_Some _ _ Hd). split; by apply DictFacts.NoDup_keys_del.
  - by rewrite (load_of_disk _ _ Hd).
Qed.

(** In reachable states neither store has a duplicate key, provided the side
    file had none. *)
Lemma step_NoDup ev w w' :
  step ev w = Returned w' →
  NoDup (Dict.keys (sockets w)) ∧ NoDup (Dict.keys (loadOnline w)) →
  NoDup (Dict.keys (sockets w')) ∧ NoDup (Dict.keys (loadOnline w')).
Proof.
  intros Hstep [Hs Hl].
  destruct (step_stores _ _ _ Hstep)
    as [(-> & Hd & _)|[(c & me & id & key & _ & _ & _ & _ & -> & -> & _)
       |[(c & x & id & key & _ & _ & _ & _ & _ & -> & -> & _)|[_ Hh]]]].
  - by rewrite (load_of_disk _ _ Hd).
  - split; [by apply DictFacts.NoDup_keys_set
           | by apply DictFacts.NoDup_keys_obj_set].
  - split; by apply DictFacts.NoDup_keys_del.
  - by apply (heartbeat_NoDup w).
Qed.
End WellFormed.

(** * The claims *)

(** ** C1: the presence store and the registry *)




(** ** C2: relaying signaling messages *)

(** C2.  An [offer], [answer], [ice] or [end] whose [to] is a key of the
    registry, with an open channel, is handed, as it is, to that channel's
    [send] and to no other channel, and nothing else in the system changes;
    when [to] is not a key of the registry, the handler returns and nothing
    changes. *)
Theorem relay_to_recipient_only (c : nat) (k : kind) (t : jval)
    (rest : list (string * jval)) (w : world) :
  let m := Signal k t rest in
  (∀ d x, Dict.get t (sockets w) = Some d → conns w !! d = Some x →
          readyState x = OPEN →
     ∃ w', on_message c (Json m) w = Returned w' ∧
           conns w' !! d = Some (push (FRelay m) x) ∧
           (∀ d', d' ≠ d → conns w' !! d' = conns w !! d') ∧
           sockets w' = sockets w ∧ disk w' = disk w ∧
           log w' = log w ∧ faults w' = faults w) ∧
  (Dict.get t (sockets w) = None → on_message c (Json m) w = Returned w).
Proof.
  intros m. split.
  - intros d x Hd Hx Hopen. eexists. split.
    { unfold on_message. simpl. rewrite Hd. reflexivity. }
    unfold send_if_open, is_open. rewrite Hx, bool_decide_eq_true_2 by done.
    split; [by rewrite update_ws_lookup, Hx|]. split; [|done].
    intros d' Hne. by rewrite update_ws_lookup_ne.
  - intros Hnone. unfold on_message. simpl. by rewrite Hnone.
Qed.

Lemma relay_to_recipient_only_witness :
  ∃ w', on_message 1 (Json offer_to_alice) two_clients = Returned w' ∧
        (sent <$> conns w' !! 0) =
          Some [FOnline [alice_entry]; FOnline [alice_entry; bob_entry];
                FRelay offer_to_alice] ∧
        (sent <$> conns w' !! 1) = Some [FOnline [alice_entry; bob_entry]].
Proof.
  destruct (relay_to_recipient_only 1 Offer (JStr "a1") [("sdp", JStr "...")]
              two_clients) as [Hdeliver _].
  destruct (Hdeliver 0 (Ws true OPEN (JStr "a1")
              [FOnline [alice_entry]; FOnline [alice_entry; bob_entry]] 0 false))
    as (w' & Hw' & H0 & Hother & _); [reflexivity..|].
  exists w'. split; [exact Hw'|]. split.
  - rewrite H0. reflexivity.
  - rewrite (Hother 1) by lia. reflexivity.
Defined.

(** ** C3: the heartbeat *)

(** C3, as the code has it.  A tick runs to the end whenever no write
    throws (and every registry key has a property name, as every key has
    that a [hello] which returned has stored).  When it does: every registry
    entry whose socket had its flag down at the start of the tick is gone
    from the registry and from the presence store, and its socket has been
    terminated; every registered socket whose flag was up has its flag down
    and was probed exactly once; exactly one broadcast was issued, after the
    sweep, with the presence list as the sweep left it.  So an entry whose
    connection sends no pong between two ticks is gone after the second one,
    whatever else happens in between; with nothing in between, every entry
    of the first tick is gone after the second. *)
Theorem sweep_evicts_probes_and_broadcasts (w : world) :
  (writes_ok w → keyed w → ∃ w', heartbeat w = Returned w') ∧
  (∀ w', heartbeat w = Returned w' →
     (∀ id c x, (id, c) ∈ sockets w → conns w !! c = Some x →
                isAlive x = false →
        ∃ key, to_key id = Some key ∧
        ¬ registered id w' ∧ ¬ present key w' ∧
        ∃ x', conns w' !! c = Some x' ∧ readyState x' ≠ OPEN ∧
              (readyState x ≠ CLOSED → killed x' = true)) ∧
     (∀ id c x, (id, c) ∈ sockets w → conns w !! c = Some x →
                isAlive x = true →
        ∃ x', conns w' !! c = Some x' ∧ isAlive x' = false ∧
              pings x' = S (pings x)) ∧
     log w' = log w ++ [online_route w'] ∧
     (∀ id c x evs w1 w2,
        (id, c) ∈ sockets w → conns w !! c = Some x →
        Forall (λ ev, ¬ is_pong_of c ev) evs →
        run evs w' = Returned w1 → heartbeat w1 = Returned w2 →
        ∀ id', (id', c) ∈ sockets w1 →
               ∃ key', to_key id' = Some key' ∧
                       ¬ registered id' w2 ∧ ¬ present key' w2) ∧
     (∀ id c x w2,
        (id, c) ∈ sockets w → conns w !! c = Some x →
        heartbeat w' = Returned w2 →
        ∃ key, to_key id = Some key ∧
               ¬ registered id w2 ∧ ¬ present key w2)).
Proof.
  split; [apply heartbeat_returns|].
  intros w' Hret. split; [|split; [|split; [|split]]].
  - intros id c x. by apply heartbeat_evicts.
  - intros id c x. by apply heartbeat_probes.
  - by apply heartbeat_log.
  - intros id c x evs w1 w2 Hin Hx Hnp Hrun Hret2 id' Hin'.
    destruct (heartbeat_flags _ _ _ _ _ Hret Hin Hx) as (x' & Hx' & Ha').
    destruct (run_flag_down _ _ _ _ _ Hrun Hnp Hx' Ha') as (x1 & Hx1 & Ha1).
    destruct (heartbeat_evicts _ _ _ _ _ Hret2 Hin' Hx1 Ha1)
      as (key' & ? & ? & ? & _).
    by exists key'.
  - intros id c x w2 Hin Hx Hret2.
    destruct (heartbeat_keeps_or_evicts _ _ _ _ Hret Hin)
      as [Hkept|(key & Hkey & Hr & Hp)].
    + destruct (heartbeat_flags _ _ _ _ _ Hret Hin Hx) as (x' & Hx' & Ha').
      destruct (heartbeat_evicts _ _ _ _ _ Hret2 Hkept Hx' Ha')
        as (key & ? & ? & ? & _).
      by exists key.
    + destruct (heartbeat_registry _ _ id key Hret2) as [Hr2 Hp2].
      exists key. split; [done|]. split; auto.
Qed.

Lemma sweep_evicts_probes_and_broadcasts_witness :
  ∃ w1 w2, heartbeat two_clients = Returned w1 ∧ heartbeat w1 = Returned w2 ∧
           (∃ x1, conns w1 !! 0 = Some x1 ∧ pings x1 = 1) ∧
           log w1 = log two_clients ++ [[alice_entry; bob_entry]] ∧
           ¬ registered (JStr "a1") w2 ∧ ¬ present "a1" w2.
Proof.
  destruct (sweep_evicts_probes_and_broadcasts two_clients) as [Hret Hpost].
  destruct Hret as [w1 Hw1]; [apply Forall_nil_2|..].
  { repeat (apply Forall_cons; split; [by eexists|]). apply Forall_nil_2. }
  destruct (Hpost w1 Hw1) as (_ & Hprobe & Hlog & _ & Htwo).
  destruct (sweep_evicts_probes_and_broadcasts w1) as [Hret1 _].
  assert (Returned w1 = heartbeat two_clients) as Heq by (symmetry; exact Hw1).
  vm_compute in Heq. injection Heq as Heq.
  destruct Hret1 as [w2 Hw2].
  { rewrite Heq. apply Forall_nil_2. }
  { rewrite Heq. repeat (apply Forall_cons; split; [by eexists|]).
    apply Forall_nil_2. }
  exists w1, w2. split; [exact Hw1|]. split; [exact Hw2|].
  destruct (Hprobe (JStr "a1") 0 (Ws true OPEN (JStr "a1")
              [FOnline [alice_entry]; FOnline [alice_entry; bob_entry]] 0 false))
    as (x' & Hx' & _ & Hp); [apply list_elem_of_here | reflexivity..|].
  split; [exists x'; split; [exact Hx' | exact Hp]|].
  split.
  { rewrite Hlog. f_equal. rewrite Heq. reflexivity. }
  destruct (Htwo (JStr "a1") 0 (Ws true OPEN (JStr "a1")
              [FOnline [alice_entry]; FOnline [alice_entry; bob_entry]] 0 false) w2)
    as (key & Hkey & Hr & Hp');
    [apply list_elem_of_here | reflexivity | exact Hw2 |].
  injection Hkey as <-. split; [exact Hr | exact Hp'].
Defined.

(** C3 as stated fails when the write of an eviction throws: Alice is
    registered, the first tick probes her, the second tick finds her flag
    still down and evicts her, and [saveOnline] throws.  The second tick
    issues no broadcast (the log still ends with the first tick's), and Alice
    stays in the presence store. *)
Lemma tick_with_failing_write :
  ∃ w', run [Connect; Message 0 (hello alice); Tick; Tick]
            (init None [Written; Refused]) = Thrown w' ∧
        log w' = [[alice_entry]; [alice_entry]] ∧
        present "a1" w' ∧ ¬ registered (JStr "a1") w'.
Proof.
  eexists. split; [vm_compute; reflexivity|]. split; [reflexivity|]. split.
  - apply list_elem_of_here.
  - apply not_elem_of_nil.
Qed.

(** ** C4: disconnect *)

(** C4, as the code has it.  When the connection that closes is bound to
    [X] and its close handler runs to the end (it does whenever the write to
    the side file does not throw), [X] is not in the registry and its
    property name (for a string, [X] itself) is not in the presence store
    afterwards, and exactly one broadcast was issued, carrying the presence
    list as it is after the removal; when the connection is not bound, the
    handler returns the world unchanged. *)
Theorem close_unregisters_and_broadcasts (c : nat) (x : ws) (w : world) :
  conns w !! c = Some x →
  (truthy (myId x) = false → on_close c w = Returned w) ∧
  (∀ X key, myId x = X → truthy X = true → to_key X = Some key →
     (write_ok w → ∃ w', on_close c w = Returned w') ∧
     (∀ w', on_close c w = Returned w' →
        ¬ registered X w' ∧ ¬ present key w' ∧
        log w' = log w ++ [online_route w'])).
Proof.
  intros Hx. split.
  - intros Hf. apply on_close_unbound. intros y Hy. congruence.
  - intros X key Hid HX Hkey. split; [by apply (on_close_write_ok c x X key)|].
    intros w' Hret.
    pose proof (on_close_Returned c x X key w w' Hx Hid HX Hkey) as H.
    cbv zeta in H.
    destruct (H Hret) as (_ & Hs & Hd & _ & Hl & _).
    unfold registered, present, online_route.
    rewrite (load_of_Some _ _ Hd), Hs, Hl. repeat split.
    + by intros [? _]%DictFacts.elem_of_keys_del.
    + by intros [? _]%DictFacts.elem_of_keys_del.
Qed.

Lemma close_unregisters_and_broadcasts_witness :
  ∃ w', on_close 0 two_clients = Returned w' ∧
        ¬ registered (JStr "a1") w' ∧ ¬ present "a1" w' ∧
        log w' = log two_clients ++ [[bob_entry]].
Proof.
  destruct (close_unregisters_and_broadcasts 0
              (Ws true OPEN (JStr "a1")
                  [FOnline [alice_entry]; FOnline [alice_entry; bob_entry]] 0 false)
              two_clients eq_refl) as [_ Hbound].
  destruct (Hbound (JStr "a1") "a1" eq_refl eq_refl eq_refl) as [Hret Hpost].
  destruct Hret as [w' Hw']; [done|].
  exists w'. split; [exact Hw'|].
  destruct (Hpost w' Hw') as (Hr & Hp & Hl).
  split; [exact Hr|]. split; [exact Hp|].
  rewrite Hl. f_equal.
  assert (Returned w' = on_close 0 two_clients) as Heq by (symmetry; exact Hw').
  vm_compute in Heq. injection Heq as ->. reflexivity.
Defined.

(** C4 as stated fails when the write throws: Alice registers, then her
    connection closes while [online.json] cannot be written.  The exception
    leaves the handler: she is out of the registry, still in the presence
    store, and the only broadcast on record is the one of her [hello]. *)
Lemma close_with_failing_write :
  run [Connect; Message 0 (hello alice); Close 0] (init None [Written; Refused]) =
  Thrown (World [] (Some [("a1", alice_entry)]) []
                [Ws true CLOSED (JStr "a1") [FOnline [alice_entry]] 0 false]
                [[alice_entry]]).
Proof. vm_compute. reflexivity. Qed.

(** ** C5: a second hello with the same identifier *)

(** C5, as the code has it.  [X], an identifier whose property name is not
    [__proto__], is registered to [c1]; another connection [c2] says [hello]
    with [X].  When the handler runs to the end (it does whenever the write
    does not throw), the registry maps [X] to [c2], the presence store holds
    the new entry under the property name of [X] (for a string, [X]
    itself), each store has exactly one entry for it and, having had no
    duplicate key before (a [Map] and an object never have), has none now,
    and every other key of either store is where it was. *)
Theorem second_hello_overwrites (c1 c2 : nat) (X : jval) (key : string)
    (me : me_obj) (w : world) :
  Dict.get X (sockets w) = Some c1 → c1 ≠ c2 →
  me_id me = X → truthy X = true → to_key X = Some key → key ≠ proto →
  NoDup (Dict.keys (sockets w)) → NoDup (Dict.keys (loadOnline w)) →
  (write_ok w → ∃ w', on_message c2 (hello me) w = Returned w') ∧
  (∀ w', on_message c2 (hello me) w = Returned w' →
     Dict.get X (sockets w') = Some c2 ∧
     Dict.get key (loadOnline w') = Some (Entry X (me_name me) (me_avatar me)) ∧
     Dict.count X (sockets w') = 1 ∧ Dict.count key (loadOnline w') = 1 ∧
     NoDup (Dict.keys (sockets w')) ∧ NoDup (Dict.keys (loadOnline w')) ∧
     (∀ k, k ≠ X → Dict.get k (sockets w') = Dict.get k (sockets w)) ∧
     (∀ k, k ≠ key → Dict.get k (loadOnline w') = Dict.get k (loadOnline w))).
Proof.
  intros Hreg Hne Hid HX Hkey Hproto Hnd1 Hnd2. split.
  - by apply (on_hello_write_ok c2 (Some me) X key).
  - intros w' Hret.
    pose proof (on_hello_Returned c2 (Some me) X key w w' Hid HX Hkey) as H.
    cbv zeta in H. destruct (H Hret) as (_ & Hs & Hd & _). simpl in Hd.
    rewrite (load_of_Some _ _ Hd), Hs.
    rewrite DictFacts.get_set_eq, DictFacts.get_obj_set_eq by done.
    split; [done|]. split; [done|]. split; [|split; [|split; [|split; [|split]]]].
    + apply DictFacts.count_NoDup; [by apply DictFacts.NoDup_keys_set|].
      apply DictFacts.elem_of_keys_set. by left.
    + apply DictFacts.count_NoDup; [by apply DictFacts.NoDup_keys_obj_set|].
      apply DictFacts.elem_of_keys_obj_set. left. split; [done | by left].
    + by apply DictFacts.NoDup_keys_set.
    + by apply DictFacts.NoDup_keys_obj_set.
    + intros k Hk. by rewrite DictFacts.get_set_ne.
    + intros k Hk. by rewrite DictFacts.get_obj_set_ne.
Qed.

Lemma second_hello_overwrites_witness :
  ∃ w', on_message 1 (hello alicia) two_clients = Returned w' ∧
        Dict.get (JStr "a1") (sockets w') = Some 1 ∧
        Dict.get "a1" (loadOnline w') = Some alicia_entry ∧
        Dict.count (JStr "a1") (sockets w') = 1.
Proof.
  assert (NoDup [JStr "a1"; JStr "b1"]) as Hnd1.
  { apply NoDup_cons. split.
    - intros Hin. apply list_elem_of_singleton in Hin. discriminate Hin.
    - apply NoDup_singleton. }
  assert (NoDup ["a1"; "b1"]) as Hnd2.
  { apply NoDup_cons. split.
    - intros Hin. apply list_elem_of_singleton in Hin. discriminate Hin.
    - apply NoDup_singleton. }
  destruct (second_hello_overwrites 0 1 (JStr "a1") "a1" alicia two_clients)
    as [Hret Hpost];
    [reflexivity | lia | reflexivity | reflexivity | reflexivity | done
    | exact Hnd1 | exact Hnd2 |].
  destruct Hret as [w' Hw']; [done|].
  exists w'. split; [exact Hw'|].
  destruct (Hpost w' Hw') as (H1 & H2 & H3 & _).
  split; [exact H1|]. split; [exact H2 | exact H3].
Defined.

(** C5 as stated fails in two ways.  When the write throws, Alicia's [hello]
    takes over the registry entry of ["a1"], but the presence store still
    holds Alice's entry, and the exception leaves the handler.  And a second
    [hello] with the identifier [__proto__] takes over the registry entry
    while the presence store gets no entry at all. *)
Lemma second_hello_without_presence_update :
  (∃ w', run [Connect; Connect; Message 0 (hello alice); Message 1 (hello alicia)]
             (init None [Written; Refused]) = Thrown w' ∧
         Dict.get (JStr "a1") (sockets w') = Some 1 ∧
         Dict.get "a1" (loadOnline w') = Some alice_entry) ∧
  (∃ w', run [Connect; Connect; Message 0 (hello mallory); Message 1 (hello mallory)]
             (init None []) = Returned w' ∧
         Dict.get (JStr proto) (sockets w') = Some 1 ∧
         Dict.get proto (loadOnline w') = None).
Proof.
  split; eexists; (split; [vm_compute; reflexivity|]); split; reflexivity.
Qed.

(** ** C6: a hello without an identifier *)

(** C6.  The handler assigns [myId = msg.me?.id] before it tests it, so a
    bound connection that sends a [hello] without an identifier loses its
    binding.  Alice registers, sends [{"type":"hello"}], and closes: the close
    handler finds [myId] undefined and cleans nothing, so ["a1"] stays in the
    registry and in the presence store, pointing to a closed socket. *)
Lemma hello_without_id_unbinds :
  run [Connect; Message 0 (hello alice); Message 0 (Json (Hello None)); Close 0]
      (init None []) =
  Returned (World [(JStr "a1", 0)] (Some [("a1", alice_entry)]) []
                  [Ws true CLOSED JUndef [FOnline [alice_entry]] 0 false]
                  [[alice_entry]]).
Proof. vm_compute. reflexivity. Qed.

(** The same for any bound connection and any [hello] whose identifier is
    missing or falsy: only the binding changes, and it changes. *)
Lemma hello_without_id_overwrites_binding (c : nat) (me : option me_obj)
    (x : ws) (w : world) :
  conns w !! c = Some x → truthy (field me_id me) = false →
  ∃ w', on_message c (Json (Hello me)) w = Returned w' ∧
        conns w' !! c = Some (set_myId (field me_id me) x) ∧
        sockets w' = sockets w ∧ disk w' = disk w ∧ log w' = log w.
Proof.
  intros Hx Hf. rewrite on_hello_no_id by done. eexists. split; [done|].
  by rewrite update_ws_lookup, Hx.
Qed.

(** ** C7: the broadcast *)

(** C7.  [broadcastOnline] reads the presence store once, builds one payload
    from it, and hands that payload to [send] once for every registry entry
    whose channel is open; a channel that is not open is skipped and is left
    as it was, whatever its place in the registry; registry, presence store
    and pending writes are untouched. *)
Theorem broadcast_reaches_every_open_channel (w : world) :
  let payload := FOnline (online_route w) in
  let w' := broadcastOnline w in
  log w' = log w ++ [online_route w] ∧
  sockets w' = sockets w ∧ disk w' = disk w ∧ faults w' = faults w ∧
  (∀ id c x, (id, c) ∈ sockets w → conns w !! c = Some x →
             readyState x = OPEN →
     ∃ x', conns w' !! c = Some x' ∧
           0 < refs c (Dict.values (sockets w)) ∧
           sent x' = sent x ++ replicate (refs c (Dict.values (sockets w))) payload ∧
           isAlive x' = isAlive x ∧ readyState x' = OPEN ∧
           myId x' = myId x ∧ pings x' = pings x ∧ killed x' = killed x) ∧
  (∀ c x, conns w !! c = Some x → readyState x ≠ OPEN →
          conns w' !! c = Some x) ∧
  (∀ c x, conns w !! c = Some x → refs c (Dict.values (sockets w)) = 0 →
          conns w' !! c = Some x).
Proof.
  intros payload w'. unfold w', payload, online_route.
  rewrite broadcast_log, broadcast_sockets, broadcast_disk, broadcast_faults.
  repeat split.
  - intros id c x Hin Hx Hopen. rewrite broadcast_conns, Hx. simpl.
    eexists. split; [done|]. split; [by eapply refs_registered|].
    unfold deliver. by rewrite bool_decide_eq_true_2.
  - intros c x Hx Hclosed. rewrite broadcast_conns, Hx. simpl.
    by rewrite deliver_closed.
  - intros c x Hx Hrefs. rewrite broadcast_conns, Hx, Hrefs. simpl.
    by rewrite deliver_0.
Qed.

Lemma broadcast_reaches_every_open_channel_witness :
  ∃ x', conns (broadcastOnline two_clients) !! 0 = Some x' ∧
        sent x' = [FOnline [alice_entry]; FOnline [alice_entry; bob_entry];
                   FOnline [alice_entry; bob_entry]].
Proof.
  destruct (broadcast_reaches_every_open_channel two_clients)
    as (_ & _ & _ & _ & Hopen & _).
  destruct (Hopen (JStr "a1") 0 (Ws true OPEN (JStr "a1")
              [FOnline [alice_entry]; FOnline [alice_entry; bob_entry]] 0 false))
    as (x' & Hx' & _ & Hsent & _).
  - apply list_elem_of_here.
  - reflexivity.
  - reflexivity.
  - exists x'. split; [exact Hx'|]. rewrite Hsent. reflexivity.
Defined.

(** ** C8: a failing write *)

(** C8, as the code has it.  When the coming write throws, the exception
    leaves the handler.  The registry change made before the write stays (a
    [hello] has registered its identifier, a close has unregistered it, a
    tick has unregistered the identifier it was evicting), but the presence
    store does not get the update (the side file is as it was, or
    truncated), no frame is sent and no broadcast is issued.  A tick that
    has an eviction to make stops at the first one: the registry entries
    before it have had their sockets flagged and probed, the socket of the
    failing entry has been terminated and its key alone is out of the
    registry, and no later entry has been looked at, whether its socket
    answers or not. *)
Theorem write_failure_aborts (w : world) (r : write_result)
    (fs : list write_result) :
  faults w = r :: fs → r ≠ Written →
  (∀ c me id key, me_id me = id → truthy id = true → to_key id = Some key →
     ∃ w', on_message c (hello me) w = Thrown w' ∧
           Dict.get id (sockets w') = Some c ∧
           disk w' = after_fault r (disk w) ∧ log w' = log w ∧
           ∀ d, sent <$> conns w' !! d = sent <$> conns w !! d) ∧
  (∀ c x id key, conns w !! c = Some x → myId x = id → truthy id = true →
                 to_key id = Some key →
     ∃ w', on_close c w = Thrown w' ∧ ¬ registered id w' ∧
           disk w' = after_fault r (disk w) ∧ log w' = log w ∧
           conns w' = conns w) ∧
  (keyed w → due w →
     ∃ l1 id1 c1 l2 w',
       sockets w = l1 ++ (id1, c1) :: l2 ∧
       heartbeat w = Thrown w' ∧
       sockets w' = Dict.del id1 (sockets w) ∧ ¬ registered id1 w' ∧
       disk w' = after_fault r (disk w) ∧ log w' = log w ∧
       (∀ d, conns w' !! d =
             Nat.iter (refs d (Dict.values (l1 ++ [(id1, c1)]))) visit
               <$> conns w !! d) ∧
       (∀ d, d ∉ Dict.values (l1 ++ [(id1, c1)]) →
             conns w' !! d = conns w !! d) ∧
       (∃ y, conns w' !! c1 = Some y ∧ isAlive y = false ∧
             readyState y ≠ OPEN)).
Proof.
  intros Hf Hr. split; [|split].
  - intros c me id key Hid Hi Hkey. eexists. split.
    { by apply (on_hello_fault c (Some me) id key w r fs). }
    simpl. split; [apply DictFacts.get_set_eq|]. repeat split.
    intros d. rewrite alter_lookup_all. destruct (conns w !! d); [|done].
    simpl. by case_decide.
  - intros c x id key Hx Hid Hi Hkey. eexists. split.
    { by apply (on_close_fault c x id key w r fs). }
    unfold registered. simpl. repeat split.
    by intros [? _]%DictFacts.elem_of_keys_del.
  - intros Hk Hdead.
    destruct (heartbeat_fault w r fs Hf Hr Hk Hdead)
      as (l1 & id1 & c1 & l2 & w' & Hl & Hw' & Hs & Hd & _ & Hlog & Hc & Hy).
    exists l1, id1, c1, l2, w'.
    split; [done|]. split; [done|]. split; [done|]. split.
    { unfold registered. rewrite Hs.
      by intros [? _]%DictFacts.elem_of_keys_del. }
    split; [done|]. split; [done|]. split; [done|]. split; [|done].
    intros d Hd'. rewrite Hc, refs_absent by done.
    by destruct (conns w !! d).
Qed.

Lemma write_failure_aborts_witness :
  ∃ w', on_message 1 (hello bob)
          (world_of (run [Connect; Connect; Message 0 (hello alice)]
                         (init None [Written; Refused]))) = Thrown w' ∧
        Dict.get (JStr "b1") (sockets w') = Some 1 ∧
        disk w' = Some [("a1", alice_entry)] ∧ log w' = [[alice_entry]].
Proof.
  destruct (write_failure_aborts
              (world_of (run [Connect; Connect; Message 0 (hello alice)]
                             (init None [Written; Refused]))) Refused [] eq_refl)
    as (Hhello & _); [done|].
  destruct (Hhello 1 bob (JStr "b1") "b1" eq_refl eq_refl eq_refl)
    as (w' & Hw' & Hreg & Hd & Hl & _).
  exists w'. split; [exact Hw'|]. split; [exact Hreg|].
  split; [rewrite Hd | rewrite Hl]; reflexivity.
Defined.

(** C8 as stated fails: the first [hello] on a server that cannot write
    [online.json] ends in an exception that nothing catches; the client is in
    the registry, not in the presence store, and no broadcast went out. *)
Lemma hello_with_failing_write :
  run [Connect; Message 0 (hello alice)] (init None [Refused]) =
  Thrown (World [(JStr "a1", 0)] None [] [Ws true OPEN (JStr "a1") [] 0 false] []).
Proof. vm_compute. reflexivity. Qed.

(** A tick that stops in the write of its first eviction: Alice does not
    answer the probe of the first tick, Bob does; the second tick terminates
    Alice's socket and takes her out of the registry, the write throws, and
    Bob, who comes after her in the registry, is neither flagged nor
    probed. *)
Lemma tick_stops_at_failing_eviction :
  ∃ w1 w2, run [Tick; Pong 1] two_clients = Returned w1 ∧
           heartbeat (World (sockets w1) (disk w1) [Refused] (conns w1) (log w1))
             = Thrown w2 ∧
           sockets w2 = [(JStr "b1", 1)] ∧ present "a1" w2 ∧
           log w2 = log w1 ∧
           (killed <$> conns w2 !! 0) = Some true ∧
           conns w2 !! 1 = conns w1 !! 1.
Proof.
  eexists _, _. split; [vm_compute; reflexivity|].
  split; [vm_compute; reflexivity|].
  split; [reflexivity|]. split; [apply list_elem_of_here|].
  split; [reflexivity|]. split; reflexivity.
Qed.

(** ** C9: the close of a superseded connection *)

(** C9, as the code has it.  Connection [c] is still bound to [X] while the
    registry maps [X] to a newer connection [d] whose channel is open.  When
    the close event of [c] is handled to the end (it is whenever the write
    does not throw), [X] is not in the registry and its property name (for a
    string, [X] itself) is not in the presence store, although [d] is still
    open and still bound as before. *)
Theorem stale_close_removes_newer_registration (c d : nat) (X : jval)
    (key : string) (x y : ws) (w : world) :
  conns w !! c = Some x → myId x = X → truthy X = true →
  to_key X = Some key →
  Dict.get X (sockets w) = Some d → d ≠ c →
  conns w !! d = Some y → readyState y = OPEN →
  (write_ok w → ∃ w', step (Close c) w = Returned w') ∧
  (∀ w', step (Close c) w = Returned w' →
     ¬ registered X w' ∧ ¬ present key w' ∧
     ∃ y', conns w' !! d = Some y' ∧ readyState y' = OPEN ∧ myId y' = myId y).
Proof.
  intros Hx Hid HX Hkey Hreg Hne Hy Hopen. simpl.
  set (w0 := update_ws c (set_ready CLOSED) w).
  assert (conns w0 !! c = Some (set_ready CLOSED x)) as Hx0.
  { unfold w0. by rewrite update_ws_lookup, Hx. }
  split.
  - intros Hok. by apply (on_close_write_ok c (set_ready CLOSED x) X key).
  - intros w' Hret.
    pose proof (on_close_Returned c _ X key w0 w' Hx0 Hid HX Hkey) as H.
    cbv zeta in H.
    destruct (H Hret) as (_ & Hs & Hd & _ & _ & Hc).
    unfold registered, present. rewrite (load_of_Some _ _ Hd), Hs.
    split; [by intros [? _]%DictFacts.elem_of_keys_del|].
    split; [by intros [? _]%DictFacts.elem_of_keys_del|].
    rewrite Hc. unfold w0. rewrite update_ws_lookup_ne, Hy by done. simpl.
    eexists. split; [done|].
    match goal with |- context [deliver ?p ?n y] =>
      destruct (deliver_fields p n y) as (_ & Hr & Hm & _) end.
    by rewrite Hr, Hm.
Qed.

Lemma stale_close_removes_newer_registration_witness :
  let w := world_of (run [Connect; Connect; Message 0 (hello alice);
                          Message 1 (hello alicia)] (init None [])) in
  ∃ w', step (Close 0) w = Returned w' ∧
        ¬ registered (JStr "a1") w' ∧ ¬ present "a1" w' ∧
        (readyState <$> conns w' !! 1) = Some OPEN.
Proof.
  intros w.
  destruct (stale_close_removes_newer_registration 0 1 (JStr "a1") "a1"
    (Ws true OPEN (JStr "a1") [FOnline [alice_entry]] 0 false)
    (Ws true OPEN (JStr "a1") [FOnline [alicia_entry]] 0 false) w)
    as [Hret Hpost]; [reflexivity | reflexivity | reflexivity | reflexivity
                     | reflexivity | lia | reflexivity | reflexivity |].
  destruct Hret as [w' Hw']; [done|].
  exists w'. split; [exact Hw'|].
  destruct (Hpost w' Hw') as (Hr & Hp & y' & Hy' & Hopen & _).
  split; [exact Hr|]. split; [exact Hp|]. rewrite Hy'. simpl. by rewrite Hopen.
Defined.

(** C9 as stated fails when the write throws: the stale close takes ["a1"]
    out of the registry, the presence store keeps it, and the exception
    leaves the handler. *)
Lemma stale_close_with_failing_write :
  ∃ w', run [Connect; Connect; Message 0 (hello alice); Message 1 (hello alicia);
             Close 0] (init None [Written; Written; Refused]) = Thrown w' ∧
        ¬ registered (JStr "a1") w' ∧ present "a1" w' ∧
        (readyState <$> conns w' !! 1) = Some OPEN.
Proof.
  eexists. split; [vm_compute; reflexivity|]. split; [|split; [|reflexivity]].
  - apply not_elem_of_nil.
  - apply list_elem_of_here.
Qed.

(** ** C10: entries that came with the side file *)

(** C10 as stated fails when a write to the side file fails after it has
    truncated the file: the file held an entry for ["a1"] at start-up, Bob
    says [hello], the write throws half-way, and what is left of
    [online.json] does not parse.  The entry of ["a1"] is gone, although no
    connection has bound or released ["a1"]: the server that is started
    again on this file answers [/online] with the empty list. *)
Lemma torn_write_loses_preseeded_entries :
  ∃ w, run [Connect; Message 0 (hello bob)]
           (init (Some [("a1", alice_entry)]) [Torn]) = Thrown w ∧
       ¬ present "a1" w ∧
       http_handler "/" "/online" (init (disk w) []) =
         Response 200 (Some "application/json") (JsonUsers []).
Proof.
  eexists. split; [vm_compute; reflexivity|]. split; [|reflexivity].
  apply not_elem_of_nil.
Qed.

(** C10, as the code has it.  An entry that [online.json] holds at start-up
    under the key [Z] is still in the file, unchanged, after any sequence of
    events in which no [hello] names an identifier with the property name
    [Z] and no write truncates the file, whether every handler has returned
    or the last one has thrown: it is in the answer of every [/online]
    route, it was in the user list of every broadcast issued since start-up,
    and no registry key has the property name [Z].  Ticks are among the
    events, so the heartbeat never removes it. *)
Theorem preseeded_entries_persist (file : option (list (string * entry)))
    (fs : list write_result) (evs : list event) (Z : string) (e : entry) :
  Dict.get Z (loadOnline (init file fs)) = Some e →
  Forall (λ ev, ¬ is_hello_for Z ev) evs →
  Torn ∉ fs →
  let w := world_of (run evs (init file fs)) in
  (∀ base p, p ∈ onlinePaths base →
     ∃ users, http_handler base p w =
                Response 200 (Some "application/json") (JsonUsers users) ∧
              e ∈ users) ∧
  Forall (λ users, e ∈ users) (log w) ∧
  Dict.get Z (loadOnline w) = Some e ∧
  (∀ id, registered id w → to_key id ≠ Some Z).
Proof.
  intros Hfile Hevs Hfs w.
  assert (seeded Z e (init file fs)) as Hseed.
  { split; [done|]. split; [by intros id ?%elem_of_nil|]. split; [by intros c x ?|].
    split; [apply Forall_nil_2 | done]. }
  destruct (run_seeded evs _ Z e Hevs Hseed) as (Hg & Hlog & Hr).
  split; [|done]. intros base p Hp. exists (online_route w).
  split; [|by eapply DictFacts.get_Some_values].
  unfold http_handler. by rewrite bool_decide_eq_true_2.
Qed.

Lemma preseeded_entries_persist_witness :
  let w := world_of (run [Connect; Message 0 (hello bob); Tick; Tick; Close 0; Tick]
                         (init (Some [("a1", alice_entry)]) [Written; Refused])) in
  (∃ users, http_handler "/ws" "/ws/online" w =
              Response 200 (Some "application/json") (JsonUsers users) ∧
            alice_entry ∈ users) ∧
  Forall (λ users, alice_entry ∈ users) (log w) ∧
  Dict.get "a1" (loadOnline w) = Some alice_entry.
Proof.
  intros w.
  assert (Forall (λ ev, ¬ is_hello_for "a1" ev)
            [Connect; Message 0 (hello bob); Tick; Tick; Close 0; Tick]) as Hevs.
  { repeat (apply Forall_cons; split; [|]); try apply Forall_nil_2;
      intros (id & (c & me & Hev & Hid) & _ & Hk); try discriminate Hev.
    injection Hev as _ <-. subst id. discriminate Hk. }
  assert (Torn ∉ [Written; Refused]) as Hfs.
  { rewrite !not_elem_of_cons. repeat split; try discriminate.
    apply not_elem_of_nil. }
  destruct (preseeded_entries_persist (Some [("a1", alice_entry)])
              [Written; Refused]
              [Connect; Message 0 (hello bob); Tick; Tick; Close 0; Tick]
              "a1" alice_entry eq_refl Hevs Hfs) as (Hhttp & Hlog & Hget & _).
  split; [|split; [exact Hlog | exact Hget]].
  apply Hhttp. apply list_elem_of_further, list_elem_of_here.
Defined.

(** A connection that binds ["a1"] and then closes does remove the entry;
    and so does a connection that binds and releases the number 5 when the
    file holds an entry under ["5"]. *)
Lemma preseeded_entry_released :
  (∃ w, run [Connect; Message 0 (hello alicia); Close 0]
            (init (Some [("a1", alice_entry)]) []) = Returned w ∧
        online_route w = []) ∧
  (∃ w, run [Connect; Message 0 (hello five); Close 0]
            (init (Some [("5", Entry (JStr "5") (JStr "Cinq") JUndef)]) [])
          = Returned w ∧
        online_route w = []).
Proof. split; eexists; split; vm_compute; reflexivity. Qed.

(** * Further properties *)

#[local] Arguments String.append : simpl nomatch.

(** ** Strings *)
Section StringFacts.
Implicit Types (s t r : string) (a : ascii).

Lemma append_length s t : String.length (s +:+ t) = String.length s + String.length t.
Proof. induction s as [|a s IH]; simpl; [done | by f_equal]. Qed.

Lemma append_inv_head s t1 t2 : s +:+ t1 = s +:+ t2 → t1 = t2.
Proof. induction s as [|a s IH]; simpl; [done|]. intros [= H]. by apply IH. Qed.

Lemma append_empty_r s : s +:+ EmptyString = s.
Proof. induction s as [|a s IH]; simpl; [done | by f_equal]. Qed.

Lemma append_assoc s t r : (s +:+ t) +:+ r = s +:+ (t +:+ r).
Proof. induction s as [|a s IH]; simpl; [done | by f_equal]. Qed.

Lemma slashes_snoc n : slashes n +:+ "/" = slashes (S n).
Proof. induction n as [|n IH]; simpl in *; [done | by f_equal]. Qed.

Lemma no_trailing_slash_empty : no_trailing_slash EmptyString.
Proof. intros [|a t]; simpl; discriminate. Qed.

Lemma no_trailing_slash_tail a s :
  no_trailing_slash (String a s) → no_trailing_slash s.
Proof. intros H t ->. by apply (H (String a t)). Qed.

Lemma strip_slashes_snoc s : strip_slashes (s +:+ "/") = strip_slashes s.
Proof. induction s as [|a s IH]; simpl; [done | by rewrite IH]. Qed.

Lemma strip_slashes_slashes s n : strip_slashes (s +:+ slashes n) = strip_slashes s.
Proof.
  induction n as [|n IH]; simpl.
  - by rewrite append_empty_r.
  - change (String "/" (slashes n)) with (slashes (S n)).
    rewrite <- slashes_snoc, <- append_assoc, strip_slashes_snoc. apply IH.
Qed.

Lemma strip_slashes_fixed s : no_trailing_slash s → strip_slashes s = s.
Proof.
  induction s as [|a s IH]; [done|]. intros Hs. simpl.
  rewrite IH by (by eapply no_trailing_slash_tail).
  destruct s as [|b s]; [|done].
  destruct (Ascii.eqb_spec a "/") as [->|]; [|done].
  by destruct (Hs EmptyString).
Qed.

Lemma strip_slashes_no_trailing s : no_trailing_slash (strip_slashes s).
Proof.
  induction s as [|a s IH]; simpl; [apply no_trailing_slash_empty|].
  destruct (strip_slashes s) as [|b r] eqn:Hr.
  - destruct (Ascii.eqb_spec a "/") as [->|Hne]; [apply no_trailing_slash_empty|].
    intros [|c [|d t]]; simpl; intros [= ]; done.
  - intros [|c t]; simpl; [discriminate|]. intros [= -> Ht]. by apply (IH t).
Qed.

Lemma strip_slashes_split s : ∃ n, s = strip_slashes s +:+ slashes n.
Proof.
  induction s as [|a s [n IH]]; simpl; [by exists 0|].
  destruct (strip_slashes s) as [|b r] eqn:Hr; simpl in *.
  - destruct (Ascii.eqb_spec a "/") as [->|Hne].
    + exists (S n). simpl. by rewrite <- IH.
    + exists n. simpl. by rewrite <- IH.
  - exists n. simpl. by rewrite <- IH.
Qed.
End StringFacts.

(** ** The HTTP handler *)

(** X1.  The base path is cut exactly as [replace(/\/+$/, empty)] cuts it: the
    result followed by some slashes is the input, the result does not end
    with a slash, and it is the only string with these two properties. *)
Theorem strip_slashes_is_the_slashless_prefix (s : string) :
  (∃ n, s = strip_slashes s +:+ slashes n) ∧
  no_trailing_slash (strip_slashes s) ∧
  (∀ r n, s = r +:+ slashes n → no_trailing_slash r → r = strip_slashes s).
Proof.
  split; [apply strip_slashes_split|]. split; [apply strip_slashes_no_trailing|].
  intros r n -> Hr. by rewrite strip_slashes_slashes, strip_slashes_fixed.
Qed.

(** X2.  Trailing slashes of [WS_BASE_PATH] do not matter to any request. *)
Theorem base_path_trailing_slashes_immaterial (base p : string) (n : nat)
    (w : world) :
  http_handler (base +:+ slashes n) p w = http_handler base p w.
Proof.
  unfold http_handler, onlinePaths, healthPaths.
  by rewrite strip_slashes_slashes.
Qed.

Section Routes.
Implicit Types (base p : string) (w : world).

Lemma online_not_health base p : p ∈ onlinePaths base → p ∉ healthPaths base.
Proof.
  unfold onlinePaths, healthPaths. set (b := strip_slashes base).
  rewrite !elem_of_cons, !elem_of_nil.
  intros [->|[->|[]]] [H|[H|[H|[]]]]; try discriminate H.
  - apply (f_equal String.length) in H. rewrite append_length in H.
    simpl in H. lia.
  - apply (f_equal String.length) in H. rewrite append_length in H.
    simpl in H. lia.
  - destruct b as [|a [|a' b]]; simpl in H.
    + discriminate H.
    + injection H as _ H. discriminate H.
    + apply (f_equal String.length) in H. simpl in H.
      rewrite append_length in H. simpl in H. lia.
  - apply append_inv_head in H. discriminate H.
Qed.
End Routes.

(** X3.  The route table.  The presence list is served at [/online] and at the
    base path followed by [/online]; the health text at [/], [/healthz] and
    the base path followed by [/healthz]; every other path gets 404.  No path
    belongs to both groups, so the order of the two tests decides nothing. *)
Theorem http_route_table (base p : string) (w : world) :
  let b := strip_slashes base in
  ((p = "/online" ∨ p = b +:+ "/online") →
     http_handler base p w =
     Response 200 (Some "application/json") (JsonUsers (online_route w))) ∧
  ((p = "/" ∨ p = "/healthz" ∨ p = b +:+ "/healthz") →
     http_handler base p w = Response 200 (Some "text/plain") (Text "OK")) ∧
  (p ≠ "/online" → p ≠ b +:+ "/online" → p ≠ "/" → p ≠ "/healthz" →
   p ≠ b +:+ "/healthz" →
     http_handler base p w = Response 404 None (Text "Not Found")).
Proof.
  intros b. unfold http_handler. split; [|split].
  - intros H. rewrite bool_decide_eq_true_2; [done|].
    unfold onlinePaths. fold b. rewrite !elem_of_cons. tauto.
  - intros H.
    assert (p ∈ healthPaths base) as Hh.
    { unfold healthPaths. fold b. rewrite !elem_of_cons. tauto. }
    rewrite bool_decide_eq_false_2, bool_decide_eq_true_2; [done..|].
    intros Ho. by apply (online_not_health base p).
  - intros H1 H2 H3 H4 H5.
    rewrite !bool_decide_eq_false_2; [done|..].
    + unfold healthPaths. fold b. rewrite !elem_of_cons, elem_of_nil. tauto.
    + unfold onlinePaths. fold b. rewrite !elem_of_cons, elem_of_nil. tauto.
Qed.

Lemma http_route_table_witness :
  http_handler "/ws/" "/ws/online" two_clients =
    Response 200 (Some "application/json") (JsonUsers [alice_entry; bob_entry]) ∧
  http_handler "/ws/" "/ws/healthz" two_clients =
    Response 200 (Some "text/plain") (Text "OK") ∧
  http_handler "/ws/" "/ws/" two_clients =
    Response 404 None (Text "Not Found").
Proof.
  destruct (http_route_table "/ws/" "/ws/online" two_clients) as (H1 & _ & _).
  destruct (http_route_table "/ws/" "/ws/healthz" two_clients) as (_ & H2 & _).
  destruct (http_route_table "/ws/" "/ws/" two_clients) as (_ & _ & H3).
  split; [|split].
  - rewrite H1; [reflexivity | right; reflexivity].
  - apply H2. right. right. reflexivity.
  - apply H3; discriminate.
Defined.

(** ** Broadcasts and identifiers over a run *)
Section Broadcasts.
Implicit Types (w : world) (c : nat) (ev : event) (id : jval) (key : string).

(** A key that an event brings into a store comes from the identifier of
    the [hello] that the event is. *)
Lemma step_new_identifier ev w w' id key :
  step ev w = Returned w' →
  (registered id w' → registered id w ∨ is_hello_of id ev) ∧
  (present key w' → present key w ∨ is_hello_for key ev).
Proof.
  intros Hstep. unfold registered, present.
  destruct (step_stores _ _ _ Hstep)
    as [(Hs & Hd & _)|[(c & me & i & k & -> & Hid & Hi & Hk & Hs & Hd & _)
       |[(c & x & i & k & _ & _ & _ & _ & _ & Hs & Hd & _)|[_ Hh]]]].
  - rewrite Hs, (load_of_disk _ _ Hd). auto.
  - assert (is_hello_of i (Message c (Json (Hello me)))) as Hhello.
    { rewrite <- Hid in *. by apply truthy_field_hello. }
    rewrite Hs, Hd, DictFacts.elem_of_keys_set, DictFacts.elem_of_keys_obj_set.
    split; [intros [->|?] | intros [[-> _]|?]]; auto.
    right. by exists i.
  - rewrite Hs, Hd, !DictFacts.elem_of_keys_del. split; intros [_ ?]; auto.
  - destruct (heartbeat_registry _ _ id key Hh) as [H1 H2].
    unfold registered, present in *. split; auto.
Qed.

Lemma run_new_identifier evs w w' id key :
  run evs w = Returned w' →
  (registered id w' → registered id w ∨ Exists (is_hello_of id) evs) ∧
  (present key w' → present key w ∨ Exists (is_hello_for key) evs).
Proof.
  revert w. induction evs as [|ev evs IH]; intros w; simpl.
  - intros [= <-]. auto.
  - destruct (step ev w) as [w1|w1] eqn:Hstep; simpl; [|done].
    intros Hrun. destruct (IH _ Hrun) as [IH1 IH2].
    destruct (step_new_identifier _ _ _ id key Hstep) as [H1 H2].
    split.
    + intros [Hr|He]%IH1; [|right; by apply Exists_cons_tl].
      destruct (H1 Hr); [by left | right; by apply Exists_cons_hd].
    + intros [Hp|He]%IH2; [|right; by apply Exists_cons_tl].
      destruct (H2 Hp); [by left | right; by apply Exists_cons_hd].
Qed.
End Broadcasts.

(** X4.  In every state the server reaches, once any broadcast has gone out, the
    answer of [/online] is the user list of the most recent broadcast. *)
Theorem online_answers_the_last_broadcast
    (file : option (list (string * entry))) (fs : list write_result)
    (evs : list event) (w : world) (base : string) (users : list entry) :
  run evs (init file fs) = Returned w →
  last (log w) = Some users →
  http_handler base "/online" w =
  Response 200 (Some "application/json") (JsonUsers users).
Proof.
  intros Hrun Hlast.
  destruct (run_last_broadcast _ _ _ Hrun) as [Hnil|Hcur]; [by left| |].
  - by rewrite Hnil in Hlast.
  - rewrite Hlast in Hcur. injection Hcur as ->.
    unfold http_handler. rewrite bool_decide_eq_true_2; [done|].
    unfold onlinePaths. apply list_elem_of_here.
Qed.

Lemma online_answers_the_last_broadcast_witness :
  http_handler "/ws" "/online" two_clients =
  Response 200 (Some "application/json") (JsonUsers [alice_entry; bob_entry]).
Proof.
  exact (online_answers_the_last_broadcast None []
           [Connect; Connect; Message 0 (hello alice); Message 1 (hello bob)]
           two_clients "/ws" [alice_entry; bob_entry] eq_refl eq_refl).
Defined.

(** X5.  Nobody is in the registry without a [hello] that named the identifier,
    and no key is in the presence store without a [hello] whose identifier
    has that property name, unless the side file held the key at
    start-up. *)
Theorem identifiers_come_from_hellos
    (file : option (list (string * entry))) (fs : list write_result)
    (evs : list event) (w : world) :
  run evs (init file fs) = Returned w →
  (∀ id, registered id w → Exists (is_hello_of id) evs) ∧
  (∀ key, present key w →
          present key (init file fs) ∨ Exists (is_hello_for key) evs).
Proof.
  intros Hrun. split.
  - intros id. destruct (run_new_identifier _ _ _ id EmptyString Hrun) as [H1 _].
    intros [Hr|He]%H1; [|done]. by apply elem_of_nil in Hr.
  - intros key. by destruct (run_new_identifier _ _ _ JUndef key Hrun) as [_ H2].
Qed.

Lemma identifiers_come_from_hellos_witness :
  Exists (is_hello_of (JStr "b1"))
    [Connect; Connect; Message 0 (hello alice); Message 1 (hello bob)].
Proof.
  destruct (identifiers_come_from_hellos None []
              [Connect; Connect; Message 0 (hello alice); Message 1 (hello bob)]
              two_clients eq_refl) as [Hreg _].
  apply Hreg. apply list_elem_of_further, list_elem_of_here.
Defined.

(** ** Flags, bindings and inboxes over a run *)
Section Runs.
Implicit Types (w : world) (c d : nat) (x : ws) (ev : event).

Lemma step_conn_evolves ev w w' c x :
  step ev w = Returned w' → conns w !! c = Some x →
  ∃ x', conns w' !! c = Some x' ∧ evolve ev c x x'.
Proof.
  intros Hstep Hx. destruct (connect_or_not ev) as [->|Hev].
  - apply step_connect in Hstep as (Hc & _). exists x. split.
    + rewrite Hc. by apply lookup_app_l_Some.
    + apply evolve_refl.
  - destruct (step_conns _ _ _ Hstep Hev) as (f & Hf & Hevo).
    exists (f c x). split; [by rewrite Hf, Hx | apply Hevo].
Qed.

Lemma is_pong_dec c ev : is_pong_of c ev ∨ ¬ is_pong_of c ev.
Proof.
  unfold is_pong_of.
  destruct ev as [|c0 [| |[me|k to rest| |ty]]|c0|c0|c0|];
    try (right; intros [H|H]; discriminate H).
  - destruct (decide (c0 = c)) as [->|Hne]; [left; by right|].
    right. intros [H|[= H]]; [discriminate H | done].
  - destruct (decide (c0 = c)) as [->|Hne]; [left; by left|].
    right. intros [[= H]|H]; [done | discriminate H].
Qed.

Lemma run_flag_rises evs w w' c x x' :
  run evs w = Returned w' → conns w !! c = Some x → conns w' !! c = Some x' →
  isAlive x = false → isAlive x' = true → Exists (is_pong_of c) evs.
Proof.
  revert w x. induction evs as [|ev evs IH]; intros w x; simpl.
  - intros [= <-] Hx Hx' Ha Ha'. congruence.
  - destruct (step ev w) as [w1|w1] eqn:Hstep; simpl; [|done].
    intros Hrun Hx Hx' Ha Ha'.
    destruct (is_pong_dec c ev) as [Hp|Hnp]; [by apply Exists_cons_hd|].
    destruct (step_flag_down _ _ _ _ _ Hstep Hnp Hx Ha) as (x1 & Hx1 & Ha1).
    apply Exists_cons_tl. by apply (IH w1 x1).
Qed.

Lemma run_binding_changes evs w w' c x x' :
  run evs w = Returned w' → conns w !! c = Some x → conns w' !! c = Some x' →
  myId x' ≠ myId x → Exists (is_any_hello_of c) evs.
Proof.
  revert w x. induction evs as [|ev evs IH]; intros w x; simpl.
  - intros [= <-] Hx Hx' Hne. congruence.
  - destruct (step ev w) as [w1|w1] eqn:Hstep; simpl; [|done].
    intros Hrun Hx Hx' Hne.
    destruct (step_conn_evolves _ _ _ _ _ Hstep Hx) as (x1 & Hx1 & _ & Hm).
    destruct Hm as [Hm|(me & -> & _)].
    + apply Exists_cons_tl. apply (IH w1 x1); [done..|]. by rewrite Hm.
    + apply Exists_cons_hd. by exists me.
Qed.

Lemma refs_set_other (i : jval) c d (s : list (jval * nat)) :
  d ≠ c → refs c (Dict.values (Dict.set i d s)) ≤ refs c (Dict.values s).
Proof.
  intros Hne. unfold refs, Dict.values.
  induction s as [|[k v] s IH]; simpl.
  - rewrite filter_cons, decide_False by done. simpl. lia.
  - destruct (decide (k = i)) as [->|Hk]; simpl.
    + rewrite !filter_cons, decide_False by done.
      destruct (decide (v = c)); simpl in *; lia.
    + rewrite !filter_cons. destruct (decide (v = c)); simpl;
        [apply -> Nat.succ_le_mono|]; exact IH.
Qed.

Lemma refs_del (i : jval) c (s : list (jval * nat)) :
  refs c (Dict.values (Dict.del i s)) ≤ refs c (Dict.values s).
Proof.
  unfold refs, Dict.values. induction s as [|[k v] s IH]; simpl; [done|].
  destruct (decide (k = i)) as [->|Hk]; simpl.
  - rewrite filter_cons. destruct (decide (v = c)); simpl;
      [apply Nat.le_le_succ_r|]; exact IH.
  - rewrite !filter_cons. destruct (decide (v = c)); simpl;
      [apply -> Nat.succ_le_mono|]; exact IH.
Qed.

Lemma heartbeat_refs w w' c :
  heartbeat w = Returned w' →
  refs c (Dict.values (sockets w')) ≤ refs c (Dict.values (sockets w)).
Proof.
  intros (w1 & Hsw & ->)%heartbeat_Returned. rewrite broadcast_sockets.
  revert Hsw.
  apply (sweep_invariant (λ w0,
    refs c (Dict.values (sockets w0)) ≤ refs c (Dict.values (sockets w))));
    [|done].
  intros [id c'] wa wb _ Hwa
    (_ & _ & _ & [(x & key & _ & _ & _ & _ & Hs & _)|(_ & Hs & _)])
    %sweep_entry_Returned;
    rewrite Hs; [|done].
  pose proof (refs_del id c (sockets wa)). lia.
Qed.

(** An event that is not a registration of [c] gives [c] no new registry
    entry. *)
Lemma step_refs ev w w' c :
  step ev w = Returned w' → ¬ is_registration_of c ev →
  refs c (Dict.values (sockets w')) ≤ refs c (Dict.values (sockets w)).
Proof.
  intros Hstep Hnr.
  destruct (step_stores _ _ _ Hstep)
    as [(Hs & _)|[(c0 & me & i & key & -> & Hid & Hi & _ & Hs & _)
       |[(c0 & x & i & key & _ & _ & _ & _ & _ & Hs & _)|[_ Hh]]]].
  - by rewrite Hs.
  - rewrite Hs. apply refs_set_other. intros ->. apply Hnr. exists me.
    split; [done|]. by rewrite Hid.
  - rewrite Hs. apply refs_del.
  - by apply heartbeat_refs.
Qed.

Lemma visit_iter_sent n x : sent (Nat.iter n visit x) = sent x.
Proof.
  destruct (isAlive x) eqn:Ha.
  - destruct n as [|n]; [done|].
    by destruct (visit_iter_alive n x Ha) as (_ & _ & _ & ?).
  - by destruct (visit_iter_dead n x Ha) as (_ & _ & _ & ? & _).
Qed.

Lemma deliver_sent payload n x :
  sent (deliver payload n x) = sent x ∨ 0 < n.
Proof. destruct n; [left; by rewrite deliver_0 | right; lia]. Qed.

(** A connection's inbox grows only while the registry points to it. *)
Lemma step_sent ev w w' c x :
  step ev w = Returned w' → conns w !! c = Some x →
  ∃ x', conns w' !! c = Some x' ∧
        (sent x' = sent x ∨ 0 < refs c (Dict.values (sockets w)) ∨
         0 < refs c (Dict.values (sockets w'))).
Proof.
  intros Hstep Hx.
  destruct ev as [|c0 buf|c0|c0|c0|]; simpl in Hstep.
  - injection Hstep as <-. exists x. split; [|by left].
    by apply lookup_app_l_Some.
  - destruct (accepted c0 w); [|injection Hstep as <-; eauto].
    destruct buf as [| |[me|k to rest| |ty]].
    + injection Hstep as <-. eauto.
    + discriminate Hstep.
    + destruct (key_cases (field me_id me)) as [Hf|[[Hi Hk]|(key & Hi & Hk)]].
      * rewrite on_hello_no_id in Hstep by done. injection Hstep as <-.
        rewrite update_ws_lookup_all, Hx. simpl. eexists. split; [done|].
        left. by case_decide.
      * by rewrite (on_hello_keyless c0 me _ w eq_refl Hi Hk) in Hstep.
      * pose proof (on_hello_Returned c0 me _ key w w' eq_refl Hi Hk) as Hret.
        cbv zeta in Hret. destruct (Hret Hstep) as (_ & Hs & _ & _ & _ & Hc).
        rewrite Hc, alter_lookup_all, Hx, Hs. simpl. eexists. split; [done|].
        match goal with |- context [deliver ?p ?n ?y] =>
          destruct (deliver_sent p n y) as [->|Hn] end.
        -- left. by case_decide.
        -- right. by right.
    + unfold on_message in Hstep.
      destruct (Dict.get to (sockets w)) as [d|] eqn:Hto;
        injection Hstep as <-; [|eauto].
      destruct (decide (d = c)) as [->|Hne].
      * rewrite send_if_open_conns, Hx. simpl. eexists. split; [done|].
        right. left.
        eapply refs_registered. by apply DictFacts.get_Some_elem.
      * rewrite send_if_open_conns_ne by done. eauto.
    + injection Hstep as <-.
      rewrite update_ws_lookup_all, Hx. simpl. eexists. split; [done|].
      left. by case_decide.
    + injection Hstep as <-. eauto.
  - injection Hstep as <-. unfold on_pong.
    rewrite update_ws_lookup_all, Hx. simpl. eexists. split; [done|].
    left. by case_decide.
  - injection Hstep as <-.
    rewrite update_ws_lookup_all, Hx. simpl. eexists. split; [done|].
    left. case_decide; [|done]. unfold start_closing. by destruct (readyState x).
  - set (w0 := update_ws c0 (set_ready CLOSED) w) in *.
    assert (∃ y, conns w0 !! c = Some y ∧ sent y = sent x) as (y & Hy & Hsy).
    { unfold w0. rewrite update_ws_lookup_all, Hx. simpl. eexists.
      split; [done|]. by case_decide. }
    destruct (conns w0 !! c0) as [z|] eqn:Hz.
    + destruct (key_cases (myId z)) as [Hf|[[Hi Hk]|(key & Hi & Hk)]].
      * rewrite on_close_unbound in Hstep.
        2:{ intros z' Hz'. congruence. }
        injection Hstep as <-. exists y. split; [done | by left].
      * by rewrite (on_close_keyless c0 z _ w0 Hz eq_refl Hi Hk) in Hstep.
      * pose proof (on_close_Returned c0 z _ key w0 w' Hz eq_refl Hi Hk) as Hret.
        cbv zeta in Hret. destruct (Hret Hstep) as (_ & Hs & _ & _ & _ & Hc).
        rewrite Hc, Hy, Hs. simpl. eexists. split; [done|].
        match goal with |- context [deliver ?p ?n ?v] =>
          destruct (deliver_sent p n v) as [->|Hn] end.
        -- by left.
        -- right. by right.
    + rewrite on_close_unbound in Hstep.
      2:{ intros z' Hz'. congruence. }
      injection Hstep as <-. exists y. split; [done | by left].
  - apply heartbeat_Returned in Hstep as (w1 & Hsw & ->).
    rewrite broadcast_conns, (sweep_conns _ _ _ c Hsw), Hx, broadcast_sockets.
    simpl. eexists. split; [done|].
    match goal with |- context [deliver ?p ?n ?v] =>
      destruct (deliver_sent p n v) as [->|Hn] end.
    + left. apply visit_iter_sent.
    + right. by right.
Qed.

Lemma run_unregistered evs w w' c x :
  run evs w = Returned w' → conns w !! c = Some x →
  refs c (Dict.values (sockets w)) = 0 →
  Forall (λ ev, ¬ is_registration_of c ev) evs →
  ∃ x', conns w' !! c = Some x' ∧ sent x' = sent x ∧
        refs c (Dict.values (sockets w')) = 0.
Proof.
  revert w x. induction evs as [|ev evs IH]; intros w x; simpl.
  - intros [= <-] Hx Hr _. eauto.
  - destruct (step ev w) as [w1|w1] eqn:Hstep; simpl; [|done].
    intros Hrun Hx Hr [Hev Hevs]%Forall_cons.
    pose proof (step_refs _ _ _ c Hstep Hev) as Hr1.
    destruct (step_sent _ _ _ _ _ Hstep Hx) as (x1 & Hx1 & Hs1).
    assert (sent x1 = sent x) as Hsent by (destruct Hs1 as [?|[?|?]]; [done|lia..]).
    destruct (IH w1 x1 Hrun Hx1) as (x' & Hx' & Hs' & Hr'); [lia|done|].
    exists x'. split; [done|]. split; [congruence|done].
Qed.
End Runs.

(** X6.  A liveness flag that is down goes up only by a pong of that connection,
    the protocol frame or the application message: no other traffic, not the
    connection's own [hello] or signaling either, keeps it alive. *)
Theorem flag_rises_only_on_pong (evs : list event) (w w' : world) (c : nat)
    (x x' : ws) :
  run evs w = Returned w' →
  conns w !! c = Some x → conns w' !! c = Some x' →
  isAlive x = false → isAlive x' = true →
  Exists (is_pong_of c) evs.
Proof. apply run_flag_rises. Qed.

Lemma flag_rises_only_on_pong_witness :
  Exists (is_pong_of 0) [Tick; Message 0 (Json offer_to_alice); Pong 0].
Proof.
  apply (flag_rises_only_on_pong
           [Tick; Message 0 (Json offer_to_alice); Pong 0]
           (world_of (run [Tick] two_clients))
           (world_of (run [Tick; Tick; Message 0 (Json offer_to_alice); Pong 0]
                          two_clients))
           0
           (Ws false OPEN (JStr "a1")
               [FOnline [alice_entry]; FOnline [alice_entry; bob_entry];
                FOnline [alice_entry; bob_entry]] 1 false)
           (Ws true CLOSING (JStr "a1")
               [FOnline [alice_entry]; FOnline [alice_entry; bob_entry];
                FOnline [alice_entry; bob_entry]] 1 true));
    vm_compute; reflexivity.
Defined.

(** X7.  The identifier a connection is bound to changes only when that
    connection itself says [hello]: nothing another client or the heartbeat
    does rebinds or unbinds it. *)
Theorem binding_changes_only_on_own_hello (evs : list event) (w w' : world)
    (c : nat) (x x' : ws) :
  run evs w = Returned w' →
  conns w !! c = Some x → conns w' !! c = Some x' →
  myId x' ≠ myId x →
  Exists (is_any_hello_of c) evs.
Proof. apply run_binding_changes. Qed.

Lemma binding_changes_only_on_own_hello_witness :
  Exists (is_any_hello_of 0) [Message 1 (hello alicia); Message 0 (hello bob)].
Proof.
  apply (binding_changes_only_on_own_hello
           [Message 1 (hello alicia); Message 0 (hello bob)]
           two_clients
           (world_of (run [Message 1 (hello alicia); Message 0 (hello bob)]
                          two_clients))
           0
           (Ws true OPEN (JStr "a1")
               [FOnline [alice_entry]; FOnline [alice_entry; bob_entry]] 0 false)
           (Ws true OPEN (JStr "b1")
               [FOnline [alice_entry]; FOnline [alice_entry; bob_entry];
                FOnline [alicia_entry; bob_entry]] 0 false));
    [vm_compute; reflexivity.. | discriminate].
Defined.

(** X8.  A connection that no registry entry points to receives nothing, neither
    broadcasts nor relayed messages, until it registers itself: whatever the
    other clients and the heartbeat do, its inbox stays as it is and it stays
    out of the registry. *)
Theorem unregistered_connection_receives_nothing (evs : list event)
    (w w' : world) (c : nat) (x : ws) :
  run evs w = Returned w' →
  conns w !! c = Some x →
  refs c (Dict.values (sockets w)) = 0 →
  Forall (λ ev, ¬ is_registration_of c ev) evs →
  ∃ x', conns w' !! c = Some x' ∧ sent x' = sent x ∧
        refs c (Dict.values (sockets w')) = 0.
Proof. apply run_unregistered. Qed.

Lemma unregistered_connection_receives_nothing_witness :
  ∃ x', conns (world_of (run [Connect; Connect; Message 0 (hello alice);
                              Message 0 (Json (Signal Offer (JStr "b1") []));
                              Tick; Message 1 (Json (Hello None));
                              Message 0 (hello alicia)] (init None []))) !! 1
          = Some x' ∧
        sent x' = [].
Proof.
  destruct (unregistered_connection_receives_nothing
              [Message 0 (Json (Signal Offer (JStr "b1") [])); Tick;
               Message 1 (Json (Hello None)); Message 0 (hello alicia)]
              (world_of (run [Connect; Connect; Message 0 (hello alice)]
                             (init None [])))
              (world_of (run [Connect; Connect; Message 0 (hello alice);
                              Message 0 (Json (Signal Offer (JStr "b1") []));
                              Tick; Message 1 (Json (Hello None));
                              Message 0 (hello alicia)] (init None [])))
              1 fresh_ws) as (x' & Hx' & Hsent & _).
  - vm_compute. reflexivity.
  - reflexivity.
  - reflexivity.
  - repeat (apply Forall_cons; split; [|]); try apply Forall_nil_2;
      intros (me & Hev & Ht); try discriminate Hev.
    injection Hev as <-. discriminate Ht.
  - exists x'. split; [exact Hx' | exact Hsent].
Defined.

(** ** Registration, relay and disconnect together *)
Section Together.
Implicit Types (w : world) (c d : nat) (x : ws) (i : jval).

Lemma elem_of_set {K V} `{EqDecision K} (i : K) (c : V) (s : list (K * V)) :
  (i, c) ∈ Dict.set i c s.
Proof. apply DictFacts.get_Some_elem, DictFacts.get_set_eq. Qed.

Lemma del_absent {K V} `{EqDecision K} (k : K) (d : list (K * V)) :
  k ∉ Dict.keys d → Dict.del k d = d.
Proof.
  unfold Dict.keys. induction d as [|[k' v] d IH]; simpl; [done|].
  rewrite not_elem_of_cons. intros [Hne Hnot].
  rewrite decide_False by done. by rewrite IH.
Qed.

Lemma last_replicate {A} (l : list A) (n : nat) (a : A) :
  last (l ++ replicate (S n) a) = Some a.
Proof. rewrite replicate_S_end, app_assoc. apply last_snoc. Qed.
End Together.

(** X9.  A [hello] with a usable identifier whose property name is not
    [__proto__], on an open connection, returns whenever the write succeeds;
    and when it returns the registry maps the identifier to the sender, the
    presence store holds, under the property name, the entry with the fields
    of the message, the connection is bound to the identifier, and the last
    frame the sender itself has received is the broadcast whose list is the
    new presence list, with its own entry in it. *)
Theorem registration_reaches_the_sender (c : nat) (x : ws) (me : me_obj)
    (i : jval) (key : string) (w : world) :
  conns w !! c = Some x → readyState x = OPEN →
  me_id me = i → truthy i = true → to_key i = Some key → key ≠ proto →
  (write_ok w → ∃ w', on_message c (hello me) w = Returned w') ∧
  (∀ w', on_message c (hello me) w = Returned w' →
     Dict.get i (sockets w') = Some c ∧
     Dict.get key (loadOnline w') = Some (Entry i (me_name me) (me_avatar me)) ∧
     Entry i (me_name me) (me_avatar me) ∈ online_route w' ∧
     ∃ x', conns w' !! c = Some x' ∧ myId x' = i ∧
           last (sent x') = Some (FOnline (online_route w'))).
Proof.
  intros Hx Hopen Hid Hi Hkey Hproto. split.
  - by apply (on_hello_write_ok c (Some me) i key).
  - intros w' Hret.
    pose proof (on_hello_Returned c (Some me) i key w w' Hid Hi Hkey) as H.
    cbv zeta in H. destruct (H Hret) as (_ & Hs & Hd & _ & _ & Hc).
    simpl in Hd, Hc. unfold online_route.
    rewrite (load_of_Some _ _ Hd), Hs, DictFacts.get_set_eq.
    assert (Dict.get key (obj_set key (Entry i (me_name me) (me_avatar me))
                         (loadOnline w)) =
            Some (Entry i (me_name me) (me_avatar me))) as Hget.
    { by apply DictFacts.get_obj_set_eq. }
    split; [done|]. split; [done|].
    split; [by eapply DictFacts.get_Some_values|].
    rewrite Hc, list_lookup_alter_eq, Hx. simpl. eexists. split; [done|].
    pose proof (refs_registered i c _ (elem_of_set i c (sockets w))) as Hn.
    destruct (refs c (Dict.values (Dict.set i c (sockets w)))) as [|n]; [lia|].
    unfold deliver, set_myId. cbn [readyState sent myId].
    rewrite bool_decide_eq_true_2 by done. cbn [sent myId].
    split; [done|]. apply last_replicate.
Qed.

Lemma registration_reaches_the_sender_witness :
  ∃ w', on_message 0 (hello alice) (world_of (run [Connect] (init None [])))
          = Returned w' ∧
        Dict.get (JStr "a1") (sockets w') = Some 0 ∧
        online_route w' = [alice_entry].
Proof.
  destruct (registration_reaches_the_sender 0 fresh_ws alice (JStr "a1") "a1"
              (world_of (run [Connect] (init None []))))
    as [Hret Hpost];
    [reflexivity | reflexivity | reflexivity | reflexivity | reflexivity
    | done |].
  destruct Hret as [w' Hw']; [done|].
  exists w'. split; [exact Hw'|].
  destruct (Hpost w' Hw') as (Hreg & _).
  split; [exact Hreg|].
  assert (Returned w' =
          on_message 0 (hello alice) (world_of (run [Connect] (init None []))))
    as Heq by (symmetry; exact Hw').
  vm_compute in Heq. injection Heq as ->. reflexivity.
Defined.

(** X10.  Registration and relay compose: once a [hello] of an open connection has
    been handled, a signaling message that any connection addresses to that
    identifier is handed to that connection, and to it alone. *)
Theorem registered_identifier_is_reachable (c c2 : nat) (x : ws) (me : me_obj)
    (i : jval) (k : kind) (rest : list (string * jval)) (w w1 : world) :
  conns w !! c = Some x → readyState x = OPEN →
  me_id me = i → truthy i = true →
  on_message c (hello me) w = Returned w1 →
  ∃ x1 w2, conns w1 !! c = Some x1 ∧
           on_message c2 (Json (Signal k i rest)) w1 = Returned w2 ∧
           conns w2 !! c = Some (push (FRelay (Signal k i rest)) x1) ∧
           (∀ d, d ≠ c → conns w2 !! d = conns w1 !! d) ∧
           sockets w2 = sockets w1 ∧ disk w2 = disk w1 ∧ log w2 = log w1.
Proof.
  intros Hx Hopen Hid Hi Hret.
  destruct (key_cases i) as [Hf|[[_ Hk]|(key & _ & Hk)]]; [congruence|..].
  { unfold hello in Hret.
    by rewrite (on_hello_keyless c (Some me) i w Hid Hi Hk) in Hret. }
  pose proof (on_hello_Returned c (Some me) i key w w1 Hid Hi Hk) as H.
  cbv zeta in H. destruct (H Hret) as (_ & Hs & _ & _ & _ & Hc).
  assert (∃ x1, conns w1 !! c = Some x1 ∧ readyState x1 = OPEN)
    as (x1 & Hx1 & Hopen1).
  { rewrite Hc, list_lookup_alter_eq, Hx. simpl. eexists. split; [done|].
    match goal with |- context [deliver ?p ?n ?y] =>
      destruct (deliver_fields p n y) as (_ & -> & _) end. done. }
  exists x1. eexists. split; [done|]. split.
  { unfold on_message. simpl. rewrite Hs, DictFacts.get_set_eq. reflexivity. }
  unfold send_if_open, is_open. rewrite Hx1, bool_decide_eq_true_2 by done.
  split; [by rewrite update_ws_lookup, Hx1|]. split; [|done].
  intros d Hne. by rewrite update_ws_lookup_ne.
Qed.

Lemma registered_identifier_is_reachable_witness :
  ∃ x1 w2,
    conns two_clients !! 1 = Some x1 ∧
    on_message 0 (Json (Signal Answer (JStr "b1") [])) two_clients = Returned w2 ∧
    conns w2 !! 1 = Some (push (FRelay (Signal Answer (JStr "b1") [])) x1).
Proof.
  destruct (registered_identifier_is_reachable 1 0 fresh_ws bob (JStr "b1")
              Answer []
              (world_of (run [Connect; Connect; Message 0 (hello alice)]
                             (init None [])))
              two_clients)
    as (x1 & w2 & H1 & H2 & H3 & _);
    [reflexivity | reflexivity | reflexivity | reflexivity | reflexivity |].
  exists x1, w2. split; [exact H1|]. split; [exact H2 | exact H3].
Defined.

(** X11.  The close handler of a connection whose identifier is in neither store
    (the heartbeat has evicted it already, or a namesake's close has removed
    it) still rewrites the side file and still broadcasts: when it returns,
    both stores hold what they held, and one more broadcast of the unchanged
    list has gone out; when the write throws, so does the handler. *)
Theorem close_after_eviction_only_broadcasts (c : nat) (x : ws) (X : jval)
    (key : string) (w : world) :
  conns w !! c = Some x → myId x = X → truthy X = true →
  to_key X = Some key →
  ¬ registered X w → ¬ present key w →
  (∀ w', on_close c w = Returned w' →
     sockets w' = sockets w ∧ loadOnline w' = loadOnline w ∧
     log w' = log w ++ [online_route w]) ∧
  (∀ r fs, faults w = r :: fs → r ≠ Written → ∃ w', on_close c w = Thrown w').
Proof.
  intros Hx Hid HX Hkey Hr Hp. split.
  - intros w' Hret.
    pose proof (on_close_Returned c x X key w w' Hx Hid HX Hkey) as H.
    cbv zeta in H.
    destruct (H Hret) as (_ & Hs & Hd & _ & Hl & _).
    rewrite (load_of_Some _ _ Hd), Hs, Hl. unfold online_route.
    by rewrite !del_absent.
  - intros r fs Hf Hne. eexists. by apply (on_close_fault c x X key w r fs).
Qed.

Lemma close_after_eviction_only_broadcasts_witness :
  let w := world_of (run [Tick; Tick] two_clients) in
  ∃ w', on_close 0 w = Returned w' ∧ sockets w' = sockets w ∧
        log w' = log w ++ [[]].
Proof.
  intros w.
  assert (conns w !! 0 =
          Some (Ws false CLOSING (JStr "a1")
                  [FOnline [alice_entry]; FOnline [alice_entry; bob_entry];
                   FOnline [alice_entry; bob_entry]] 1 true)) as Hx.
  { vm_compute. reflexivity. }
  destruct (close_after_eviction_only_broadcasts 0 _ (JStr "a1") "a1" w Hx
              eq_refl eq_refl eq_refl)
    as [Hpost _]; [apply not_elem_of_nil | apply not_elem_of_nil |].
  assert (∃ w', on_close 0 w = Returned w') as [w' Hw'].
  { eexists. vm_compute. reflexivity. }
  exists w'. split; [exact Hw'|].
  destruct (Hpost w' Hw') as (Hs & _ & Hl).
  split; [exact Hs|]. rewrite Hl. reflexivity.
Defined.

(** ** Ticks that evict nobody, and ticks that evict the living *)
Section Ticks.
Implicit Types (w : world) (c d : nat) (x : ws) (id : jval) (key : string)
  (l : list (jval * nat)).

(** A loop over entries that are all flagged alive, each socket referenced
    once: no eviction, no write. *)
Lemma sweep_all_alive l w :
  NoDup (Dict.values l) →
  (∀ id c, (id, c) ∈ l → ∃ x, conns w !! c = Some x ∧ isAlive x = true) →
  ∃ w', sweep l w = Returned w' ∧ sockets w' = sockets w ∧
        disk w' = disk w ∧ faults w' = faults w ∧ log w' = log w.
Proof.
  revert w. induction l as [|[id c] l IH]; intros w Hnd Hall; simpl.
  - by exists w.
  - unfold Dict.values in Hnd. simpl in Hnd.
    apply NoDup_cons in Hnd as [Hc Hnd].
    destruct (Hall id c) as (x & Hx & Ha); [left|].
    unfold sweep_entry. rewrite Hx, Ha. simpl.
    set (w1 := update_ws c probe (update_ws c (set_alive false) w)).
    destruct (IH w1 Hnd) as (w' & Hw' & Hs & Hd & Hf & Hl).
    { intros id' c' Hin.
      assert (c ≠ c') as Hne.
      { intros ->. apply Hc. by eapply DictFacts.elem_values. }
      destruct (Hall id' c') as (x' & Hx' & Ha'); [by right|].
      exists x'. split; [|done].
      unfold w1. by rewrite !update_ws_lookup_ne. }
    exists w'. by repeat split.
Qed.

(** The loop leaves alone a registry key that is not among its entries, and
    a presence key that is the property name of none of its entries. *)
Lemma sweep_other_identifier l w w' id key c :
  sweep l w = Returned w' → id ∉ Dict.keys l →
  (∀ id' c', (id', c') ∈ l → to_key id' ≠ Some key) →
  (id, c) ∈ sockets w →
  (id, c) ∈ sockets w' ∧ (present key w → present key w').
Proof.
  intros Hsw Hnot Hkeys Hin. revert Hsw.
  apply (sweep_invariant (λ w0,
    (id, c) ∈ sockets w0 ∧ (present key w → present key w0))); [|done].
  intros [id' c'] wa wb Hin' [Ha1 Ha2]
    (_ & _ & _ & [(x & key' & _ & _ & _ & Hkey' & Hs & Hd & _)|(_ & Hs & Hd & _)])
    %sweep_entry_Returned.
  - assert (id ≠ id') as Hne.
    { intros ->. apply Hnot. by eapply DictFacts.elem_keys. }
    assert (key ≠ key') as Hnk.
    { intros ->. by apply (Hkeys id' c'). }
    rewrite Hs. split; [by apply DictFacts.elem_of_del_ne|].
    intros Hp. unfold present. rewrite (load_of_Some _ _ Hd).
    apply DictFacts.elem_of_keys_del. split; [done | by apply Ha2].
  - rewrite Hs. split; [done|]. intros Hp. unfold present.
    rewrite (load_of_disk _ _ Hd). by apply Ha2.
Qed.

Lemma sweep_keeps_responsive l w w' id key c x :
  sweep l w = Returned w' → NoDup (Dict.keys l) → (id, c) ∈ l →
  refs c (Dict.values l) = 1 →
  (∀ id' c', (id', c') ∈ l → id' ≠ id → to_key id' ≠ Some key) →
  conns w !! c = Some x → isAlive x = true → (id, c) ∈ sockets w →
  (id, c) ∈ sockets w' ∧ (present key w → present key w').
Proof.
  intros Hsw Hnd Hin Hrefs Hkeys Hx Ha Hreg.
  apply list_elem_of_split in Hin as (l1 & l2 & ->).
  unfold Dict.keys in Hnd. rewrite fmap_app, fmap_cons in Hnd. simpl in Hnd.
  apply NoDup_app in Hnd as (_ & Hdisj & [Hid2 _]%NoDup_cons).
  assert (id ∉ Dict.keys l1) as Hid1.
  { intros H. apply (Hdisj id H). left. }
  assert (∀ id' c', (id', c') ∈ l1 → to_key id' ≠ Some key) as Hk1.
  { intros id' c' Hin'. apply (Hkeys id' c').
    - apply elem_of_app. by left.
    - intros ->. apply Hid1. by eapply DictFacts.elem_keys. }
  assert (∀ id' c', (id', c') ∈ l2 → to_key id' ≠ Some key) as Hk2.
  { intros id' c' Hin'. apply (Hkeys id' c').
    - apply elem_of_app. right. by right.
    - intros ->. apply Hid2. by eapply DictFacts.elem_keys. }
  unfold Dict.values in Hrefs. rewrite fmap_app, fmap_cons in Hrefs.
  simpl in Hrefs. rewrite refs_app, refs_cons_eq in Hrefs.
  apply sweep_app in Hsw as (w1 & Hl1 & Hl2). cbn [sweep] in Hl2.
  destruct (sweep_entry (id, c) w1) as [w2|w2] eqn:Hp; simpl in Hl2; [|done].
  destruct (sweep_other_identifier _ _ _ id key c Hl1 Hid1 Hk1 Hreg) as [Hr1 Hp1].
  pose proof (sweep_conns _ _ _ c Hl1) as Hc1. rewrite Hx in Hc1.
  replace (refs c (Dict.values l1)) with 0 in Hc1
    by (unfold Dict.values; lia). simpl in Hc1.
  apply sweep_entry_Returned in Hp
    as (_ & _ & _ & [(y & k & Hy & Hay & _)|(_ & Hs & Hd & _)]); [congruence|].
  destruct (sweep_other_identifier _ _ _ id key c Hl2 Hid2 Hk2) as [Hr2 Hp2];
    [by rewrite Hs|].
  split; [done|]. intros Hp. apply Hp2. unfold present.
  rewrite (load_of_disk _ _ Hd). by apply Hp1.
Qed.

Lemma heartbeat_keeps_responsive w w' id key c x :
  heartbeat w = Returned w' → NoDup (Dict.keys (sockets w)) →
  (id, c) ∈ sockets w → refs c (Dict.values (sockets w)) = 1 →
  (∀ id' c', (id', c') ∈ sockets w → id' ≠ id → to_key id' ≠ Some key) →
  conns w !! c = Some x → isAlive x = true →
  (id, c) ∈ sockets w' ∧ (present key w → present key w') ∧
  ∃ x', conns w' !! c = Some x' ∧ isAlive x' = false ∧
        pings x' = S (pings x) ∧ readyState x' = readyState x ∧
        killed x' = killed x.
Proof.
  intros Hret Hnd Hin Hrefs Hkeys Hx Ha.
  apply heartbeat_Returned in Hret as (w1 & Hsw & ->).
  destruct (sweep_keeps_responsive _ _ _ _ key _ _ Hsw Hnd Hin Hrefs Hkeys Hx Ha Hin)
    as [Hr Hp].
  unfold present. rewrite broadcast_sockets, broadcast_load.
  split; [done|]. split; [done|].
  rewrite broadcast_conns, (sweep_conns _ _ _ c Hsw), Hx, Hrefs. simpl.
  eexists. split; [done|].
  match goal with |- context [deliver ?p ?n ?y] =>
    destruct (deliver_fields p n y) as (-> & -> & _ & -> & ->) end.
  unfold visit. by rewrite Ha.
Qed.

Lemma heartbeat_NoDup_keys w w' :
  heartbeat w = Returned w' → NoDup (Dict.keys (sockets w)) →
  NoDup (Dict.keys (sockets w')).
Proof.
  intros (w1 & Hsw & ->)%heartbeat_Returned Hnd. rewrite broadcast_sockets.
  revert Hnd Hsw. apply (sweep_invariant (λ w0, NoDup (Dict.keys (sockets w0)))).
  intros [id c] wa wb _ Hwa
    (_ & _ & _ & [(x & key & _ & _ & _ & _ & -> & _)|(_ & -> & _)])
    %sweep_entry_Returned;
    [by apply DictFacts.NoDup_keys_del | done].
Qed.

Lemma step_pong ev w c :
  is_pong_of c ev → is_Some (conns w !! c) →
  step ev w = Returned (update_ws c (set_alive true) w).
Proof.
  intros [->| ->] Hc; simpl; [done|].
  unfold accepted. rewrite bool_decide_eq_true_2; [done|].
  by apply lookup_lt_is_Some.
Qed.

Lemma heartbeat_kills_twice_registered w w' c x :
  heartbeat w = Returned w' →
  2 ≤ refs c (Dict.values (sockets w)) →
  conns w !! c = Some x → readyState x ≠ CLOSED →
  ∃ x', conns w' !! c = Some x' ∧ killed x' = true ∧ readyState x' ≠ OPEN ∧
        isAlive x' = false.
Proof.
  intros Hret Hrefs Hx Hr.
  apply heartbeat_Returned in Hret as (w1 & Hsw & ->).
  rewrite broadcast_conns, (sweep_conns _ _ _ c Hsw), Hx. simpl.
  eexists. split; [done|].
  match goal with |- context [deliver ?p ?n ?y] =>
    destruct (deliver_fields p n y) as (-> & -> & _ & _ & ->) end.
  destruct (refs c (Dict.values (sockets w))) as [|[|n]]; [lia..|].
  destruct (isAlive x) eqn:Ha.
  - rewrite Nat.iter_succ_r.
    assert (visit x = probe (set_alive false x)) as ->
      by (unfold visit; by rewrite Ha).
    destruct (visit_iter_dead (S n) (probe (set_alive false x)) eq_refl)
      as (-> & _ & _ & _ & H).
    destruct H as [H1 H2]; [lia|]. split; [by apply H2|]. by split.
  - destruct (visit_iter_dead (S (S n)) x Ha) as (-> & _ & _ & _ & H).
    destruct H as [H1 H2]; [lia|]. split; [by apply H2|]. by split.
Qed.

Lemma refs_two (k1 k2 : jval) c (s : list (jval * nat)) :
  (k1, c) ∈ s → (k2, c) ∈ s → k1 ≠ k2 → 2 ≤ refs c (Dict.values s).
Proof.
  intros H1 H2 Hne.
  apply list_elem_of_split in H1 as (l1 & l2 & ->).
  unfold Dict.values. rewrite fmap_app, fmap_cons. simpl.
  rewrite refs_app, refs_cons_eq.
  apply elem_of_app in H2 as [H2|H2].
  - pose proof (refs_registered k2 c l1 H2). unfold Dict.values in *. lia.
  - apply elem_of_cons in H2 as [[= ?]|H2]; [done|].
    pose proof (refs_registered k2 c l2 H2). unfold Dict.values in *. lia.
Qed.

Lemma elem_of_set_other (k i : jval) c d (s : list (jval * nat)) :
  k ≠ i → (k, c) ∈ s → (k, c) ∈ Dict.set i d s.
Proof.
  intros Hne. induction s as [|[k' v] s IH]; simpl; [by intros ?%elem_of_nil|].
  rewrite elem_of_cons. intros [[= -> ->]|Hin].
  - rewrite decide_False by done. left.
  - destruct (decide (k' = i)); [by right | right; by apply IH].
Qed.

(** A [hello] that returns leaves every registry key with a property
    name, and the pending writes as they were, less one. *)
Lemma on_hello_keyed c me id w w' :
  field me_id me = id → truthy id = true →
  on_message c (Json (Hello me)) w = Returned w' →
  keyed w → keyed w'.
Proof.
  intros Hid Hi Hret Hk.
  destruct (key_cases id) as [Hf|[[_ Hkey]|(key & _ & Hkey)]]; [congruence|..].
  { by rewrite (on_hello_keyless c me id w Hid Hi Hkey) in Hret. }
  pose proof (on_hello_Returned c me id key w w' Hid Hi Hkey) as H.
  cbv zeta in H. destruct (H Hret) as (_ & Hs & _).
  unfold keyed. rewrite Hs. apply Forall_forall. intros [id' c'] Hin. simpl.
  apply DictFacts.elem_keys, DictFacts.elem_of_keys_set in Hin as H'.
  destruct H' as [->|Hold]; [by exists key|].
  apply list_elem_of_fmap in Hold as ([i2 c2] & -> & Hin2).
  by apply (keyed_elem w i2 c2).
Qed.
End Ticks.

(** X12.  A tick that has nobody to evict (every registered socket has its flag up
    and is registered under one identifier only) does not write the side
    file, so it cannot fail, whatever state the disk is in: it returns with
    registry and side file as they were and one broadcast of the unchanged
    presence list.  An empty registry is the simplest case. *)
Theorem quiet_tick_never_writes (w : world) :
  NoDup (Dict.values (sockets w)) →
  (∀ id c, (id, c) ∈ sockets w →
           ∃ x, conns w !! c = Some x ∧ isAlive x = true) →
  ∃ w', heartbeat w = Returned w' ∧
        sockets w' = sockets w ∧ disk w' = disk w ∧ faults w' = faults w ∧
        log w' = log w ++ [online_route w].
Proof.
  intros Hnd Hall.
  destruct (sweep_all_alive (sockets w) w Hnd Hall)
    as (w1 & Hsw & Hs & Hd & Hf & Hl).
  exists (broadcastOnline w1). unfold heartbeat. rewrite Hsw. simpl.
  split; [done|].
  rewrite broadcast_sockets, broadcast_disk, broadcast_faults, broadcast_log.
  unfold online_route. by rewrite (load_of_disk _ _ Hd), Hs, Hf, Hl.
Qed.

Lemma quiet_tick_never_writes_witness :
  let w := world_of (run [Connect; Connect; Message 0 (hello alice);
                          Message 1 (hello bob)] (init None [Written; Written; Torn])) in
  ∃ w', heartbeat w = Returned w' ∧ faults w' = [Torn] ∧
        disk w' = Some [("a1", alice_entry); ("b1", bob_entry)].
Proof.
  intros w.
  destruct (quiet_tick_never_writes w) as (w' & Hw' & _ & Hd & Hf & _).
  - apply NoDup_cons. split; [|apply NoDup_singleton].
    intros Hin. apply list_elem_of_singleton in Hin. discriminate Hin.
  - intros id c Hin.
    apply elem_of_cons in Hin as [[= -> ->]|Hin]; [eexists; split; reflexivity|].
    apply list_elem_of_singleton in Hin as [= -> ->].
    eexists; split; reflexivity.
  - exists w'. split; [exact Hw'|]. split; [rewrite Hf | rewrite Hd]; reflexivity.
Defined.

(** X13.  A tick runs to the end whenever no write throws and every registry
    key has a property name; and a tick that runs to the end does not evict
    a connection that is registered under one identifier and whose flag is
    up when the tick starts: its registry entry stays, it is probed once,
    its flag goes down, it is not terminated, and the presence entry under
    [key] stays, for every [key] that is not the property name of another
    registry key (its own property name, when it shares it with no other
    key). *)
Theorem tick_spares_the_responsive (w : world) (id : jval) (key : string)
    (c : nat) (x : ws) :
  NoDup (Dict.keys (sockets w)) →
  (id, c) ∈ sockets w → refs c (Dict.values (sockets w)) = 1 →
  (∀ id' c', (id', c') ∈ sockets w → id' ≠ id → to_key id' ≠ Some key) →
  conns w !! c = Some x → isAlive x = true →
  (writes_ok w → keyed w → ∃ w', heartbeat w = Returned w') ∧
  (∀ w', heartbeat w = Returned w' →
     (id, c) ∈ sockets w' ∧ (present key w → present key w') ∧
     ∃ x', conns w' !! c = Some x' ∧ isAlive x' = false ∧
           pings x' = S (pings x) ∧ readyState x' = readyState x ∧
           killed x' = killed x).
Proof.
  intros Hnd Hin Hrefs Hkeys Hx Ha. split; [apply heartbeat_returns|].
  intros w' Hret. by apply (heartbeat_keeps_responsive w w' id key c x).
Qed.

(** X14.  A pong between two ticks saves the connection.  The three events
    are handled to the end whenever no write throws and every registry key
    has a property name; and when they are, a connection that was registered
    under one identifier and flagged alive before the first tick is still in
    the registry after the second, and so is the presence entry under
    [key], for every [key] that is not the property name of another
    registry key. *)
Theorem pong_between_ticks_keeps_registration (w : world) (id : jval)
    (key : string) (c : nat) (x : ws) (ev : event) :
  is_pong_of c ev →
  NoDup (Dict.keys (sockets w)) →
  (id, c) ∈ sockets w → refs c (Dict.values (sockets w)) = 1 →
  (∀ id' c', (id', c') ∈ sockets w → id' ≠ id → to_key id' ≠ Some key) →
  conns w !! c = Some x → isAlive x = true →
  (writes_ok w → keyed w → ∃ w', run [Tick; ev; Tick] w = Returned w') ∧
  (∀ w', run [Tick; ev; Tick] w = Returned w' →
     (id, c) ∈ sockets w' ∧ (present key w → present key w')).
Proof.
  intros Hpong Hnd Hin Hrefs Hkeys Hx Ha. split.
  - intros Hok Hk. simpl.
    destruct (heartbeat_returns w Hok Hk) as [w1 Ht1]. rewrite Ht1. simpl.
    destruct (heartbeat_conns _ _ _ _ Ht1 Hx) as (p & n & Hx1).
    rewrite (step_pong ev w1 c Hpong) by (by rewrite Hx1). simpl.
    destruct (heartbeat_returns (update_ws c (set_alive true) w1)) as [w3 Ht3].
    + by apply (heartbeat_faults w w1).
    + by apply (heartbeat_keyed w w1).
    + rewrite Ht3. simpl. eauto.
  - intros w' Hrun. simpl in Hrun.
    destruct (heartbeat w) as [w1|w1] eqn:Ht1; simpl in Hrun; [|done].
    destruct (heartbeat_keeps_responsive _ _ _ key _ _ Ht1 Hnd Hin Hrefs Hkeys Hx Ha)
      as (Hin1 & Hp1 & x1 & Hx1 & _).
    rewrite (step_pong ev w1 c Hpong) in Hrun by (by rewrite Hx1).
    simpl in Hrun.
    set (w2 := update_ws c (set_alive true) w1) in *.
    destruct (heartbeat w2) as [w3|w3] eqn:Ht2; simpl in Hrun; [|done].
    injection Hrun as <-.
    destruct (heartbeat_keeps_responsive w2 w3 id key c (set_alive true x1) Ht2)
      as (Hin3 & Hp3 & _); try done.
    + by apply (heartbeat_NoDup_keys w w1).
    + pose proof (heartbeat_refs _ _ c Ht1) as Hle.
      pose proof (refs_registered id c (sockets w1) Hin1) as Hge.
      unfold w2. simpl. lia.
    + intros id' c' Hin' Hne. apply (Hkeys id' c'); [|done].
      by apply (heartbeat_subset w w1).
    + unfold w2. by rewrite update_ws_lookup, Hx1.
    + split; [done|]. intros Hp. by apply Hp3, Hp1.
Qed.

Lemma pong_between_ticks_keeps_registration_witness :
  ∃ w', run [Tick; Pong 0; Tick] two_clients = Returned w' ∧
        (JStr "a1", 0) ∈ sockets w' ∧ present "a1" w'.
Proof.
  destruct (pong_between_ticks_keeps_registration two_clients (JStr "a1") "a1" 0
              (Ws true OPEN (JStr "a1")
                  [FOnline [alice_entry]; FOnline [alice_entry; bob_entry]] 0 false)
              (Pong 0)) as [Hret Hpost].
  - by left.
  - apply NoDup_cons. split; [|apply NoDup_singleton].
    intros Hin. apply list_elem_of_singleton in Hin. discriminate Hin.
  - apply list_elem_of_here.
  - reflexivity.
  - intros id' c' Hin Hne.
    apply elem_of_cons in Hin as [[= -> ->]|Hin]; [done|].
    apply list_elem_of_singleton in Hin as [= -> ->]. discriminate.
  - reflexivity.
  - reflexivity.
  - destruct Hret as [w' Hw']; [apply Forall_nil_2|..].
    { repeat (apply Forall_cons; split; [by eexists|]). apply Forall_nil_2. }
    exists w'. split; [exact Hw'|].
    destruct (Hpost w' Hw') as [Hreg Hpres].
    split; [exact Hreg|]. apply Hpres. apply list_elem_of_here.
Defined.

(** X15.  A socket that is not yet closed and that two or more registry
    entries point to (one connection that said [hello] under several
    identifiers) is terminated by the next tick that runs to the end (a tick
    does whenever no write throws and every registry key has a property
    name), even when its flag is up: the first of its entries takes the flag
    down, the next one finds it down. *)
Theorem tick_terminates_a_socket_registered_twice (w : world) (c : nat)
    (x : ws) :
  2 ≤ refs c (Dict.values (sockets w)) →
  conns w !! c = Some x → readyState x ≠ CLOSED →
  (writes_ok w → keyed w → ∃ w', heartbeat w = Returned w') ∧
  (∀ w', heartbeat w = Returned w' →
     ∃ x', conns w' !! c = Some x' ∧ killed x' = true ∧ readyState x' ≠ OPEN ∧
           isAlive x' = false).
Proof.
  intros Hrefs Hx Hr. split; [apply heartbeat_returns|].
  intros w' Hret. by apply (heartbeat_kills_twice_registered w w' c x).
Qed.

Lemma tick_terminates_a_socket_registered_twice_witness :
  let w := world_of (run [Connect; Message 0 (hello alice); Message 0 (hello bob)]
                         (init None [])) in
  (∃ x, conns w !! 0 = Some x ∧ isAlive x = true) ∧
  ∃ w' x', heartbeat w = Returned w' ∧ conns w' !! 0 = Some x' ∧
           killed x' = true.
Proof.
  intros w.
  assert (conns w !! 0 =
          Some (Ws true OPEN (JStr "b1")
                  [FOnline [alice_entry]; FOnline [alice_entry; bob_entry];
                   FOnline [alice_entry; bob_entry]] 0 false)) as Hx.
  { vm_compute. reflexivity. }
  split; [eexists; split; [exact Hx | reflexivity]|].
  assert (2 ≤ refs 0 (Dict.values (sockets w))) as Hrefs.
  { vm_compute. lia. }
  destruct (tick_terminates_a_socket_registered_twice w 0
              (Ws true OPEN (JStr "b1")
                  [FOnline [alice_entry]; FOnline [alice_entry; bob_entry];
                   FOnline [alice_entry; bob_entry]] 0 false) Hrefs Hx)
    as [Hret Hpost]; [discriminate|].
  destruct Hret as [w' Hw']; [apply Forall_nil_2|..].
  { repeat (apply Forall_cons; split; [by eexists|]). apply Forall_nil_2. }
  destruct (Hpost w' Hw') as (x' & Hx' & Hk & _).
  exists w', x'. split; [exact Hw'|]. split; [exact Hx' | exact Hk].
Defined.

(** X16.  A client that says [hello] again under another identifier keeps its old
    registry entry as well.  When the second [hello] returns (it does
    whenever its identifier has a property name and the write does not
    throw), the socket is registered twice, the next tick runs to the end
    whenever no write throws and every registry key had a property name
    before the [hello], and a tick that runs to the end terminates the
    socket although its flag is up. *)
Theorem rebinding_client_is_terminated (c : nat) (x : ws) (X i : jval)
    (me : me_obj) (w : world) :
  conns w !! c = Some x → readyState x = OPEN →
  (X, c) ∈ sockets w →
  me_id me = i → truthy i = true → i ≠ X →
  (∀ key, to_key i = Some key → write_ok w →
          ∃ w1, on_message c (hello me) w = Returned w1) ∧
  (∀ w1, on_message c (hello me) w = Returned w1 →
     (X, c) ∈ sockets w1 ∧ (i, c) ∈ sockets w1 ∧
     (writes_ok w1 → keyed w → ∃ w2, heartbeat w1 = Returned w2) ∧
     (∀ w2, heartbeat w1 = Returned w2 →
        ∃ x2, conns w2 !! c = Some x2 ∧ killed x2 = true ∧
              readyState x2 ≠ OPEN)).
Proof.
  intros Hx Hopen Hreg Hid Hi Hne. split.
  { intros key Hkey Hok. by apply (on_hello_write_ok c (Some me) i key). }
  intros w1 Hret.
  destruct (key_cases i) as [Hf|[[_ Hk]|(key & _ & Hk)]]; [congruence|..].
  { unfold hello in Hret.
    by rewrite (on_hello_keyless c (Some me) i w Hid Hi Hk) in Hret. }
  pose proof (on_hello_Returned c (Some me) i key w w1 Hid Hi Hk) as H.
  cbv zeta in H. destruct (H Hret) as (_ & Hs & _ & _ & _ & Hc).
  assert ((X, c) ∈ sockets w1) as HX.
  { rewrite Hs. by apply elem_of_set_other. }
  assert ((i, c) ∈ sockets w1) as Hi'.
  { rewrite Hs. apply elem_of_set. }
  split; [done|]. split; [done|].
  assert (∃ x1, conns w1 !! c = Some x1 ∧ readyState x1 = OPEN)
    as (x1 & Hx1 & Hopen1).
  { rewrite Hc, list_lookup_alter_eq, Hx. simpl. eexists. split; [done|].
    match goal with |- context [deliver ?p ?n ?y] =>
      destruct (deliver_fields p n y) as (_ & -> & _) end. done. }
  split.
  { intros Hok Hkeyed. apply heartbeat_returns; [done|].
    by apply (on_hello_keyed c (Some me) i w w1). }
  intros w2 Htick.
  destruct (heartbeat_kills_twice_registered w1 w2 c x1 Htick)
    as (x2 & Hx2 & Hk2 & Ho & _); [| done | congruence |].
  - by apply (refs_two i X).
  - exists x2. by repeat split.
Qed.

Lemma rebinding_client_is_terminated_witness :
  ∃ w1 w2 x2,
    on_message 0 (hello bob) (world_of (run [Connect; Message 0 (hello alice)]
                                            (init None []))) = Returned w1 ∧
    heartbeat w1 = Returned w2 ∧
    conns w2 !! 0 = Some x2 ∧ killed x2 = true.
Proof.
  destruct (rebinding_client_is_terminated 0
              (Ws true OPEN (JStr "a1") [FOnline [alice_entry]] 0 false)
              (JStr "a1") (JStr "b1") bob
              (world_of (run [Connect; Message 0 (hello alice)] (init None []))))
    as [Hret Hpost];
    [reflexivity | reflexivity | apply list_elem_of_here | reflexivity
    | reflexivity | discriminate |].
  destruct (Hret "b1" eq_refl) as [w1 Hw1]; [done|].
  destruct (Hpost w1 Hw1) as (_ & _ & Htick & Hkill).
  assert (Returned w1 = on_message 0 (hello bob)
            (world_of (run [Connect; Message 0 (hello alice)] (init None []))))
    as Heq by (symmetry; exact Hw1).
  vm_compute in Heq. injection Heq as Heq.
  destruct Htick as [w2 Hw2].
  { rewrite Heq. apply Forall_nil_2. }
  { repeat (apply Forall_cons; split; [by eexists|]). apply Forall_nil_2. }
  destruct (Hkill w2 Hw2) as (x2 & Hx2 & Hk & _).
  exists w1, w2, x2. split; [exact Hw1|]. split; [exact Hw2|].
  split; [exact Hx2 | exact Hk].
Defined.

Lemma tick_spares_the_responsive_witness :
  ∃ w', heartbeat two_clients = Returned w' ∧ (JStr "a1", 0) ∈ sockets w' ∧
        present "a1" w'.
Proof.
  destruct (tick_spares_the_responsive two_clients (JStr "a1") "a1" 0
              (Ws true OPEN (JStr "a1")
                  [FOnline [alice_entry]; FOnline [alice_entry; bob_entry]] 0 false))
    as [Hret Hpost].
  - apply NoDup_cons. split; [|apply NoDup_singleton].
    intros Hin. apply list_elem_of_singleton in Hin. discriminate Hin.
  - apply list_elem_of_here.
  - reflexivity.
  - intros id' c' Hin Hne.
    apply elem_of_cons in Hin as [[= -> ->]|Hin]; [done|].
    apply list_elem_of_singleton in Hin as [= -> ->]. discriminate.
  - reflexivity.
  - reflexivity.
  - destruct Hret as [w' Hw']; [apply Forall_nil_2|..].
    { repeat (apply Forall_cons; split; [by eexists|]). apply Forall_nil_2. }
    exists w'. split; [exact Hw'|].
    destruct (Hpost w' Hw') as (Hreg & Hpres & _).
    split; [exact Hreg|]. apply Hpres. apply list_elem_of_here.
Defined.

(** A responsive connection does lose its presence entry when another
    registry key with the same property name is evicted: the number 5 does
    not answer the probe, the string ["5"] does, and the tick that evicts
    the one deletes the entry of the other. *)
Lemma tick_evicts_a_namesake :
  ∃ w, run [Connect; Connect; Message 0 (hello five); Message 1 (hello fivestr);
            Tick; Pong 1; Tick] (init None []) = Returned w ∧
       sockets w = [(JStr "5", 1)] ∧ ¬ present "5" w.
Proof.
  eexists. split; [vm_compute; reflexivity|]. split; [reflexivity|].
  apply not_elem_of_nil.
Qed.

(** X17.  With [WS_BASE_PATH] unset or empty the prefixed routes are the plain
    ones: exactly [/online], [/] and [/healthz] are served, and every other
    path, [/ws/online] too, gets 404. *)
Theorem default_base_path_serves_three_paths (env : option string)
    (p : string) (w : world) :
  env = None ∨ env = Some EmptyString →
  (status (http_handler (WS_BASE_PATH env) p w) = 404 ↔
   p ∉ ["/online"; "/"; "/healthz"]).
Proof.
  intros Henv.
  assert (WS_BASE_PATH env = "/") as -> by (by destruct Henv as [-> | ->]).
  unfold http_handler, onlinePaths, healthPaths. simpl.
  rewrite !not_elem_of_cons.
  repeat case_bool_decide; simpl;
    repeat match goal with
           | H : _ ∈ _ |- _ => rewrite !elem_of_cons, elem_of_nil in H
           | H : ¬ _ ∈ _ |- _ => rewrite !elem_of_cons, elem_of_nil in H
           end; split; try done; try tauto; try (intros; lia).
  intros _. repeat split; try tauto. apply not_elem_of_nil.
Qed.

Lemma default_base_path_serves_three_paths_witness :
  status (http_handler (WS_BASE_PATH None) "/ws/online" two_clients) = 404.
Proof.
  apply (default_base_path_serves_three_paths None "/ws/online" two_clients).
  - by left.
  - rewrite !not_elem_of_cons. repeat split; try discriminate.
    apply not_elem_of_nil.
Defined.

(** ** The keys of the registry *)
Section Usable.
Implicit Types (w : world) (c : nat) (ev : event) (id : jval).

Lemma elem_of_set_inv {K V} `{EqDecision K} (k i : K) (v d : V)
    (s : list (K * V)) :
  (k, v) ∈ Dict.set i d s → (k = i ∧ v = d) ∨ (k, v) ∈ s.
Proof.
  induction s as [|[k' v'] s IH]; simpl.
  - intros [= -> ->]%list_elem_of_singleton. by left.
  - destruct (decide (k' = i)) as [->|Hne]; rewrite !elem_of_cons.
    + intros [[= -> ->]|Hin]; [by left | right; by right].
    + intros [[= -> ->]|Hin]; [right; by left|].
      destruct (IH Hin) as [?|?]; [by left | right; by right].
Qed.

Lemma step_length ev w w' :
  step ev w = Returned w' → length (conns w) ≤ length (conns w').
Proof.
  intros Hstep. destruct (connect_or_not ev) as [->|Hev].
  - apply step_connect in Hstep as (-> & _). rewrite length_app. lia.
  - destruct (step_conns _ _ _ Hstep Hev) as (f & Hf & _).
    by rewrite (length_of_lookup f _ _ Hf).
Qed.

(** Every registry key is truthy and has a property name, and every registry
    entry points to a connection that was accepted. *)
Lemma step_usable ev w w' :
  step ev w = Returned w' →
  (∀ id c, (id, c) ∈ sockets w →
     truthy id = true ∧ is_Some (to_key id) ∧ c < length (conns w)) →
  ∀ id c, (id, c) ∈ sockets w' →
    truthy id = true ∧ is_Some (to_key id) ∧ c < length (conns w').
Proof.
  intros Hstep Hall id c Hin. pose proof (step_length _ _ _ Hstep) as Hlen.
  assert ((id, c) ∈ sockets w →
          truthy id = true ∧ is_Some (to_key id) ∧ c < length (conns w'))
    as Hold.
  { intros H. destruct (Hall id c H) as (? & ? & ?). repeat split; [done..|lia]. }
  destruct (step_stores _ _ _ Hstep)
    as [(Hs & _)|[(c0 & me & i & key & -> & Hid & Hi & Hk & Hs & _)
       |[(c0 & x & i & key & _ & _ & _ & _ & _ & Hs & _)|[_ Hh]]]].
  - apply Hold. by rewrite <- Hs.
  - rewrite Hs in Hin. apply elem_of_set_inv in Hin as [[-> ->]|Hin]; [|auto].
    split; [done|]. split; [by exists key|].
    simpl in Hstep. unfold accepted in Hstep.
    case_bool_decide; [lia|]. injection Hstep as <-.
    destruct (Hall i c0) as (_ & _ & ?); [|done].
    rewrite Hs at 1. apply elem_of_set.
  - rewrite Hs in Hin. apply Hold. by apply (DictFacts.elem_of_del i).
  - apply Hold. by apply (heartbeat_subset w w').
Qed.
End Usable.

(** X18.  In every state the running server reaches, every key of the
    registry is truthy and has a property name, and every registry entry
    points to a connection that was accepted. *)
Theorem registry_keys_are_usable (file : option (list (string * entry)))
    (fs : list write_result) (evs : list event) (w : world) (id : jval)
    (c : nat) :
  run evs (init file fs) = Returned w → (id, c) ∈ sockets w →
  truthy id = true ∧ is_Some (to_key id) ∧ is_Some (conns w !! c).
Proof.
  intros Hrun Hin.
  assert (∀ evs w0 w',
    run evs w0 = Returned w' →
    (∀ id c, (id, c) ∈ sockets w0 →
       truthy id = true ∧ is_Some (to_key id) ∧ c < length (conns w0)) →
    ∀ id c, (id, c) ∈ sockets w' →
       truthy id = true ∧ is_Some (to_key id) ∧ c < length (conns w')) as Hinv.
  { clear. induction evs as [|ev evs IH]; intros w0 w'; simpl.
    - by intros [= <-].
    - destruct (step ev w0) as [w1|w1] eqn:Hstep; simpl; [|done].
      intros Hrun Hall. apply (IH _ _ Hrun). by apply (step_usable ev w0). }
  destruct (Hinv evs _ _ Hrun) with (id := id) (c := c) as (Ht & Hk & Hc);
    [by intros i k ?%elem_of_nil | done |].
  split; [done|]. split; [done|]. by apply lookup_lt_is_Some.
Qed.

Lemma registry_keys_are_usable_witness :
  truthy (JNum "5") = true ∧ is_Some (to_key (JNum "5")) ∧
  is_Some (conns (world_of (run [Connect; Message 0 (hello five)]
                                (init None []))) !! 0).
Proof.
  apply (registry_keys_are_usable None [] [Connect; Message 0 (hello five)]
           (world_of (run [Connect; Message 0 (hello five)] (init None [])))
           (JNum "5") 0).
  - vm_compute. reflexivity.
  - apply list_elem_of_here.
Defined.
